(** * Midcurve shared: Uniswap V3 fixed-point utilities

    A shallow embedding of the pure functions of [utils/uniswapv3]
    (liquidity.ts, fees.ts, position.ts, price.ts) and the properties
    the specification states about them.

    Conventions.
    - A TypeScript [bigint] is a [Z].  Its [/] truncates toward zero
      ([Z.quot]), its [%] takes the sign of the dividend ([Z.rem]), and both
      throw a [RangeError] on a zero divisor.
    - A tick ([number]) is a [Z]; a count of decimals is a [nat].
    - A [number] that holds a fraction (the percentage of a profit) is an
      IEEE 754 binary64 value, a [spec_float] of the standard library with
      precision 53 and maximal exponent 1024, rounded to nearest, ties to
      even.
    - A function that can throw returns a [result]: the exception on the
      left, the value on the right. *)

From Stdlib Require Import ZArith QArith List String Bool Lia.
From Stdlib Require Import Ascii.
From Stdlib Require Import Qabs Qpower Zpower SpecFloat.
Import ListNotations.

Local Open Scope string_scope.
Local Open Scope Z_scope.

(** ** Exceptions *)

Inductive exn : Type :=
| RangeError (msg : string)   (* thrown by the bigint operators *)
| Error (msg : string)        (* [throw new Error(msg)] *)
| Invariant (msg : string).   (* a failed [invariant(...)] of the SDK *)

Definition result (A : Type) : Type := (exn + A)%type.

Definition ret {A : Type} (a : A) : result A := inr a.

Definition bind {A B : Type} (m : result A) (k : A -> result B) : result B :=
  match m with
  | inl e => inl e
  | inr a => k a
  end.

Declare Scope result_scope.
Delimit Scope result_scope with result.
Notation "x <- m ;; k" := (bind m (fun x => k))
  (at level 61, m at next level, right associativity) : result_scope.
Local Open Scope result_scope.

(** ** The bigint operators that can throw *)

Module BigInt.

Definition div (a b : Z) : result Z :=
  if b =? 0 then inl (RangeError "Division by zero") else ret (Z.quot a b).

Definition rem (a b : Z) : result Z :=
  if b =? 0 then inl (RangeError "Division by zero") else ret (Z.rem a b).

(** [10n ** BigInt(n)] for a count of decimals [n]. *)
Definition pow10 (n : nat) : Z := 10 ^ Z.of_nat n.

End BigInt.

(** ** JavaScript numbers

    A [number] is a binary64 double.  [Number(x)] of a bigint [x] is the
    double nearest to [x] (ties to even, an infinity past the largest
    double); an integer literal such as [100] or [0] denotes the same
    double as [Number] of that integer.  [/] is the IEEE division and [<=]
    the IEEE comparison. *)

Module Number.

Definition ofBigInt (z : Z) : spec_float := binary_normalize 53 1024 z 0 false.

Definition div (x y : spec_float) : spec_float := SFdiv 53 1024 x y.

Definition leb (x y : spec_float) : bool := SFleb x y.

Definition zero : spec_float := S754_zero false.

(** The rational that a finite double holds. *)
Definition toQ (x : spec_float) : option Q :=
  match x with
  | S754_zero _ => Some 0%Q
  | S754_finite s m e => Some (inject_Z (cond_Zopp s (Zpos m)) * 2 ^ e)%Q
  | S754_infinity _ | S754_nan => None
  end.

End Number.

(** ** constants.ts *)

Definition Q96 : Z := Z.shiftl 1 96.
Definition Q128 : Z := Z.shiftl 1 128.
Definition Q192 : Z := Z.shiftl 1 192.

(** ** math.ts *)

(** Modelled from the spec: [mulDiv] of utils/math.ts is imported by
    liquidity.ts but its file is not among the sources.  The specification
    gives the amounts as [a * b / c] with floor as the terminal division when
    [roundUp] is false; the division is a bigint division, which throws on a
    zero divisor. *)
Definition mulDiv (a b c : Z) : result Z :=
  if c =? 0 then inl (RangeError "Division by zero") else ret ((a * b) / c).

(** ** liquidity.ts *)

Record TokenAmounts : Type := mkTokenAmounts {
  token0Amount : Z;
  token1Amount : Z
}.

Definition getAmount0FromLiquidity
    (sqrtPriceLower sqrtPriceUpper liquidity : Z) (roundUp : bool) : result Z :=
  if (sqrtPriceUpper <=? sqrtPriceLower) || (liquidity =? 0) then ret 0
  else
    let numerator1 := liquidity * (sqrtPriceUpper - sqrtPriceLower) in
    let denominator := sqrtPriceUpper * sqrtPriceLower in
    if roundUp then
      let product := numerator1 * Q96 in
      r <- BigInt.rem product denominator ;;
      if r =? 0 then BigInt.div product denominator
      else (q <- BigInt.div product denominator ;; ret (q + 1))
    else mulDiv numerator1 Q96 denominator.

Definition getAmount1FromLiquidity
    (sqrtPriceLower sqrtPriceUpper liquidity : Z) (roundUp : bool) : result Z :=
  if (sqrtPriceUpper <=? sqrtPriceLower) || (liquidity =? 0) then ret 0
  else
    let delta := sqrtPriceUpper - sqrtPriceLower in
    if roundUp then
      let product := liquidity * delta in
      r <- BigInt.rem product Q96 ;;
      if r =? 0 then BigInt.div product Q96
      else (q <- BigInt.div product Q96 ;; ret (q + 1))
    else mulDiv liquidity delta Q96.

Definition getLiquidityFromAmount0
    (sqrtPriceLower sqrtPriceUpper amount0 : Z) (roundUp : bool) : result Z :=
  if (sqrtPriceUpper <=? sqrtPriceLower) || (amount0 <=? 0) then ret 0
  else
    let delta := sqrtPriceUpper - sqrtPriceLower in
    let numerator := amount0 * (sqrtPriceLower * sqrtPriceUpper) in
    let denominator := Q96 * delta in
    if roundUp then BigInt.div (numerator + denominator - 1) denominator
    else BigInt.div numerator denominator.

Definition getLiquidityFromAmount1
    (sqrtPriceLower sqrtPriceUpper amount1 : Z) (roundUp : bool) : result Z :=
  if (sqrtPriceUpper <=? sqrtPriceLower) || (amount1 <=? 0) then ret 0
  else
    let delta := sqrtPriceUpper - sqrtPriceLower in
    let numerator := amount1 * Q96 in
    let denominator := delta in
    if roundUp then BigInt.div (numerator + denominator - 1) denominator
    else BigInt.div numerator denominator.

Definition getTokenAmountsFromLiquidity_X96
    (liquidity sqrtPriceCurrentX96 sqrtPriceLowerX96 sqrtPriceUpperX96 : Z)
    (roundUp : bool) : result TokenAmounts :=
  if liquidity =? 0 then ret (mkTokenAmounts 0 0)
  else if sqrtPriceCurrentX96 <=? sqrtPriceLowerX96 then
    a0 <- getAmount0FromLiquidity sqrtPriceLowerX96 sqrtPriceUpperX96 liquidity roundUp ;;
    ret (mkTokenAmounts a0 0)
  else if sqrtPriceCurrentX96 >=? sqrtPriceUpperX96 then
    a1 <- getAmount1FromLiquidity sqrtPriceLowerX96 sqrtPriceUpperX96 liquidity roundUp ;;
    ret (mkTokenAmounts 0 a1)
  else
    a0 <- getAmount0FromLiquidity sqrtPriceCurrentX96 sqrtPriceUpperX96 liquidity roundUp ;;
    a1 <- getAmount1FromLiquidity sqrtPriceLowerX96 sqrtPriceCurrentX96 liquidity roundUp ;;
    ret (mkTokenAmounts a0 a1).

Definition getLiquidityFromTokenAmounts_X96
    (sqrtPriceCurrentX96 sqrtPriceLowerX96 sqrtPriceUpperX96 : Z)
    (token0Amount token1Amount : Z) : result Z :=
  if sqrtPriceCurrentX96 <=? sqrtPriceLowerX96 then
    getLiquidityFromAmount0 sqrtPriceLowerX96 sqrtPriceUpperX96 token0Amount false
  else if sqrtPriceCurrentX96 >=? sqrtPriceUpperX96 then
    getLiquidityFromAmount1 sqrtPriceLowerX96 sqrtPriceUpperX96 token1Amount false
  else
    liquidity0 <- getLiquidityFromAmount0 sqrtPriceCurrentX96 sqrtPriceUpperX96 token0Amount false ;;
    liquidity1 <- getLiquidityFromAmount1 sqrtPriceLowerX96 sqrtPriceCurrentX96 token1Amount false ;;
    ret (if liquidity0 <? liquidity1 then liquidity0 else liquidity1).

(** [totalBudgetInQuote]: both pockets in quote units, summed. *)
Definition totalBudgetInQuote
    (baseAmount quoteAmount : Z) (isQuoteToken0 : bool) (S : Z) : result Z :=
  baseAsQuote <-
    (if isQuoteToken0 then BigInt.div (baseAmount * Q192) (S * S)
     else BigInt.div (baseAmount * S * S) Q192) ;;
  ret (quoteAmount + baseAsQuote).

Definition quoteToToken0 (amountQuoteToken1 S : Z) : result Z :=
  BigInt.div (amountQuoteToken1 * Q192) (S * S).

Definition token0ToQuoteToken1 (amountQuoteToken0 S : Z) : result Z :=
  BigInt.div (amountQuoteToken0 * S * S) Q192.

Definition K_Q96_inToken1 (B A S : Z) : result Z :=
  if S <=? B then ret 0
  else if S >=? A then ret 0
  else
    let term1 := S - B in
    term2 <- BigInt.div (S * (A - S)) A ;;
    ret (term1 + term2).

Definition K_Q96_inToken0 (B A S : Z) : result Z :=
  if S <=? B then ret 0
  else if S >=? A then ret 0
  else
    termA <- BigInt.div (Q192 * (A - S)) (A * S) ;;
    termB <- BigInt.div (Q192 * (S - B)) (S * S) ;;
    ret (termA + termB).

Definition getLiquidityFromInvestmentAmounts
    (baseAmount : Z) (_baseDecimals : nat)
    (quoteAmount : Z) (_quoteDecimals : nat)
    (isQuoteToken0 : bool)
    (sqrtPriceLowerX96 sqrtPriceUpperX96 sqrtPriceCurrentX96 : Z) : result Z :=
  if (baseAmount <=? 0) && (quoteAmount <=? 0) then ret 0
  else
    let A := if sqrtPriceUpperX96 >? sqrtPriceLowerX96
             then sqrtPriceUpperX96 else sqrtPriceLowerX96 in
    let B := if sqrtPriceUpperX96 >? sqrtPriceLowerX96
             then sqrtPriceLowerX96 else sqrtPriceUpperX96 in
    let S := sqrtPriceCurrentX96 in
    if S <=? B then
      totalBudgetQuote <- totalBudgetInQuote baseAmount quoteAmount isQuoteToken0 S ;;
      amount0 <- (if isQuoteToken0 then ret totalBudgetQuote
                  else quoteToToken0 totalBudgetQuote S) ;;
      getLiquidityFromAmount0 B A amount0 false
    else if S >=? A then
      totalBudgetQuote <- totalBudgetInQuote baseAmount quoteAmount isQuoteToken0 S ;;
      amount1 <- (if isQuoteToken0 then token0ToQuoteToken1 totalBudgetQuote S
                  else ret totalBudgetQuote) ;;
      getLiquidityFromAmount1 B A amount1 false
    else
      budgetQuote <- totalBudgetInQuote baseAmount quoteAmount isQuoteToken0 S ;;
      K_Q96 <- (if isQuoteToken0 then K_Q96_inToken0 B A S
                else K_Q96_inToken1 B A S) ;;
      if K_Q96 <=? 0 then ret 0
      else BigInt.div (budgetQuote * Q96) K_Q96.

(** ** fees.ts *)

Definition safeDiff (a b : Z) : Z := if a >=? b then a - b else 0.

Record FeeGrowthInside : Type := mkFeeGrowthInside {
  inside0 : Z;
  inside1 : Z
}.

Definition computeFeeGrowthInside
    (tickCurrent tickLower tickUpper : Z)
    (feeGrowthGlobal0 feeGrowthGlobal1 : Z)
    (feeGrowthOutsideLower0 feeGrowthOutsideLower1 : Z)
    (feeGrowthOutsideUpper0 feeGrowthOutsideUpper1 : Z) : FeeGrowthInside :=
  let below0 := if tickCurrent >=? tickLower then feeGrowthOutsideLower0
                else safeDiff feeGrowthGlobal0 feeGrowthOutsideLower0 in
  let below1 := if tickCurrent >=? tickLower then feeGrowthOutsideLower1
                else safeDiff feeGrowthGlobal1 feeGrowthOutsideLower1 in
  let above0 := if tickCurrent <? tickUpper then feeGrowthOutsideUpper0
                else safeDiff feeGrowthGlobal0 feeGrowthOutsideUpper0 in
  let above1 := if tickCurrent <? tickUpper then feeGrowthOutsideUpper1
                else safeDiff feeGrowthGlobal1 feeGrowthOutsideUpper1 in
  let inside0 := safeDiff (safeDiff feeGrowthGlobal0 below0) above0 in
  let inside1 := safeDiff (safeDiff feeGrowthGlobal1 below1) above1 in
  mkFeeGrowthInside inside0 inside1.

(** ** The Uniswap SDK

    [encodeSqrtRatioX96], [nearestUsableTick] and [TickMath] come from
    @uniswap/v3-sdk.  They are an interface here: every statement below holds
    for each implementation of it.  The SDK checks its arguments with
    [invariant], so each operation may throw. *)

Class V3Sdk : Type := {
  encodeSqrtRatioX96 : Z -> Z -> result Z;   (* amount1, amount0 *)
  getSqrtRatioAtTick : Z -> result Z;
  getTickAtSqrtRatio : Z -> result Z;
  nearestUsableTick : Z -> Z -> result Z;    (* tick, tickSpacing *)
  MIN_TICK : Z;
  MAX_TICK : Z
}.

(** ** types.ts *)

Inductive PositionPhase : Type := below | in_range | above.

Record PnLPoint : Type := mkPnLPoint {
  price : Z;
  positionValue : Z;
  pnl : Z;
  pnlPercent : spec_float;
  phase : PositionPhase
}.

Record PnL : Type := mkPnL {
  pnl_value : Z;
  pnl_percent : spec_float
}.

Record PriceRange : Type := mkPriceRange {
  min : Z;
  max : Z
}.

(** ** position.ts (pure part) *)

Definition determinePhase (tickCurrent tickLower tickUpper : Z) : PositionPhase :=
  if tickCurrent <? tickLower then below
  else if tickCurrent >=? tickUpper then above
  else in_range.

(** [pnlPercent] is a JavaScript number: the bigint quotient
    [(pnl * 10000n) / costBasis] converted by [Number] and divided by the
    double 100, both steps with the rounding of binary64.  The bigint
    division is guarded by [costBasis > 0n] and cannot throw. *)
Definition calculatePnL (currentValue costBasis : Z) : PnL :=
  let pnl := currentValue - costBasis in
  let pnlPercent :=
    if costBasis >? 0
    then Number.div (Number.ofBigInt (Z.quot (pnl * 10000) costBasis))
           (Number.ofBigInt 100)
    else Number.zero in
  mkPnL pnl pnlPercent.

(** A [for] loop that pushes one element per index and aborts on the first
    exception. *)
Fixpoint forEach {A B : Type} (f : A -> result B) (l : list A) : result (list B) :=
  match l with
  | [] => ret []
  | x :: xs => y <- f x ;; ys <- forEach f xs ;; ret (y :: ys)
  end.

(** The indices [0 .. numPoints] of the loop [for (i = 0; i <= numPoints; i++)]. *)
Definition indices (numPoints : nat) : list Z :=
  map Z.of_nat (seq 0 (S numPoints)).

Section WithSdk.

Context {sdk : V3Sdk}.

(** *** liquidity.ts, tick-bounded variants *)

Definition getTokenAmountsFromLiquidity
    (liquidity sqrtPriceCurrentX96 tickLower tickUpper : Z)
    (roundUp : bool) : result TokenAmounts :=
  sqrtPriceLowerX96 <- getSqrtRatioAtTick tickLower ;;
  sqrtPriceUpperX96 <- getSqrtRatioAtTick tickUpper ;;
  getTokenAmountsFromLiquidity_X96
    liquidity sqrtPriceCurrentX96 sqrtPriceLowerX96 sqrtPriceUpperX96 roundUp.

Definition calculatePositionValue
    (liquidity sqrtPriceCurrentX96 tickLower tickUpper currentPrice : Z)
    (baseIsToken0 : bool) (baseDecimals : nat) : result Z :=
  if liquidity =? 0 then ret 0
  else
    amounts <- getTokenAmountsFromLiquidity
                 liquidity sqrtPriceCurrentX96 tickLower tickUpper false ;;
    if baseIsToken0 then
      v <- BigInt.div (token0Amount amounts * currentPrice) (BigInt.pow10 baseDecimals) ;;
      ret (v + token1Amount amounts)
    else
      v <- BigInt.div (token1Amount amounts * currentPrice) (BigInt.pow10 baseDecimals) ;;
      ret (token0Amount amounts + v).

(** *** price.ts

    A token address enters only through [BigInt(address)]; it is given here
    by that number. *)

Definition priceToSqrtRatioX96
    (baseTokenAddress quoteTokenAddress : Z) (baseTokenDecimals : nat)
    (price : Z) : result Z :=
  if price <=? 0 then inl (Error "price must be a positive bigint")
  else
    let baseIsToken0 := baseTokenAddress <? quoteTokenAddress in
    let amount0 := if baseIsToken0 then BigInt.pow10 baseTokenDecimals else price in
    let amount1 := if baseIsToken0 then price else BigInt.pow10 baseTokenDecimals in
    encodeSqrtRatioX96 amount1 amount0.

Definition priceToTick
    (price tickSpacing baseTokenAddress quoteTokenAddress : Z)
    (baseTokenDecimals : nat) : result Z :=
  sqrt <- priceToSqrtRatioX96 baseTokenAddress quoteTokenAddress baseTokenDecimals price ;;
  tickFloor <- getTickAtSqrtRatio sqrt ;;
  nearestUsableTick tickFloor tickSpacing.

Definition priceToClosestUsableTick
    (price tickSpacing baseTokenAddress quoteTokenAddress : Z)
    (baseTokenDecimals : nat) : result Z :=
  sqrt <- priceToSqrtRatioX96 baseTokenAddress quoteTokenAddress baseTokenDecimals price ;;
  t0 <- getTickAtSqrtRatio sqrt ;;
  if t0 >=? MAX_TICK then nearestUsableTick MAX_TICK tickSpacing
  else if t0 <=? MIN_TICK then nearestUsableTick MIN_TICK tickSpacing
  else
    s0 <- getSqrtRatioAtTick t0 ;;
    s1 <- getSqrtRatioAtTick (t0 + 1) ;;
    let d0 := if sqrt >=? s0 then sqrt - s0 else s0 - sqrt in
    let d1 := if s1 >=? sqrt then s1 - sqrt else sqrt - s1 in
    let tClosest := if d0 <? d1 then t0 else t0 + 1 in
    nearestUsableTick tClosest tickSpacing.

(** *** position.ts, the curve *)

(** The body of the loop of [generatePnLCurve] at index [i]. *)
Definition pnlPointAt
    (liquidity tickLower tickUpper costBasis : Z)
    (baseTokenAddress quoteTokenAddress : Z) (baseTokenDecimals : nat)
    (tickSpacing : Z) (priceRange : PriceRange) (priceStep : Z)
    (baseIsToken0 : bool) (i : Z) : result PnLPoint :=
  let price := min priceRange + i * priceStep in
  tick <- priceToTick price tickSpacing baseTokenAddress quoteTokenAddress
            baseTokenDecimals ;;
  sqrtPriceX96 <- getSqrtRatioAtTick tick ;;
  positionValue <- calculatePositionValue liquidity sqrtPriceX96 tickLower tickUpper
                     price baseIsToken0 baseTokenDecimals ;;
  let r := calculatePnL positionValue costBasis in
  let phase := determinePhase tick tickLower tickUpper in
  ret (mkPnLPoint price positionValue (pnl_value r) (pnl_percent r) phase).

Definition generatePnLCurve
    (liquidity tickLower tickUpper costBasis : Z)
    (baseTokenAddress quoteTokenAddress : Z) (baseTokenDecimals : nat)
    (tickSpacing : Z) (priceRange : PriceRange) (numPoints : nat)
    : result (list PnLPoint) :=
  priceStep <- BigInt.div (max priceRange - min priceRange) (Z.of_nat numPoints) ;;
  let baseIsToken0 := baseTokenAddress <? quoteTokenAddress in
  forEach
    (pnlPointAt liquidity tickLower tickUpper costBasis baseTokenAddress
       quoteTokenAddress baseTokenDecimals tickSpacing priceRange priceStep
       baseIsToken0)
    (indices numPoints).

End WithSdk.

(** ** The remaining functions of fees.ts, price.ts, liquidity.ts,
       position.ts and utils.ts *)

(** *** fees.ts *)

Definition calculateIncrementalFees
    (feeGrowthInsideCurrent feeGrowthInsideLast liquidity : Z) : result Z :=
  let feeGrowthDelta := safeDiff feeGrowthInsideCurrent feeGrowthInsideLast in
  BigInt.div (feeGrowthDelta * liquidity) Q128.

(** *** price.ts, the conversions that need no SDK

    A [JSBI] sqrt ratio enters through [BigInt(sqrtRatioX96.toString())]; it
    is given here by that number. *)

Definition sqrtRatioX96ToToken1PerToken0 (sqrtRatioX96 : Z) (token0Decimals : nat)
    : result Z :=
  let sqrt := sqrtRatioX96 in
  let sqrtP2 := sqrt * sqrt in
  let scale0 := BigInt.pow10 token0Decimals in
  BigInt.div (sqrtP2 * scale0) Q192.

Definition sqrtRatioX96ToToken0PerToken1 (sqrtRatioX96 : Z) (token1Decimals : nat)
    : result Z :=
  let sqrt := sqrtRatioX96 in
  let sqrtP2 := sqrt * sqrt in
  let scale1 := BigInt.pow10 token1Decimals in
  BigInt.div (Q192 * scale1) sqrtP2.

Definition valueOfToken0AmountInToken1 (token0Amount sqrtPriceX96 : Z) : result Z :=
  BigInt.div (token0Amount * sqrtPriceX96 * sqrtPriceX96) Q192.

Definition valueOfToken1AmountInToken0 (token1Amount sqrtPriceX96 : Z) : result Z :=
  BigInt.div (token1Amount * Q192) (sqrtPriceX96 * sqrtPriceX96).

Definition pricePerToken1InToken0 (sqrtPriceX96 : Z) (token1Decimals : nat) : result Z :=
  valueOfToken1AmountInToken0 (BigInt.pow10 token1Decimals) sqrtPriceX96.

Definition pricePerToken0InToken1 (sqrtPriceX96 : Z) (token0Decimals : nat) : result Z :=
  valueOfToken0AmountInToken1 (BigInt.pow10 token0Decimals) sqrtPriceX96.

(** *** constants.ts and utils.ts, the fee tiers *)

Definition FEE_TIERS : list Z := [100; 500; 3000; 10000].

(** [TICK_SPACINGS], a record keyed by the fee tiers; a key that is not a
    fee tier has no entry. *)
Definition TICK_SPACINGS (fee : Z) : option Z :=
  if fee =? 100 then Some 1
  else if fee =? 500 then Some 10
  else if fee =? 3000 then Some 60
  else if fee =? 10000 then Some 200
  else None.

(** [numberToString] is the conversion of a number to a string in the
    template literal [`Unsupported fee tier: ${fee}`]. *)
Section FeeTiers.

Variable numberToString : Z -> string.

Definition getTickSpacing (fee : Z) : result Z :=
  if fee =? 100 then ret 1
  else if fee =? 500 then ret 10
  else if fee =? 3000 then ret 60
  else if fee =? 10000 then ret 200
  else inl (Error ("Unsupported fee tier: " ++ numberToString fee)).

End FeeTiers.

(** *** evm/address.ts and utils.ts, the addresses

    A string is the sequence of its code units.  The regular expression
    /^0x[a-fA-F0-9]{40}$/i accepts the digit 0, the letter x in either case
    (the flag [i]) and forty hexadecimal digits, and nothing before or
    after. *)

Definition isHexDigit (c : ascii) : bool :=
  let n := Ascii.nat_of_ascii c in
  ((48 <=? n) && (n <=? 57) || (65 <=? n) && (n <=? 70)
   || (97 <=? n) && (n <=? 102))%nat.

Fixpoint allHexDigits (s : string) : bool :=
  match s with
  | EmptyString => true
  | String c rest => isHexDigit c && allHexDigits rest
  end.

Definition isValidAddress (address : string) : bool :=
  match address with
  | String c0 (String c1 digits) =>
      Ascii.eqb c0 "0"%char && (Ascii.eqb c1 "x"%char || Ascii.eqb c1 "X"%char)
      && (String.length digits =? 40)%nat && allHexDigits digits
  | _ => false
  end.

(** [getAddress] is viem's checksum encoder and [bigIntOfString] the
    conversion [BigInt(string)]; both may throw.  They are an interface: the
    statements below hold for each implementation. *)
Class AddressEnv : Type := {
  getAddress : string -> result string;
  bigIntOfString : string -> result Z
}.

Section Addresses.

Context {env : AddressEnv}.

Definition normalizeAddress (address : string) : result string :=
  if negb (isValidAddress address)
  then inl (Error ("Invalid Ethereum address: " ++ address))
  else getAddress address.

Definition compareAddresses (addressA addressB : string) : result Z :=
  normalizedA <- normalizeAddress addressA ;;
  normalizedB <- normalizeAddress addressB ;;
  bigintA <- bigIntOfString normalizedA ;;
  bigintB <- bigIntOfString normalizedB ;;
  if bigintA <? bigintB then ret (-1)
  else if bigintA >? bigintB then ret 1
  else ret 0.

Definition sameAddress (a b : string) : result bool :=
  na <- normalizeAddress a ;;
  nb <- normalizeAddress b ;;
  ret (String.eqb na nb).

Definition isToken0 (addressA addressB : string) : result bool :=
  c <- compareAddresses addressA addressB ;;
  ret (c <? 0).

(** [sortTokens] on any record with an [address] field; the result is the
    pair [(token0, token1)]. *)
Definition sortTokens {T : Type} (address : T -> string) (tokenA tokenB : T)
    : result (T * T) :=
  first <- isToken0 (address tokenA) (address tokenB) ;;
  if first then ret (tokenA, tokenB) else ret (tokenB, tokenA).

(** The result is the pair [(baseIsToken0, quoteIsToken0)].  In
    [!baseIsToken0 && !sameAddress(...)] the second comparison is made only
    when the first operand is true. *)
Definition getTokenMapping
    (token0Address token1Address baseTokenAddress quoteTokenAddress : string)
    : result (bool * bool) :=
  baseIsToken0 <- sameAddress baseTokenAddress token0Address ;;
  quoteIsToken0 <- sameAddress quoteTokenAddress token0Address ;;
  if baseIsToken0 && quoteIsToken0
  then inl (Error "Base and quote cannot be the same token")
  else
    baseKnown <- (if baseIsToken0 then ret true
                  else sameAddress baseTokenAddress token1Address) ;;
    if negb baseKnown then inl (Error "Base token must be token0 or token1")
    else
      quoteKnown <- (if quoteIsToken0 then ret true
                     else sameAddress quoteTokenAddress token1Address) ;;
      if negb quoteKnown then inl (Error "Quote token must be token0 or token1")
      else ret (baseIsToken0, quoteIsToken0).

End Addresses.

Section WithSdkWrappers.

Context {sdk : V3Sdk}.

(** *** price.ts, the conversions through a tick *)

Definition tickToSqrtRatioX96 (tick : Z) : result Z :=
  getSqrtRatioAtTick tick.

Definition tickToPrice
    (tick baseTokenAddress quoteTokenAddress : Z) (baseTokenDecimals : nat)
    : result Z :=
  sqrtRatio <- tickToSqrtRatioX96 tick ;;
  let baseIsToken0 := baseTokenAddress <? quoteTokenAddress in
  if baseIsToken0 then sqrtRatioX96ToToken1PerToken0 sqrtRatio baseTokenDecimals
  else sqrtRatioX96ToToken0PerToken1 sqrtRatio baseTokenDecimals.

(** *** liquidity.ts, the remaining tick-bounded variants *)

Definition getLiquidityFromTokenAmounts
    (sqrtPriceCurrentX96 tickLower tickUpper token0Amount token1Amount : Z)
    : result Z :=
  sqrtPriceLowerX96 <- getSqrtRatioAtTick tickLower ;;
  sqrtPriceUpperX96 <- getSqrtRatioAtTick tickUpper ;;
  getLiquidityFromTokenAmounts_X96
    sqrtPriceCurrentX96 sqrtPriceLowerX96 sqrtPriceUpperX96 token0Amount token1Amount.

Definition getTokenAmountsFromLiquidity_withTick
    (liquidity tickCurrent tickLower tickUpper : Z) (roundUp : bool)
    : result TokenAmounts :=
  sqrtPriceCurrentX96 <- getSqrtRatioAtTick tickCurrent ;;
  getTokenAmountsFromLiquidity liquidity sqrtPriceCurrentX96 tickLower tickUpper roundUp.

Definition getLiquidityFromTokenAmounts_withTick
    (tickCurrent tickLower tickUpper token0Amount token1Amount : Z) : result Z :=
  sqrtPriceCurrentX96 <- getSqrtRatioAtTick tickCurrent ;;
  getLiquidityFromTokenAmounts
    sqrtPriceCurrentX96 tickLower tickUpper token0Amount token1Amount.

(** The ticks come upper first; the lower one is converted first. *)
Definition getLiquidityFromInvestmentAmounts_withTick
    (baseAmount : Z) (baseDecimals : nat) (quoteAmount : Z) (quoteDecimals : nat)
    (isQuoteToken0 : bool) (tickUpper tickLower sqrtPriceCurrentX96 : Z) : result Z :=
  sqrtPriceLowerX96 <- getSqrtRatioAtTick tickLower ;;
  sqrtPriceUpperX96 <- getSqrtRatioAtTick tickUpper ;;
  getLiquidityFromInvestmentAmounts baseAmount baseDecimals quoteAmount quoteDecimals
    isQuoteToken0 sqrtPriceLowerX96 sqrtPriceUpperX96 sqrtPriceCurrentX96.

(** *** position.ts, the value at a price *)

Definition calculatePositionValueAtPrice
    (liquidity tickLower tickUpper targetPrice baseTokenAddress quoteTokenAddress : Z)
    (baseTokenDecimals : nat) (tickSpacing : Z) : result Z :=
  targetTick <- priceToTick targetPrice tickSpacing baseTokenAddress quoteTokenAddress
                  baseTokenDecimals ;;
  let baseIsToken0 := baseTokenAddress <? quoteTokenAddress in
  sqrtPriceX96 <- getSqrtRatioAtTick targetTick ;;
  calculatePositionValue liquidity sqrtPriceX96 tickLower tickUpper targetPrice
    baseIsToken0 baseTokenDecimals.

End WithSdkWrappers.

(** ** The formulas of the specification

    These follow the words of the specification and are what the functions
    above are compared with. *)

Definition floorDiv (a b : Z) : Z := a / b.

(** The ceiling of [a / b]; [ceilDiv_least] below justifies the name. *)
Definition ceilDiv (a b : Z) : Z := - ((- a) / b).

Definition terminalDiv (roundUp : bool) (a b : Z) : Z :=
  if roundUp then ceilDiv a b else floorDiv a b.

(** amount0 = liquidity * (sqrtHigh - sqrtLow) * 2^96 / (sqrtHigh * sqrtLow) *)
Definition amount0Over (roundUp : bool) (L low high : Z) : Z :=
  terminalDiv roundUp (L * (high - low) * 2 ^ 96) (high * low).

(** amount1 = liquidity * (sqrtHigh - sqrtLow) / 2^96 *)
Definition amount1Over (roundUp : bool) (L low high : Z) : Z :=
  terminalDiv roundUp (L * (high - low)) (2 ^ 96).

(** The three regimes of amountsFromLiquidity. *)
Definition amountsFromLiquidity (roundUp : bool) (L current lower upper : Z) : TokenAmounts :=
  if current <=? lower then mkTokenAmounts (amount0Over roundUp L lower upper) 0
  else if upper <=? current then mkTokenAmounts 0 (amount1Over roundUp L lower upper)
  else mkTokenAmounts (amount0Over roundUp L current upper)
                      (amount1Over roundUp L lower current).

(** liquidityFromAmount0 and liquidityFromAmount1 with their floor, and the
    three regimes of liquidityFromAmounts. *)
Definition liquidityFromAmount0 (amount0 low high : Z) : Z :=
  if amount0 <=? 0 then 0
  else floorDiv (amount0 * (low * high)) (2 ^ 96 * (high - low)).

Definition liquidityFromAmount1 (amount1 low high : Z) : Z :=
  if amount1 <=? 0 then 0
  else floorDiv (amount1 * 2 ^ 96) (high - low).

Definition liquidityFromAmounts (current lower upper amount0 amount1 : Z) : Z :=
  if current <=? lower then liquidityFromAmount0 amount0 lower upper
  else if upper <=? current then liquidityFromAmount1 amount1 lower upper
  else Z.min (liquidityFromAmount0 amount0 current upper)
             (liquidityFromAmount1 amount1 lower current).

(** K_inToken1 = (S - B) + floor(S (A - S) / A) *)
Definition K_inToken1 (A B S : Z) : Z :=
  (S - B) + floorDiv (S * (A - S)) A.

(** K_inToken0 = floor(2^192 (A - S) / (A S)) + floor(2^192 (S - B) / S^2) *)
Definition K_inToken0 (A B S : Z) : Z :=
  floorDiv (2 ^ 192 * (A - S)) (A * S) + floorDiv (2 ^ 192 * (S - B)) (S * S).

(** The budget: the quote amount plus the base amount converted at [S].  The
    conversion is a bigint quotient, which truncates; on a base amount that
    is not negative it is the floor ([budgetInQuote_floor]). *)
Definition budgetInQuote (baseAmount quoteAmount : Z) (isQuoteToken0 : bool) (S : Z) : Z :=
  quoteAmount +
  (if isQuoteToken0 then Z.quot (baseAmount * 2 ^ 192) (S * S)
   else Z.quot (baseAmount * S * S) (2 ^ 192)).

(** safeDifference and the fee growth inside a range, for one token. *)
Definition safeDifference (a b : Z) : Z := if b <=? a then a - b else 0.

Definition feeGrowthInside
    (tickCurrent tickLower tickUpper growthGlobal outsideLower outsideUpper : Z) : Z :=
  let lower := if tickLower <=? tickCurrent then outsideLower
               else safeDifference growthGlobal outsideLower in
  let upper := if tickCurrent <? tickUpper then outsideUpper
               else safeDifference growthGlobal outsideUpper in
  safeDifference (safeDifference growthGlobal lower) upper.

(** The order of the phases along the tick axis. *)
Definition phaseRank (p : PositionPhase) : Z :=
  match p with
  | below => 0
  | in_range => 1
  | above => 2
  end.

(** ** Rounding to binary64

    The vocabulary of the proofs about [Number.ofBigInt] and [Number.div]. *)

(** [loc_ok N D q l]: the rational N / D lies in [q, q + 1), and [l] tells
    where: on q, below the midpoint, on it or above it. *)
Definition loc_ok (N D q : Z) (l : location) : Prop :=
  0 <= N - q * D < D /\
  match l with
  | loc_Exact => N - q * D = 0
  | loc_Inexact c => 0 < N - q * D /\ (2 * (N - q * D) ?= D) = c
  end.

(** The last step of a rounding: a rounded mantissa [M0] between 2^52 and
    2^53 with its exponent; 2^53 moves to the next exponent, and an
    exponent above 971 gives an infinity. *)
Definition finish (s : bool) (M0 e : Z) : spec_float :=
  if M0 <? 2 ^ 53 then
    if e <=? 971 then S754_finite s (Z.to_pos M0) e else S754_infinity s
  else
    if e + 1 <=? 971 then S754_finite s (Z.to_pos (2 ^ 52)) (e + 1)
    else S754_infinity s.

(** A double that is not zero, with a mantissa of 53 bits. *)
Definition normal (s : bool) (m e : Z) : spec_float :=
  if e <=? 971 then S754_finite s (Z.to_pos m) e else S754_infinity s.

(** The double 100. *)
Definition hundred : spec_float := Number.ofBigInt 100.

(** ** An implementation of the SDK interface on a coarse tick scale

    The tables of [TickMath] are not part of the sources.  [coarseSdk]
    implements the interface with price = 4^tick instead of 1.0001^tick, so
    that sqrtPrice = 2^tick * 2^96; [encodeSqrtRatioX96] and
    [nearestUsableTick] are the SDK's (the square root of amount1 * 2^192 /
    amount0, and [Math.round(tick / spacing) * spacing] kept inside the tick
    bounds).  It is used to run the functions on examples only: nothing
    below depends on it being the SDK. *)

Definition coarse_encodeSqrtRatioX96 (amount1 amount0 : Z) : result Z :=
  if amount0 =? 0 then inl (RangeError "Division by zero")
  else
    let ratioX192 := Z.quot (Z.shiftl amount1 192) amount0 in
    if ratioX192 <? 0 then inl (Invariant "NEGATIVE") else ret (Z.sqrt ratioX192).

Definition coarse_getSqrtRatioAtTick (tick : Z) : result Z :=
  if (-96 <=? tick) && (tick <=? 96) then ret (Z.shiftl 1 (96 + tick))
  else inl (Invariant "TICK").

Definition coarse_getTickAtSqrtRatio (sqrtRatioX96 : Z) : result Z :=
  if (1 <=? sqrtRatioX96) && (sqrtRatioX96 <? Z.shiftl 1 192)
  then ret (Z.log2 sqrtRatioX96 - 96)
  else inl (Invariant "SQRT_RATIO").

Definition coarse_nearestUsableTick (tick tickSpacing : Z) : result Z :=
  if tickSpacing <=? 0 then inl (Invariant "TICK_SPACING")
  else if (tick <? -96) || (96 <? tick) then inl (Invariant "TICK_BOUND")
  else
    let rounded := ((2 * tick + tickSpacing) / (2 * tickSpacing)) * tickSpacing in
    if rounded <? -96 then ret (rounded + tickSpacing)
    else if 96 <? rounded then ret (rounded - tickSpacing)
    else ret rounded.

Definition coarseSdk : V3Sdk := {|
  encodeSqrtRatioX96 := coarse_encodeSqrtRatioX96;
  getSqrtRatioAtTick := coarse_getSqrtRatioAtTick;
  getTickAtSqrtRatio := coarse_getTickAtSqrtRatio;
  nearestUsableTick := coarse_nearestUsableTick;
  MIN_TICK := -96;
  MAX_TICK := 96
|}.

(** A run on the coarse scale: a position between ticks 1 and 3, prices
    1 to 151 of the base token, which is token0. *)
Definition coarse_curve : result (list PnLPoint) :=
  generatePnLCurve (sdk := coarseSdk) 1000000000000000000 1 3 3000000000000000000
    1 2 0 1 (mkPriceRange 1 151) 150.

(** ** An implementation of the address interface

    [plainAddressEnv] lower-cases the letters where viem computes the
    checksum case, and reads a string 0x followed by hexadecimal digits as a
    number.  It is used to run the address functions on examples only. *)

Definition plain_hexValue (c : ascii) : Z :=
  let n := Z.of_nat (Ascii.nat_of_ascii c) in
  if n <=? 57 then n - 48 else if n <=? 70 then n - 55 else n - 87.

Fixpoint plain_hexNumber (s : string) (acc : Z) : Z :=
  match s with
  | EmptyString => acc
  | String c rest => plain_hexNumber rest (16 * acc + plain_hexValue c)
  end.

Definition plain_bigIntOfString (s : string) : result Z :=
  match s with
  | String "0"%char (String "x"%char digits) =>
      if allHexDigits digits && negb (String.eqb digits "")
      then ret (plain_hexNumber digits 0)
      else inl (Error "SyntaxError")
  | _ => inl (Error "SyntaxError")
  end.

Definition plain_lower (c : ascii) : ascii :=
  let n := Ascii.nat_of_ascii c in
  if ((65 <=? n) && (n <=? 90))%nat then Ascii.ascii_of_nat (n + 32) else c.

Fixpoint plain_lowercase (s : string) : string :=
  match s with
  | EmptyString => EmptyString
  | String c rest => String (plain_lower c) (plain_lowercase rest)
  end.

Definition plainAddressEnv : AddressEnv := {|
  getAddress := fun s => ret (plain_lowercase s);
  bigIntOfString := plain_bigIntOfString
|}.

(** Addresses of address.test.ts. *)
Definition ADDRESS_ONE : string := "0x0000000000000000000000000000000000000001".
Definition ADDRESS_TWO : string := "0x0000000000000000000000000000000000000002".
Definition USDC_LOWERCASE : string := "0xa0b86991c6218b36c1d19d4a2e9eb0ce3606eb48".
Definition USDC_UPPERCASE : string := "0xA0B86991C6218B36C1D19D4A2E9EB0CE3606EB48".

(** A short run of the curve on the coarse scale. *)
Definition coarse_short_curve : result (list PnLPoint) :=
  generatePnLCurve (sdk := coarseSdk) 1000000000000000000 1 3 3000000000000000000
    1 2 0 1 (mkPriceRange 3 5) 2.

(** The sqrt price of price.test.ts (WETH/USDC on Arbitrum). *)
Definition SQRT_PRICE_X96_EXAMPLE : Z := 4880027310900678652549898.

(** ** The fixtures of liquidity.fixtures.ts *)

Definition scaleQ96 (num : Z) : Z := Z.quot (Q96 * num) 1000.
Definition SQRT_LOWER : Z := scaleQ96 1100.
Definition SQRT_UPPER : Z := scaleQ96 1300.
Definition SQRT_BELOW : Z := scaleQ96 1000.
Definition SQRT_IN : Z := scaleQ96 1200.
Definition SQRT_ABOVE : Z := scaleQ96 1400.
Definition L_fixture : Z := 1000000000000000000.

(** * Properties *)

(** ** Arithmetic of the bigint operators *)

Lemma Q96_eq : Q96 = 2 ^ 96.
Proof. reflexivity. Qed.

Lemma Q192_eq : Q192 = 2 ^ 192.
Proof. reflexivity. Qed.

Lemma Q96_pos : 0 < Q96.
Proof. reflexivity. Qed.

Lemma Q192_pos : 0 < Q192.
Proof. reflexivity. Qed.

Lemma ceilDiv_least (a b : Z) :
  0 < b -> b * (ceilDiv a b - 1) < a <= b * ceilDiv a b.
Proof.
  intros Hb. unfold ceilDiv.
  pose proof (Z.div_mod (- a) b ltac:(lia)) as E.
  pose proof (Z.mod_pos_bound (- a) b Hb) as M.
  nia.
Qed.

Lemma BigInt_div_floor (a b : Z) :
  0 <= a -> 0 < b -> BigInt.div a b = ret (a / b).
Proof.
  intros Ha Hb. unfold BigInt.div.
  destruct (Z.eqb_spec b 0) as [->|_]; [lia|].
  now rewrite Z.quot_div_nonneg.
Qed.

Lemma BigInt_rem_mod (a b : Z) :
  0 <= a -> 0 < b -> BigInt.rem a b = ret (a mod b).
Proof.
  intros Ha Hb. unfold BigInt.rem.
  destruct (Z.eqb_spec b 0) as [->|_]; [lia|].
  now rewrite Z.rem_mod_nonneg.
Qed.

Lemma mulDiv_floor (a b c : Z) :
  0 < c -> mulDiv a b c = ret (floorDiv (a * b) c).
Proof.
  intros Hc. unfold mulDiv.
  destruct (Z.eqb_spec c 0) as [->|_]; [lia|reflexivity].
Qed.

(** The code's ceiling, quotient plus one unless the remainder is zero, is
    the ceiling. *)
Lemma ceiling_by_remainder (a b : Z) :
  0 < b ->
  (if a mod b =? 0 then a / b else a / b + 1) = ceilDiv a b.
Proof.
  intros Hb.
  pose proof (ceilDiv_least a b Hb) as C.
  pose proof (Z.div_mod a b ltac:(lia)) as E.
  pose proof (Z.mod_pos_bound a b Hb) as M.
  destruct (Z.eqb_spec (a mod b) 0) as [R|R]; nia.
Qed.

Lemma bigint_ceiling (a b : Z) :
  0 <= a -> 0 < b ->
  (r <- BigInt.rem a b ;;
   if r =? 0 then BigInt.div a b
   else (q <- BigInt.div a b ;; ret (q + 1))) = ret (ceilDiv a b).
Proof.
  intros Ha Hb.
  rewrite BigInt_rem_mod, BigInt_div_floor by assumption. cbn [bind ret].
  rewrite <- (ceiling_by_remainder a b Hb).
  now destruct (a mod b =? 0).
Qed.

Lemma terminalDiv_zero (roundUp : bool) (b : Z) : terminalDiv roundUp 0 b = 0.
Proof.
  destruct roundUp; unfold terminalDiv, ceilDiv, floorDiv;
    rewrite ?Z.opp_0, Zdiv_0_l; reflexivity.
Qed.

(** ** Amounts from liquidity *)

Lemma getAmount0FromLiquidity_formula (low high L : Z) (roundUp : bool) :
  0 <= L -> 0 < low < high ->
  getAmount0FromLiquidity low high L roundUp = ret (amount0Over roundUp L low high).
Proof.
  intros HL [Hlow Hhigh]. unfold getAmount0FromLiquidity, amount0Over.
  destruct (Z.leb_spec high low) as [?|_]; [lia|]. cbn [orb].
  destruct (Z.eqb_spec L 0) as [->|HL0].
  - now rewrite !Z.mul_0_l, terminalDiv_zero.
  - cbv zeta. rewrite <- Q96_eq.
    assert (0 < high * low) by nia.
    assert (0 <= L * (high - low) * Q96) by (pose proof Q96_pos; nia).
    destruct roundUp; cbn [terminalDiv].
    + now apply bigint_ceiling.
    + now apply mulDiv_floor.
Qed.

Lemma getAmount1FromLiquidity_formula (low high L : Z) (roundUp : bool) :
  0 <= L -> low < high ->
  getAmount1FromLiquidity low high L roundUp = ret (amount1Over roundUp L low high).
Proof.
  intros HL Hhigh. unfold getAmount1FromLiquidity, amount1Over.
  destruct (Z.leb_spec high low) as [?|_]; [lia|]. cbn [orb].
  destruct (Z.eqb_spec L 0) as [->|HL0].
  - now rewrite !Z.mul_0_l, terminalDiv_zero.
  - cbv zeta. rewrite <- Q96_eq.
    assert (0 <= L * (high - low)) by nia.
    destruct roundUp; cbn [terminalDiv].
    + apply bigint_ceiling; [assumption|apply Q96_pos].
    + apply mulDiv_floor, Q96_pos.
Qed.

Lemma getAmount0FromLiquidity_degenerate (low high L : Z) (roundUp : bool) :
  high <= low \/ L = 0 -> getAmount0FromLiquidity low high L roundUp = ret 0.
Proof.
  intros H. unfold getAmount0FromLiquidity.
  destruct (Z.leb_spec high low); [reflexivity|].
  destruct (Z.eqb_spec L 0); [reflexivity|lia].
Qed.

Lemma getAmount1FromLiquidity_degenerate (low high L : Z) (roundUp : bool) :
  high <= low \/ L = 0 -> getAmount1FromLiquidity low high L roundUp = ret 0.
Proof.
  intros H. unfold getAmount1FromLiquidity.
  destruct (Z.leb_spec high low); [reflexivity|].
  destruct (Z.eqb_spec L 0); [reflexivity|lia].
Qed.

Lemma getTokenAmountsFromLiquidity_X96_formulas
    (L current lower upper : Z) (roundUp : bool) :
  (0 <= L -> 0 < lower < upper ->
   getTokenAmountsFromLiquidity_X96 L current lower upper roundUp
   = ret (amountsFromLiquidity roundUp L current lower upper))
  /\
  (L = 0 \/ upper <= lower ->
   getTokenAmountsFromLiquidity_X96 L current lower upper roundUp
   = ret (mkTokenAmounts 0 0)).
Proof.
  split.
  - intros HL [Hlo Hup].
    unfold getTokenAmountsFromLiquidity_X96, amountsFromLiquidity.
    destruct (Z.eqb_spec L 0) as [->|HL0].
    + unfold amount0Over, amount1Over. rewrite !Z.mul_0_l, !terminalDiv_zero.
      now destruct (current <=? lower), (upper <=? current).
    + destruct (Z.leb_spec current lower) as [Hc|Hc].
      * now rewrite getAmount0FromLiquidity_formula by lia.
      * rewrite Z.geb_leb.
        destruct (Z.leb_spec upper current) as [Hu|Hu].
        -- now rewrite getAmount1FromLiquidity_formula by lia.
        -- rewrite getAmount0FromLiquidity_formula by lia.
           now rewrite getAmount1FromLiquidity_formula by lia.
  - intros H. unfold getTokenAmountsFromLiquidity_X96.
    destruct (Z.eqb_spec L 0) as [|HL0]; [reflexivity|].
    assert (Hup : upper <= lower) by lia.
    destruct (Z.leb_spec current lower) as [Hc|Hc].
    + now rewrite getAmount0FromLiquidity_degenerate by auto.
    + rewrite Z.geb_leb.
      destruct (Z.leb_spec upper current) as [Hu|Hu]; [|lia].
      now rewrite getAmount1FromLiquidity_degenerate by auto.
Qed.

(** C1.  For a liquidity [L >= 0] and bounds [0 < lower < upper],
    [getTokenAmountsFromLiquidity_X96] returns the amounts of the three
    regimes of the specification: below the range token0 over
    [[lower, upper]] and no token1, above the range token1 over
    [[lower, upper]] and no token0, inside the range token0 over
    [[current, upper]] and token1 over [[lower, current]], with
    amount0 = L (high - low) 2^96 / (high low), amount1 = L (high - low) / 2^96,
    the last division a ceiling when [roundUp] and a floor otherwise.  For
    [L = 0] or a non-increasing pair of bounds it returns [(0, 0)] and does
    not throw. *)
Theorem getTokenAmountsFromLiquidity_X96_regimes
    (L current lower upper : Z) (roundUp : bool) :
  (0 <= L -> 0 < lower < upper ->
   getTokenAmountsFromLiquidity_X96 L current lower upper roundUp
   = ret (amountsFromLiquidity roundUp L current lower upper))
  /\
  (L = 0 \/ upper <= lower ->
   getTokenAmountsFromLiquidity_X96 L current lower upper roundUp
   = ret (mkTokenAmounts 0 0)).
Proof.
  exact (getTokenAmountsFromLiquidity_X96_formulas L current lower upper roundUp).
Qed.

Lemma getTokenAmountsFromLiquidity_X96_regimes_witness :
  getTokenAmountsFromLiquidity_X96 L_fixture SQRT_IN SQRT_LOWER SQRT_UPPER true
  = ret (mkTokenAmounts 64102564102564103 100000000000000001)
  /\
  getTokenAmountsFromLiquidity_X96 L_fixture SQRT_IN SQRT_UPPER SQRT_LOWER true
  = ret (mkTokenAmounts 0 0).
Proof.
  split.
  - apply (proj1 (getTokenAmountsFromLiquidity_X96_regimes
                    L_fixture SQRT_IN SQRT_LOWER SQRT_UPPER true));
      vm_compute; intuition discriminate.
  - apply (proj2 (getTokenAmountsFromLiquidity_X96_regimes
                    L_fixture SQRT_IN SQRT_UPPER SQRT_LOWER true)).
    right. vm_compute. discriminate.
Defined.

(** The expectations of liquidity.test.ts on the fixtures, floor and
    ceiling. *)
Example fixture_floor_below :
  getTokenAmountsFromLiquidity_X96 L_fixture SQRT_BELOW SQRT_LOWER SQRT_UPPER false
  = ret (mkTokenAmounts 139860139860139860 0).
Proof. reflexivity. Qed.

Example fixture_floor_in_range :
  getTokenAmountsFromLiquidity_X96 L_fixture SQRT_IN SQRT_LOWER SQRT_UPPER false
  = ret (mkTokenAmounts 64102564102564102 100000000000000000).
Proof. reflexivity. Qed.

Example fixture_floor_above :
  getTokenAmountsFromLiquidity_X96 L_fixture SQRT_ABOVE SQRT_LOWER SQRT_UPPER false
  = ret (mkTokenAmounts 0 199999999999999999).
Proof. reflexivity. Qed.

Example fixture_ceil_above :
  getTokenAmountsFromLiquidity_X96 L_fixture SQRT_ABOVE SQRT_LOWER SQRT_UPPER true
  = ret (mkTokenAmounts 0 200000000000000000).
Proof. reflexivity. Qed.

(** ** Liquidity from amounts *)

Lemma getLiquidityFromAmount0_floor (low high amount0 : Z) :
  0 < low < high ->
  getLiquidityFromAmount0 low high amount0 false
  = ret (liquidityFromAmount0 amount0 low high).
Proof.
  intros [Hlow Hhigh]. unfold getLiquidityFromAmount0, liquidityFromAmount0.
  destruct (Z.leb_spec high low) as [?|_]; [lia|]. cbn [orb].
  destruct (Z.leb_spec amount0 0) as [|Ha]; [reflexivity|].
  cbv zeta. rewrite <- Q96_eq. pose proof Q96_pos.
  assert (0 < low * high) by nia.
  apply BigInt_div_floor; nia.
Qed.

Lemma getLiquidityFromAmount1_floor (low high amount1 : Z) :
  low < high ->
  getLiquidityFromAmount1 low high amount1 false
  = ret (liquidityFromAmount1 amount1 low high).
Proof.
  intros Hhigh. unfold getLiquidityFromAmount1, liquidityFromAmount1.
  destruct (Z.leb_spec high low) as [?|_]; [lia|]. cbn [orb].
  destruct (Z.leb_spec amount1 0) as [|Ha]; [reflexivity|].
  cbv zeta. rewrite <- Q96_eq. pose proof Q96_pos.
  apply BigInt_div_floor; nia.
Qed.

Lemma getLiquidityFromTokenAmounts_X96_closed_form
    (current lower upper amount0 amount1 : Z) :
  0 < lower < upper ->
  getLiquidityFromTokenAmounts_X96 current lower upper amount0 amount1
  = ret (liquidityFromAmounts current lower upper amount0 amount1).
Proof.
  intros [Hlo Hup].
  unfold getLiquidityFromTokenAmounts_X96, liquidityFromAmounts.
  destruct (Z.leb_spec current lower) as [Hc|Hc].
  - apply getLiquidityFromAmount0_floor. lia.
  - rewrite Z.geb_leb. destruct (Z.leb_spec upper current) as [Hu|Hu].
    + apply getLiquidityFromAmount1_floor. lia.
    + rewrite getLiquidityFromAmount0_floor by lia.
      rewrite getLiquidityFromAmount1_floor by lia.
      cbn [bind ret]. f_equal.
      destruct (Z.ltb_spec (liquidityFromAmount0 amount0 current upper)
                           (liquidityFromAmount1 amount1 lower current)); lia.
Qed.

(** C2.  For every pair of amounts and bounds [0 < lower < upper],
    [getLiquidityFromTokenAmounts_X96] returns the liquidity of
    [token0Amount] alone over [[lower, upper]] below the range, that of
    [token1Amount] alone over [[lower, upper]] above the range, and inside
    the range the minimum of the liquidity of [token0Amount] over
    [[current, upper]] and of [token1Amount] over [[lower, current]]; every
    division is a floor, the helpers being called with [roundUp = false]. *)
Theorem getLiquidityFromTokenAmounts_X96_regimes
    (current lower upper amount0 amount1 : Z) :
  0 < lower < upper ->
  getLiquidityFromTokenAmounts_X96 current lower upper amount0 amount1
  = ret (liquidityFromAmounts current lower upper amount0 amount1)
  /\
  getLiquidityFromTokenAmounts_X96 current lower upper amount0 amount1
  = (if current <=? lower then
       getLiquidityFromAmount0 lower upper amount0 false
     else if upper <=? current then
       getLiquidityFromAmount1 lower upper amount1 false
     else
       l0 <- getLiquidityFromAmount0 current upper amount0 false ;;
       l1 <- getLiquidityFromAmount1 lower current amount1 false ;;
       ret (Z.min l0 l1)).
Proof.
  intros H. split.
  - now apply getLiquidityFromTokenAmounts_X96_closed_form.
  - unfold getLiquidityFromTokenAmounts_X96.
    destruct (current <=? lower); [reflexivity|].
    rewrite Z.geb_leb. destruct (upper <=? current); [reflexivity|].
    destruct (getLiquidityFromAmount0 current upper amount0 false) as [e|l0];
      [reflexivity|].
    destruct (getLiquidityFromAmount1 lower current amount1 false) as [e|l1];
      [reflexivity|].
    cbn [bind ret]. f_equal. destruct (Z.ltb_spec l0 l1); lia.
Qed.

Lemma getLiquidityFromTokenAmounts_X96_regimes_witness :
  getLiquidityFromTokenAmounts_X96 SQRT_IN SQRT_LOWER SQRT_UPPER
    64102564102564102 100000000000000000
  = ret 999999999999999991.
Proof.
  refine (eq_trans
            (proj1 (getLiquidityFromTokenAmounts_X96_regimes
                      SQRT_IN SQRT_LOWER SQRT_UPPER
                      64102564102564102 100000000000000000 _)) _).
  - vm_compute. intuition discriminate.
  - reflexivity.
Defined.

(** ** The round trip *)

Lemma liquidityFromAmount0_roundtrip (L low high : Z) :
  0 <= L -> 0 < low < high ->
  0 <= liquidityFromAmount0 (amount0Over false L low high) low high <= L.
Proof.
  intros HL [Hlow Hhigh].
  unfold liquidityFromAmount0, amount0Over, terminalDiv, floorDiv.
  set (d := high - low). set (n := L * d * 2 ^ 96). set (m := high * low).
  assert (Hd : 0 < d) by (unfold d; lia).
  assert (Hm : 0 < m) by (unfold m; nia).
  assert (Hq : 0 < 2 ^ 96) by reflexivity.
  destruct (Z.leb_spec (n / m) 0) as [|Ha]; [lia|].
  assert (Hden : 0 < 2 ^ 96 * d) by nia.
  split.
  - apply Z.div_pos; [|assumption]. replace (low * high) with m by (unfold m; lia). nia.
  - apply Z.div_le_upper_bound; [assumption|].
    pose proof (Z.mul_div_le n m Hm) as Hle.
    replace (low * high) with m by (unfold m; lia).
    unfold n in Hle |- *. nia.
Qed.

Lemma liquidityFromAmount1_roundtrip (L low high : Z) :
  0 <= L -> low < high ->
  0 <= liquidityFromAmount1 (amount1Over false L low high) low high <= L.
Proof.
  intros HL Hhigh.
  unfold liquidityFromAmount1, amount1Over, terminalDiv, floorDiv.
  set (d := high - low). set (n := L * d).
  assert (Hd : 0 < d) by (unfold d; lia).
  assert (Hq : 0 < 2 ^ 96) by reflexivity.
  destruct (Z.leb_spec (n / 2 ^ 96) 0) as [|Ha]; [lia|].
  split.
  - apply Z.div_pos; [nia|assumption].
  - apply Z.div_le_upper_bound; [assumption|].
    pose proof (Z.mul_div_le n (2 ^ 96) Hq) as Hle.
    unfold n in Hle |- *. nia.
Qed.

Lemma liquidityFromAmounts_roundtrip (L current lower upper : Z) :
  0 <= L -> 0 < current -> 0 < lower < upper ->
  let amounts := amountsFromLiquidity false L current lower upper in
  liquidityFromAmounts current lower upper
    (token0Amount amounts) (token1Amount amounts) <= L.
Proof.
  intros HL Hcur [Hlo Hup]. cbv zeta.
  unfold liquidityFromAmounts, amountsFromLiquidity.
  destruct (Z.leb_spec current lower) as [Hc|Hc]; cbn [token0Amount token1Amount].
  - apply liquidityFromAmount0_roundtrip; lia.
  - destruct (Z.leb_spec upper current) as [Hu|Hu]; cbn [token0Amount token1Amount].
    + apply liquidityFromAmount1_roundtrip; lia.
    + pose proof (liquidityFromAmount0_roundtrip L current upper HL ltac:(lia)).
      lia.
Qed.

(** C3.  For [L >= 0], a positive current sqrt price and bounds
    [0 < lower < upper], the amounts that
    [getTokenAmountsFromLiquidity_X96] returns with floor rounding, fed back
    to [getLiquidityFromTokenAmounts_X96] at the same sqrt prices, give a
    liquidity that is at most [L]: both calls return, and the round trip
    never gains liquidity. *)
Theorem liquidity_roundtrip_never_gains (L current lower upper : Z) :
  0 <= L -> 0 < current -> 0 < lower < upper ->
  exists amounts liquidity,
    getTokenAmountsFromLiquidity_X96 L current lower upper false = ret amounts /\
    getLiquidityFromTokenAmounts_X96 current lower upper
      (token0Amount amounts) (token1Amount amounts) = ret liquidity /\
    liquidity <= L.
Proof.
  intros HL Hcur Hb.
  eexists. eexists. split; [|split].
  - apply (proj1 (getTokenAmountsFromLiquidity_X96_formulas L current lower upper false));
      assumption.
  - apply getLiquidityFromTokenAmounts_X96_closed_form. assumption.
  - now apply liquidityFromAmounts_roundtrip.
Qed.

Lemma liquidity_roundtrip_never_gains_witness :
  exists amounts liquidity,
    getTokenAmountsFromLiquidity_X96 L_fixture SQRT_IN SQRT_LOWER SQRT_UPPER false
    = ret amounts /\
    getLiquidityFromTokenAmounts_X96 SQRT_IN SQRT_LOWER SQRT_UPPER
      (token0Amount amounts) (token1Amount amounts) = ret liquidity /\
    liquidity <= L_fixture.
Proof.
  apply (liquidity_roundtrip_never_gains L_fixture SQRT_IN SQRT_LOWER SQRT_UPPER);
    vm_compute; intuition discriminate.
Defined.

(** ** Liquidity from an investment budget *)

Lemma BigInt_div_quot (a b : Z) :
  b <> 0 -> BigInt.div a b = ret (Z.quot a b).
Proof.
  intros Hb. unfold BigInt.div.
  destruct (Z.eqb_spec b 0); [contradiction|reflexivity].
Qed.

Lemma totalBudgetInQuote_budget (baseAmount quoteAmount : Z) (isQuoteToken0 : bool) (S : Z) :
  S <> 0 ->
  totalBudgetInQuote baseAmount quoteAmount isQuoteToken0 S
  = ret (budgetInQuote baseAmount quoteAmount isQuoteToken0 S).
Proof.
  intros HS. unfold totalBudgetInQuote, budgetInQuote.
  rewrite <- Q192_eq.
  destruct isQuoteToken0; rewrite BigInt_div_quot; try reflexivity.
  - nia.
  - discriminate.
Qed.

Lemma budgetInQuote_floor (baseAmount quoteAmount : Z) (isQuoteToken0 : bool) (S : Z) :
  0 <= baseAmount -> 0 < S ->
  budgetInQuote baseAmount quoteAmount isQuoteToken0 S
  = quoteAmount +
    (if isQuoteToken0 then floorDiv (baseAmount * 2 ^ 192) (S * S)
     else floorDiv (baseAmount * S * S) (2 ^ 192)).
Proof.
  intros Hb HS. unfold budgetInQuote, floorDiv.
  assert (0 < 2 ^ 192) by reflexivity.
  destruct isQuoteToken0; rewrite Z.quot_div_nonneg; try reflexivity; nia.
Qed.

Lemma budgetInQuote_positive (baseAmount quoteAmount : Z) (isQuoteToken0 : bool) (S : Z) :
  0 < S ->
  0 < budgetInQuote baseAmount quoteAmount isQuoteToken0 S ->
  (baseAmount <=? 0) && (quoteAmount <=? 0) = false.
Proof.
  intros HS Hpos.
  destruct (Z.leb_spec baseAmount 0) as [Hb|Hb]; [|reflexivity].
  destruct (Z.leb_spec quoteAmount 0) as [Hq|Hq]; [|reflexivity].
  exfalso. unfold budgetInQuote in Hpos.
  assert (H192 : 0 < 2 ^ 192) by reflexivity.
  assert (HSS : 0 < S * S) by nia.
  destruct isQuoteToken0.
  - pose proof (Z.quot_le_mono (baseAmount * 2 ^ 192) 0 (S * S) HSS ltac:(nia)) as Hm.
    rewrite Z.quot_0_l in Hm by lia. lia.
  - pose proof (Z.quot_le_mono (baseAmount * S * S) 0 (2 ^ 192) H192 ltac:(nia)) as Hm.
    rewrite Z.quot_0_l in Hm by lia. lia.
Qed.

Lemma K_Q96_inToken1_formula (A B S : Z) :
  0 < S -> B < S < A ->
  K_Q96_inToken1 B A S = ret (K_inToken1 A B S).
Proof.
  intros HS [HB HA]. unfold K_Q96_inToken1, K_inToken1.
  destruct (Z.leb_spec S B); [lia|].
  rewrite Z.geb_leb. destruct (Z.leb_spec A S); [lia|].
  cbv zeta. rewrite BigInt_div_floor by nia. reflexivity.
Qed.

Lemma K_Q96_inToken0_formula (A B S : Z) :
  0 < S -> B < S < A ->
  K_Q96_inToken0 B A S = ret (K_inToken0 A B S).
Proof.
  intros HS [HB HA]. unfold K_Q96_inToken0, K_inToken0.
  destruct (Z.leb_spec S B); [lia|].
  rewrite Z.geb_leb. destruct (Z.leb_spec A S); [lia|].
  rewrite <- Q192_eq. pose proof Q192_pos.
  rewrite !BigInt_div_floor by nia. reflexivity.
Qed.

(** The code orders the two bounds itself. *)
Lemma ordered_upper (lo up : Z) : (if up >? lo then up else lo) = Z.max lo up.
Proof. destruct (Z.gtb_spec up lo); lia. Qed.

Lemma ordered_lower (lo up : Z) : (if up >? lo then lo else up) = Z.min lo up.
Proof. destruct (Z.gtb_spec up lo); lia. Qed.

(** C4.  In range, whichever way round the two bounds are passed
    ([B] the smaller, [A] the larger, [B < S < A]) and for a positive total
    budget, [getLiquidityFromInvestmentAmounts] returns budget * 2^96 / K,
    where K = (S - B) + floor(S (A - S) / A) when the quote token is token1
    and K = floor(2^192 (A - S) / (A S)) + floor(2^192 (S - B) / S^2) when
    it is token0, and the budget is the quote amount plus the base amount
    converted at [S]; when [K <= 0] it returns zero and does not throw.  The
    current sqrt price is positive, as every SqrtPrice is. *)
Theorem getLiquidityFromInvestmentAmounts_in_range
    (baseAmount : Z) (baseDecimals : nat) (quoteAmount : Z) (quoteDecimals : nat)
    (isQuoteToken0 : bool) (sqrtPriceLowerX96 sqrtPriceUpperX96 S : Z) :
  let A := Z.max sqrtPriceLowerX96 sqrtPriceUpperX96 in
  let B := Z.min sqrtPriceLowerX96 sqrtPriceUpperX96 in
  let budget := budgetInQuote baseAmount quoteAmount isQuoteToken0 S in
  let K := if isQuoteToken0 then K_inToken0 A B S else K_inToken1 A B S in
  0 < S -> B < S < A -> 0 < budget ->
  getLiquidityFromInvestmentAmounts baseAmount baseDecimals quoteAmount quoteDecimals
    isQuoteToken0 sqrtPriceLowerX96 sqrtPriceUpperX96 S
  = ret (if K <=? 0 then 0 else floorDiv (budget * 2 ^ 96) K).
Proof.
  intros A B budget K HS HBA Hbudget.
  unfold getLiquidityFromInvestmentAmounts.
  rewrite (budgetInQuote_positive _ _ _ _ HS Hbudget).
  rewrite ordered_upper, ordered_lower. fold A B. cbv zeta.
  destruct (Z.leb_spec S B); [lia|].
  rewrite Z.geb_leb. destruct (Z.leb_spec A S); [lia|].
  rewrite totalBudgetInQuote_budget by lia. fold budget. cbn [bind ret].
  assert (HK : (if isQuoteToken0 then K_Q96_inToken0 B A S else K_Q96_inToken1 B A S)
               = ret K).
  { unfold K. destruct isQuoteToken0.
    - now apply K_Q96_inToken0_formula.
    - now apply K_Q96_inToken1_formula. }
  rewrite HK. cbn [bind ret].
  destruct (Z.leb_spec K 0) as [|HKpos]; [reflexivity|].
  rewrite <- Q96_eq. pose proof Q96_pos.
  apply BigInt_div_floor; nia.
Qed.

Lemma getLiquidityFromInvestmentAmounts_in_range_witness :
  getLiquidityFromInvestmentAmounts 500000000000000000 18 200000000000000000 6
    false SQRT_UPPER SQRT_LOWER SQRT_IN
  = ret 4783999999999999994.
Proof.
  refine (eq_trans
            (getLiquidityFromInvestmentAmounts_in_range
               500000000000000000 18 200000000000000000 6
               false SQRT_UPPER SQRT_LOWER SQRT_IN _ _ _) _).
  - reflexivity.
  - vm_compute. intuition discriminate.
  - reflexivity.
  - reflexivity.
Defined.

(** In range K is positive when the quote token is token1; when it is
    token0 both floors can vanish, and the guard on [K] then gives zero. *)
Lemma K_inToken1_positive (A B S : Z) :
  0 < S -> B < S < A -> 0 < K_inToken1 A B S.
Proof.
  intros HS [HB HA]. unfold K_inToken1, floorDiv.
  assert (0 <= S * (A - S) / A) by (apply Z.div_pos; nia). lia.
Qed.

Example K_inToken0_vanishes :
  K_inToken0 (2 ^ 200 + 1) (2 ^ 200 - 1) (2 ^ 200) = 0 /\
  getLiquidityFromInvestmentAmounts (2 ^ 300) 18 1 6 true
    (2 ^ 200 - 1) (2 ^ 200 + 1) (2 ^ 200) = ret 0.
Proof. split; reflexivity. Qed.

(** The expectations of liquidity.test.ts for the investment fixtures. *)
Example fixture_investment_quote_token1 :
  getLiquidityFromInvestmentAmounts 500000000000000000 0 200000000000000000 0
    false SQRT_LOWER SQRT_UPPER SQRT_IN = ret 4783999999999999994.
Proof. reflexivity. Qed.

Example fixture_investment_quote_token0 :
  getLiquidityFromInvestmentAmounts 500000000000000000 0 200000000000000000 0
    true SQRT_LOWER SQRT_UPPER SQRT_IN = ret 4097599999999999998.
Proof. reflexivity. Qed.

Example fixture_investment_below :
  getLiquidityFromInvestmentAmounts 500000000000000000 0 200000000000000000 0
    false SQRT_LOWER SQRT_UPPER SQRT_BELOW = ret 5004999999999999999 /\
  getLiquidityFromInvestmentAmounts 500000000000000000 0 200000000000000000 0
    true SQRT_LOWER SQRT_UPPER SQRT_BELOW = ret 5004999999999999999.
Proof. split; reflexivity. Qed.

Example fixture_investment_above :
  getLiquidityFromInvestmentAmounts 500000000000000000 0 200000000000000000 0
    false SQRT_LOWER SQRT_UPPER SQRT_ABOVE = ret 5899999999999999995 /\
  getLiquidityFromInvestmentAmounts 500000000000000000 0 200000000000000000 0
    true SQRT_LOWER SQRT_UPPER SQRT_ABOVE = ret 4459999999999999990.
Proof. split; reflexivity. Qed.

(** C10.  [getLiquidityFromInvestmentAmounts] gives the same result, value
    or exception, when its two bounds are exchanged: it takes the larger one
    as the upper bound itself. *)
Theorem getLiquidityFromInvestmentAmounts_bounds_swap
    (baseAmount : Z) (baseDecimals : nat) (quoteAmount : Z) (quoteDecimals : nat)
    (isQuoteToken0 : bool) (sqrtPriceLowerX96 sqrtPriceUpperX96 S : Z) :
  getLiquidityFromInvestmentAmounts baseAmount baseDecimals quoteAmount quoteDecimals
    isQuoteToken0 sqrtPriceUpperX96 sqrtPriceLowerX96 S
  = getLiquidityFromInvestmentAmounts baseAmount baseDecimals quoteAmount quoteDecimals
      isQuoteToken0 sqrtPriceLowerX96 sqrtPriceUpperX96 S.
Proof.
  unfold getLiquidityFromInvestmentAmounts.
  rewrite !ordered_upper, !ordered_lower.
  now rewrite (Z.max_comm sqrtPriceUpperX96), (Z.min_comm sqrtPriceUpperX96).
Qed.

Example inverted_bounds_same_liquidity :
  getLiquidityFromInvestmentAmounts 500000000000000000 0 200000000000000000 0
    false SQRT_UPPER SQRT_LOWER SQRT_IN = ret 4783999999999999994.
Proof. reflexivity. Qed.

(** ** Fee growth *)

Lemma safeDiff_safeDifference (a b : Z) : safeDiff a b = safeDifference a b.
Proof.
  unfold safeDiff, safeDifference. rewrite Z.geb_leb. reflexivity.
Qed.

Lemma safeDiff_cases (a b : Z) :
  (a >= b -> safeDiff a b = a - b) /\ (~ a >= b -> safeDiff a b = 0).
Proof.
  unfold safeDiff. rewrite Z.geb_leb.
  destruct (Z.leb_spec b a); split; intros; lia.
Qed.

Lemma safeDiff_max (a b : Z) : safeDiff a b = Z.max (a - b) 0.
Proof.
  unfold safeDiff. rewrite Z.geb_leb. destruct (Z.leb_spec b a); lia.
Qed.

(** C5.  For every tick triple and all accumulator values,
    [computeFeeGrowthInside] returns for each token, from that token's
    accumulators alone, safeDiff (safeDiff (growthGlobal, below), above)
    with below = growthOutsideLower if tickCurrent >= tickLower and
    safeDiff (growthGlobal, growthOutsideLower) otherwise, and
    above = growthOutsideUpper if tickCurrent < tickUpper and
    safeDiff (growthGlobal, growthOutsideUpper) otherwise; safeDiff (a, b) is
    a - b when a >= b and 0 otherwise. *)
Theorem computeFeeGrowthInside_per_token
    (tickCurrent tickLower tickUpper : Z)
    (feeGrowthGlobal0 feeGrowthGlobal1 : Z)
    (feeGrowthOutsideLower0 feeGrowthOutsideLower1 : Z)
    (feeGrowthOutsideUpper0 feeGrowthOutsideUpper1 : Z) :
  let r := computeFeeGrowthInside tickCurrent tickLower tickUpper
             feeGrowthGlobal0 feeGrowthGlobal1
             feeGrowthOutsideLower0 feeGrowthOutsideLower1
             feeGrowthOutsideUpper0 feeGrowthOutsideUpper1 in
  inside0 r = feeGrowthInside tickCurrent tickLower tickUpper
                feeGrowthGlobal0 feeGrowthOutsideLower0 feeGrowthOutsideUpper0
  /\
  inside1 r = feeGrowthInside tickCurrent tickLower tickUpper
                feeGrowthGlobal1 feeGrowthOutsideLower1 feeGrowthOutsideUpper1
  /\
  forall a b : Z,
    (a >= b -> safeDiff a b = a - b) /\ (~ a >= b -> safeDiff a b = 0).
Proof.
  cbv zeta. unfold computeFeeGrowthInside, feeGrowthInside.
  cbn [inside0 inside1]. rewrite !safeDiff_safeDifference, Z.geb_leb.
  repeat split; try reflexivity; apply safeDiff_cases.
Qed.

Example fee_growth_inside_range :
  computeFeeGrowthInside 5 0 10 1000 2000 100 200 300 400
  = mkFeeGrowthInside 600 1400.
Proof. reflexivity. Qed.

Example fee_growth_below_range :
  computeFeeGrowthInside (-5) 0 10 1000 2000 100 200 300 400
  = mkFeeGrowthInside 0 0.
Proof. reflexivity. Qed.

(** ** Phase *)

Lemma determinePhase_below (tickCurrent tickLower tickUpper : Z) :
  determinePhase tickCurrent tickLower tickUpper = below <-> tickCurrent < tickLower.
Proof.
  unfold determinePhase. rewrite Z.geb_leb.
  destruct (Z.ltb_spec tickCurrent tickLower), (Z.leb_spec tickUpper tickCurrent);
    split; intros; try discriminate; try lia; reflexivity.
Qed.

Lemma determinePhase_above (tickCurrent tickLower tickUpper : Z) :
  determinePhase tickCurrent tickLower tickUpper = above
  <-> tickLower <= tickCurrent /\ tickUpper <= tickCurrent.
Proof.
  unfold determinePhase. rewrite Z.geb_leb.
  destruct (Z.ltb_spec tickCurrent tickLower), (Z.leb_spec tickUpper tickCurrent);
    split; intros; try discriminate; try lia; reflexivity.
Qed.

Lemma determinePhase_in_range (tickCurrent tickLower tickUpper : Z) :
  determinePhase tickCurrent tickLower tickUpper = in_range
  <-> tickLower <= tickCurrent < tickUpper.
Proof.
  unfold determinePhase. rewrite Z.geb_leb.
  destruct (Z.ltb_spec tickCurrent tickLower), (Z.leb_spec tickUpper tickCurrent);
    split; intros; try discriminate; try lia; reflexivity.
Qed.

(** The phase moves with the tick, whatever the bounds. *)
Lemma determinePhase_monotone (t t' tickLower tickUpper : Z) :
  t <= t' ->
  phaseRank (determinePhase t tickLower tickUpper)
  <= phaseRank (determinePhase t' tickLower tickUpper).
Proof.
  intros Ht. unfold determinePhase. rewrite !Z.geb_leb.
  destruct (Z.ltb_spec t tickLower), (Z.ltb_spec t' tickLower),
    (Z.leb_spec tickUpper t), (Z.leb_spec tickUpper t'); cbn; lia.
Qed.

(** C8, as stated, fails on an inverted range: with [tickUpper <=
    tickCurrent < tickLower] the first test wins and the phase is [below],
    although [tickCurrent >= tickUpper]. *)
Lemma determinePhase_inverted_range :
  ~ (determinePhase 0 1 0 = above <-> 0 >= 0).
Proof.
  intros [_ H]. specialize (H ltac:(lia)). discriminate H.
Qed.

(** C8, amended.  [determinePhase] returns [below] exactly when
    tickCurrent < tickLower, [above] exactly when tickCurrent >= tickUpper
    and tickCurrent >= tickLower, and [in_range] otherwise.  On a range with
    tickLower <= tickUpper it returns [above] exactly when
    tickCurrent >= tickUpper, so tickCurrent = tickUpper gives [above]; on a
    range with tickLower < tickUpper, tickCurrent = tickLower gives
    [in_range]. *)
Theorem determinePhase_cases (tickCurrent tickLower tickUpper : Z) :
  (determinePhase tickCurrent tickLower tickUpper = below
   <-> tickCurrent < tickLower)
  /\
  (determinePhase tickCurrent tickLower tickUpper = above
   <-> tickCurrent >= tickUpper /\ tickCurrent >= tickLower)
  /\
  (determinePhase tickCurrent tickLower tickUpper = in_range
   <-> ~ tickCurrent < tickLower /\ ~ tickCurrent >= tickUpper)
  /\
  (tickLower <= tickUpper ->
   (determinePhase tickCurrent tickLower tickUpper = above
    <-> tickCurrent >= tickUpper)
   /\ determinePhase tickUpper tickLower tickUpper = above)
  /\
  (tickLower < tickUpper ->
   determinePhase tickLower tickLower tickUpper = in_range).
Proof.
  rewrite determinePhase_below, determinePhase_above, determinePhase_in_range.
  repeat split; intros; try lia.
  - apply determinePhase_above. lia.
  - apply determinePhase_in_range. lia.
Qed.

Lemma determinePhase_cases_witness :
  determinePhase 10 0 10 = above /\ determinePhase 0 0 10 = in_range.
Proof.
  pose proof (determinePhase_cases 7 0 10) as (_ & _ & _ & Hup & Hlo).
  split.
  - apply Hup. vm_compute. discriminate.
  - apply Hlo. reflexivity.
Defined.

(** ** Profit and loss *)

(** *** The rounding of binary64

    [digits2_pos p] is the number of bits of [p]. *)
Lemma digits2_pos_bounds (p : positive) :
  2 ^ (Zpos (digits2_pos p) - 1) <= Zpos p < 2 ^ Zpos (digits2_pos p).
Proof.
  induction p as [p IH|p IH|]; cbn [digits2_pos].
  - rewrite Pos2Z.inj_succ, Z.pow_succ_r by lia.
    replace (Z.succ (Zpos (digits2_pos p)) - 1) with (Z.succ (Zpos (digits2_pos p) - 1)) by lia.
    rewrite Z.pow_succ_r by lia. lia.
  - rewrite Pos2Z.inj_succ, Z.pow_succ_r by lia.
    replace (Z.succ (Zpos (digits2_pos p)) - 1) with (Z.succ (Zpos (digits2_pos p) - 1)) by lia.
    rewrite Z.pow_succ_r by lia. lia.
  - cbn. lia.
Qed.

Lemma digits2_pos_unique (p : positive) (d : Z) :
  2 ^ (d - 1) <= Zpos p < 2 ^ d -> Zpos (digits2_pos p) = d.
Proof.
  intros [Hlo Hhi]. pose proof (digits2_pos_bounds p) as [Blo Bhi].
  set (d' := Zpos (digits2_pos p)) in *.
  assert (0 < d').
  { unfold d'. lia. }
  assert (0 < d).
  { destruct (Z.ltb_spec 0 d); [assumption|].
    exfalso. destruct (Z.eq_dec d 0) as [->|]; [cbn in Hhi; lia|].
    rewrite (Z.pow_neg_r 2 d) in Hhi by lia. lia. }
  destruct (Z.lt_trichotomy d' d) as [Hlt|[Heq|Hgt]]; [|assumption|].
  - exfalso. assert (2 ^ d' <= 2 ^ (d - 1)) by (apply Z.pow_le_mono_r; lia). lia.
  - exfalso. assert (2 ^ d <= 2 ^ (d' - 1)) by (apply Z.pow_le_mono_r; lia). lia.
Qed.

(** The iterator of the shifts, as an iteration over [nat]. *)
Lemma iter_pos_nat {A : Type} (f : A -> A) (p : positive) (x : A) :
  iter_pos f p x = Nat.iter (Pos.to_nat p) f x.
Proof.
  revert x. induction p as [p IH|p IH|]; intros x; cbn [iter_pos].
  - rewrite !IH, Pos2Nat.inj_xI.
    replace (S (2 * Pos.to_nat p)) with (Pos.to_nat p + (Pos.to_nat p + 1))%nat by lia.
    rewrite !Nat.iter_add. reflexivity.
  - rewrite !IH, Pos2Nat.inj_xO.
    replace (2 * Pos.to_nat p)%nat with (Pos.to_nat p + Pos.to_nat p)%nat by lia.
    rewrite Nat.iter_add. reflexivity.
  - reflexivity.
Qed.

Lemma loc_of_shr_record_of_loc (m : Z) (l : location) :
  loc_of_shr_record (shr_record_of_loc m l) = l.
Proof. destruct l as [|[| |]]; reflexivity. Qed.

Lemma shr_m_shr_record_of_loc (m : Z) (l : location) :
  shr_m (shr_record_of_loc m l) = m.
Proof. destruct l as [|[| |]]; reflexivity. Qed.

(** One shift to the right halves the mantissa and keeps track of the
    place of N / D between the two neighbours. *)
Lemma shr_1_spec (N D : Z) (mrs : shr_record) :
  0 < D -> 0 <= shr_m mrs ->
  loc_ok N D (shr_m mrs) (loc_of_shr_record mrs) ->
  shr_m (shr_1 mrs) = shr_m mrs / 2
  /\ loc_ok N (2 * D) (shr_m mrs / 2) (loc_of_shr_record (shr_1 mrs)).
Proof.
  destruct mrs as [m r s]. cbn [shr_m]. intros HD Hm [Hrange Hloc].
  assert (Hdiv : m = 2 * (m / 2) + m mod 2) by (apply Z.div_mod; lia).
  pose proof (Z.mod_pos_bound m 2 ltac:(lia)) as Hmod.
  destruct m as [|[p|p|]|p]; try lia.
  - (* 0 *)
    cbn [shr_1 shr_m]. split; [reflexivity|].
    change (0 / 2) with 0 in *. unfold loc_ok in *.
    destruct r, s; cbn [loc_of_shr_record orb] in *; rewrite ?Z.compare_lt_iff in *; 
      rewrite ?Z.compare_eq_iff in *; rewrite ?Z.compare_gt_iff in *; lia.
  - (* xI *)
    assert (E : Z.pos p~1 / 2 = Zpos p).
    { rewrite Pos2Z.inj_xI. symmetry. apply (Z.div_unique _ 2 _ 1); lia. }
    cbn [shr_1 shr_m]. rewrite E. split; [reflexivity|].
    rewrite Pos2Z.inj_xI in *. unfold loc_ok in *.
    destruct r, s; cbn [loc_of_shr_record orb] in *;
      rewrite ?Z.compare_lt_iff, ?Z.compare_eq_iff, ?Z.compare_gt_iff in *; lia.
  - assert (E : Z.pos p~0 / 2 = Zpos p).
    { rewrite Pos2Z.inj_xO. symmetry. apply (Z.div_unique _ 2 _ 0); lia. }
    cbn [shr_1 shr_m]. rewrite E. split; [reflexivity|].
    rewrite Pos2Z.inj_xO in *. unfold loc_ok in *.
    destruct r, s; cbn [loc_of_shr_record orb] in *;
      rewrite ?Z.compare_lt_iff, ?Z.compare_eq_iff, ?Z.compare_gt_iff in *; lia.
  - cbn [shr_1 shr_m]. change (1 / 2) with 0. split; [reflexivity|].
    unfold loc_ok in *.
    destruct r, s; cbn [loc_of_shr_record orb] in *;
      rewrite ?Z.compare_lt_iff, ?Z.compare_eq_iff, ?Z.compare_gt_iff in *; lia.
Qed.

Lemma shr_iter_spec (N D : Z) (mrs : shr_record) (k : nat) :
  0 < D -> 0 <= shr_m mrs ->
  loc_ok N D (shr_m mrs) (loc_of_shr_record mrs) ->
  shr_m (Nat.iter k shr_1 mrs) = shr_m mrs / 2 ^ Z.of_nat k
  /\ loc_ok N (2 ^ Z.of_nat k * D) (shr_m mrs / 2 ^ Z.of_nat k)
       (loc_of_shr_record (Nat.iter k shr_1 mrs)).
Proof.
  intros HD Hm Hloc. induction k as [|k [IHm IHl]].
  - change (Nat.iter 0 shr_1 mrs) with mrs. change (2 ^ Z.of_nat 0) with 1.
    rewrite Z.div_1_r, Z.mul_1_l. split; [reflexivity|assumption].
  - rewrite Nat.iter_succ.
    assert (Hp : 0 < 2 ^ Z.of_nat k) by (apply Z.pow_pos_nonneg; lia).
    assert (E : shr_m mrs / 2 ^ Z.of_nat (S k) = shr_m mrs / 2 ^ Z.of_nat k / 2).
    { rewrite Nat2Z.inj_succ, Z.pow_succ_r by lia.
      rewrite (Z.mul_comm 2), Z.div_div by lia. reflexivity. }
    destruct (shr_1_spec N (2 ^ Z.of_nat k * D) (Nat.iter k shr_1 mrs)) as [Sm Sl].
    + lia.
    + rewrite IHm. apply Z.div_pos; lia.
    + rewrite IHm. exact IHl.
    + rewrite Sm, IHm, E. split; [reflexivity|].
      rewrite IHm in Sl.
      replace (2 ^ Z.of_nat (S k) * D) with (2 * (2 ^ Z.of_nat k * D)).
      * exact Sl.
      * rewrite Nat2Z.inj_succ, Z.pow_succ_r by lia. lia.
Qed.

(** Rounding to nearest: at most half a unit away, exact on an exact
    quotient, and even on a tie. *)
Lemma round_nearest_even_spec (N D q : Z) (l : location) :
  0 < D -> loc_ok N D q l ->
  (round_nearest_even q l = q \/ round_nearest_even q l = q + 1)
  /\ 2 * Z.abs (N - round_nearest_even q l * D) <= D
  /\ (N = q * D -> round_nearest_even q l = q)
  /\ (2 * Z.abs (N - round_nearest_even q l * D) = D ->
      Z.even (round_nearest_even q l) = true).
Proof.
  intros HD [Hr Hl].
  destruct l as [|[| |]]; cbn [round_nearest_even].
  - split; [left; reflexivity|]. split; [lia|]. split; [reflexivity|lia].
  - destruct Hl as [Hpos Hc]. rewrite Z.compare_eq_iff in Hc.
    destruct (Z.even q) eqn:Hev.
    + split; [left; reflexivity|]. split; [lia|]. split; [reflexivity|]. intros _. exact Hev.
    + split; [right; reflexivity|]. split; [lia|]. split; [lia|]. intros _.
      rewrite Z.add_1_r, Z.even_succ, <- Z.negb_even, Hev. reflexivity.
  - destruct Hl as [Hpos Hc]. rewrite Z.compare_lt_iff in Hc.
    split; [left; reflexivity|]. split; [lia|]. split; [reflexivity|lia].
  - destruct Hl as [Hpos Hc]. rewrite Z.compare_gt_iff in Hc.
    split; [right; reflexivity|]. split; [lia|]. split; [lia|lia].
Qed.

Lemma shr_nat (mrs : shr_record) (e n : Z) :
  0 <= n -> shr mrs e n = (Nat.iter (Z.to_nat n) shr_1 mrs, e + n).
Proof.
  intros Hn. destruct n as [|p|p]; [| |lia].
  - cbn [shr Z.to_nat Nat.iter nat_rect]. now rewrite Z.add_0_r.
  - cbn [shr Z.to_nat]. now rewrite iter_pos_nat.
Qed.

(** [binary_round_aux] on a mantissa of 53 bits or more: the mantissa is
    shifted down to 53 bits, rounded to nearest, and finished. *)
Lemma binary_round_aux_spec (s : bool) (mx ex : Z) (lx : location) (N D : Z) :
  0 < D -> 2 ^ 52 <= mx -> -1074 <= ex -> loc_ok N D mx lx ->
  let n := Zdigits2 mx - 53 in
  let q1 := mx / 2 ^ n in
  0 <= n /\ 2 ^ 52 <= q1 < 2 ^ 53 /\
  exists M0,
    (M0 = q1 \/ M0 = q1 + 1)
    /\ 2 * Z.abs (N - M0 * (2 ^ n * D)) <= 2 ^ n * D
    /\ (N = q1 * (2 ^ n * D) -> M0 = q1)
    /\ (2 * Z.abs (N - M0 * (2 ^ n * D)) = 2 ^ n * D -> Z.even M0 = true)
    /\ binary_round_aux 53 1024 s mx ex lx = finish s M0 (ex + n).
Proof.
  intros HD Hmx Hex Hloc.
  destruct mx as [|p|p]; try (cbn in Hmx; lia).
  cbn [Zdigits2]. pose proof (digits2_pos_bounds p) as [Blo Bhi].
  set (d := Zpos (digits2_pos p)) in *.
  assert (Hd : 53 <= d).
  { destruct (Z.leb_spec 53 d); [assumption|]. exfalso.
    assert (2 ^ d <= 2 ^ 52) by (apply Z.pow_le_mono_r; lia). lia. }
  cbv zeta. set (n := d - 53). set (q1 := Zpos p / 2 ^ n).
  assert (Hn : 0 <= n) by (unfold n; lia).
  assert (Hpn : 0 < 2 ^ n) by (apply Z.pow_pos_nonneg; lia).
  assert (Hsplit : 2 ^ (d - 1) = 2 ^ 52 * 2 ^ n).
  { rewrite <- Z.pow_add_r by lia. f_equal. unfold n. lia. }
  assert (Hsplit' : 2 ^ d = 2 ^ 53 * 2 ^ n).
  { rewrite <- Z.pow_add_r by lia. f_equal. unfold n. lia. }
  assert (Hq1 : 2 ^ 52 <= q1 < 2 ^ 53).
  { unfold q1. split.
    - apply Z.div_le_lower_bound; lia.
    - apply Z.div_lt_upper_bound; lia. }
  split; [exact Hn|]. split; [exact Hq1|].
  unfold binary_round_aux, shr_fexp. cbn [Zdigits2]. fold d.
  assert (Ef : fexp 53 1024 (d + ex) - ex = n).
  { unfold fexp, emin. unfold n. lia. }
  rewrite Ef, shr_nat by exact Hn.
  destruct (shr_iter_spec N D (shr_record_of_loc (Zpos p) lx) (Z.to_nat n) HD) as [Sm Sl].
  { rewrite shr_m_shr_record_of_loc. lia. }
  { rewrite shr_m_shr_record_of_loc, loc_of_shr_record_of_loc. exact Hloc. }
  rewrite shr_m_shr_record_of_loc, Z2Nat.id in Sm, Sl by exact Hn. fold q1 in Sm, Sl.
  set (mrs' := Nat.iter (Z.to_nat n) shr_1 (shr_record_of_loc (Zpos p) lx)) in *.
  rewrite Sm.
  destruct (round_nearest_even_spec N (2 ^ n * D) q1 (loc_of_shr_record mrs')
              ltac:(lia) Sl) as (Hcase & Herr & Hexact & Heven).
  set (M0 := round_nearest_even q1 (loc_of_shr_record mrs')) in *.
  exists M0. split; [exact Hcase|]. split; [exact Herr|]. split; [exact Hexact|].
  split; [exact Heven|].
  unfold finish. destruct (Z.ltb_spec M0 (2 ^ 53)) as [Hlt|Hge].
  - destruct M0 as [|p0|p0]; try lia.
    assert (Ed : Zpos (digits2_pos p0) = 53) by (apply digits2_pos_unique; lia).
    cbn [Zdigits2]. rewrite Ed.
    assert (Ef' : fexp 53 1024 (53 + (ex + n)) - (ex + n) = 0).
    { unfold fexp, emin. lia. }
    rewrite Ef'. cbn [shr shr_record_of_loc shr_m Z.to_pos].
    change (1024 - 53) with 971. reflexivity.
  - assert (E0 : M0 = 2 ^ 53) by lia. rewrite E0.
    change (Zdigits2 (2 ^ 53)) with 54.
    assert (Ef' : fexp 53 1024 (54 + (ex + n)) - (ex + n) = 1).
    { unfold fexp, emin. lia. }
    rewrite Ef'. cbn [shr shr_record_of_loc].
    change (iter_pos shr_1 1 {| shr_m := 2 ^ 53; shr_r := false; shr_s := false |})
      with {| shr_m := 2 ^ 52; shr_r := false; shr_s := false |}.
    cbn [shr_m]. change (1024 - 53) with 971.
    change (2 ^ 52) with (Zpos (Z.to_pos (2 ^ 52))) at 1. cbv iota. reflexivity.
Qed.

Lemma pos_iter_xO (m d : positive) :
  Zpos (Pos.iter xO m d) = Zpos m * 2 ^ Zpos d.
Proof.
  change (Pos.iter xO m d) with (shift_pos d m).
  rewrite shift_pos_correct. change (Zpower_pos 2 d) with (2 ^ Zpos d). lia.
Qed.

Lemma finish_normal (s : bool) (M0 e : Z) :
  2 ^ 52 <= M0 <= 2 ^ 53 ->
  exists m e', 2 ^ 52 <= m < 2 ^ 53 /\ (e' = e \/ e' = e + 1)
    /\ m * 2 ^ (e' - e) = M0 /\ (M0 < 2 ^ 53 -> e' = e)
    /\ finish s M0 e = normal s m e'.
Proof.
  intros H. unfold finish, normal. destruct (Z.ltb_spec M0 (2 ^ 53)).
  - exists M0, e. rewrite Z.sub_diag.
    split; [lia|]. split; [now left|]. split; [lia|]. split; [lia|reflexivity].
  - exists (2 ^ 52), (e + 1). replace (e + 1 - e) with 1 by lia.
    split; [lia|]. split; [now right|]. split; [lia|]. split; [lia|reflexivity].
Qed.

(** The powers of two around the largest double, 2^1024 - 2^971; the
    midpoint to 2^1024 is 2^1024 - 2^970. *)
Lemma largest_double_facts :
  exists P, 0 < P /\ 2 ^ 970 = P /\ 2 ^ 1024 - 2 ^ 970 = (2 ^ 54 - 1) * P
    /\ 2 ^ 971 = 2 * P /\ 2 ^ 972 = 4 * P.
Proof.
  exists (2 ^ 970). vm_compute. repeat split; reflexivity.
Qed.

Lemma round_below_threshold (P p M0 : Z) :
  0 < P -> 2 ^ 52 <= M0 < 2 ^ 53 ->
  2 * Z.abs (p - M0 * (2 * P)) <= 2 * P ->
  (2 * Z.abs (p - M0 * (2 * P)) = 2 * P -> Z.even M0 = true) ->
  p < (2 ^ 54 - 1) * P.
Proof.
  intros HP HM Herr Heven.
  destruct (Z.eq_dec M0 (2 ^ 53 - 1)) as [EM|NM].
  - destruct (Z.eq_dec (2 * Z.abs (p - M0 * (2 * P))) (2 * P)) as [Etie|Ntie].
    + apply Heven in Etie. rewrite EM in Etie. discriminate Etie.
    + subst M0. lia.
  - assert (M0 * (2 * P) <= (2 ^ 53 - 2) * (2 * P)) by (apply Z.mul_le_mono_nonneg_r; lia).
    lia.
Qed.

Lemma round_above_threshold (P p : Z) :
  0 < P -> 2 * Z.abs (p - 2 ^ 53 * (2 * P)) <= 2 * P -> (2 ^ 54 - 1) * P <= p.
Proof. lia. Qed.

(** [Number(p)] for a positive bigint: exact below 2^53, within a
    relative error of 2^-53 above, an infinity from 2^1024 - 2^970 on. *)
Lemma ofBigInt_pos (s : bool) (p : positive) :
  exists m e, 2 ^ 52 <= m < 2 ^ 53 /\ -52 <= e
    /\ binary_round 53 1024 s p 0 = normal s m e
    /\ (e <= 0 -> m = Zpos p * 2 ^ (- e))
    /\ (0 <= e -> Z.abs (Zpos p - m * 2 ^ e) * 2 ^ 53 <= Zpos p)
    /\ (e <= 971 <-> Zpos p < 2 ^ 1024 - 2 ^ 970).
Proof.
  pose proof (digits2_pos_bounds p) as [Blo Bhi].
  destruct largest_double_facts as (P & HP & H970 & HT & H971 & H972). rewrite HT. clear HT.
  unfold binary_round. set (d := Zpos (digits2_pos p)) in *.
  assert (Hd : 0 < d) by (unfold d; lia).
  assert (Ef : fexp 53 1024 (d + 0) = d - 53) by (unfold fexp, emin; lia).
  rewrite Ef. unfold shl_align.
  destruct (Z.ltb_spec d 53) as [Hsmall|Hbig].
  - (* fewer than 53 bits: the mantissa is shifted left, nothing is lost *)
    destruct (d - 53 - 0) as [|k|k] eqn:Ek; try lia.
    set (mz := Pos.iter xO p k).
    assert (Emz : Zpos mz = Zpos p * 2 ^ (53 - d)).
    { unfold mz. rewrite pos_iter_xO. f_equal. f_equal. lia. }
    assert (Hp1 : 2 ^ (d - 1) * 2 ^ (53 - d) = 2 ^ 52).
    { rewrite <- Z.pow_add_r by lia. f_equal. lia. }
    assert (Hp2 : 2 ^ d * 2 ^ (53 - d) = 2 ^ 53).
    { rewrite <- Z.pow_add_r by lia. f_equal. lia. }
    assert (Hpp : 0 < 2 ^ (53 - d)) by (apply Z.pow_pos_nonneg; lia).
    assert (Hmz : 2 ^ 52 <= Zpos mz < 2 ^ 53) by nia.
    destruct (binary_round_aux_spec s (Zpos mz) (d - 53) loc_Exact (Zpos mz) 1)
      as (_ & _ & M0 & Hcase & Herr & Hexact & _ & Hres); try lia.
    { unfold loc_ok. lia. }
    cbn [Zdigits2] in Hcase, Herr, Hexact, Hres.
    rewrite (digits2_pos_unique mz 53) in * by lia.
    change (53 - 53) with 0 in *. change (2 ^ 0) with 1 in *.
    rewrite Z.div_1_r in *. rewrite Z.add_0_r in Hres.
    assert (EM : M0 = Zpos mz) by (apply Hexact; lia).
    rewrite Hres, EM. exists (Zpos mz), (d - 53).
    split; [exact Hmz|]. split; [lia|]. split.
    { unfold finish, normal. destruct (Z.ltb_spec (Zpos mz) (2 ^ 53)); [reflexivity|lia]. }
    split. { intros _. rewrite Emz. f_equal. f_equal. lia. }
    split. { intros He. assert (d = 53) by lia. subst d.
             replace (53 - 53) with 0 in * by lia. change (2 ^ 0) with 1 in *.
             replace (Zpos p - Zpos mz * 1) with 0 by lia. cbn. lia. }
    split; [intros _|lia].
    assert (2 ^ d <= 2 ^ 52) by (apply Z.pow_le_mono_r; lia).
    lia.
  - (* 53 bits or more: the mantissa is shifted right and rounded *)
    assert (Hal : match d - 53 - 0 with Z.neg k => (Pos.iter xO p k, d - 53) | _ => (p, 0) end
                  = (p, 0)).
    { destruct (d - 53 - 0) eqn:Ek; try reflexivity. lia. }
    rewrite Hal.
    assert (Hp52 : 2 ^ 52 <= Zpos p).
    { assert (2 ^ 52 <= 2 ^ (d - 1)) by (apply Z.pow_le_mono_r; lia). lia. }
    destruct (binary_round_aux_spec s (Zpos p) 0 loc_Exact (Zpos p) 1)
      as (Hn & Hq1 & M0 & Hcase & Herr & Hexact & Heven & Hres); try lia.
    { unfold loc_ok. lia. }
    cbn [Zdigits2] in *. fold d in Hn, Hq1, Hcase, Herr, Hexact, Heven, Hres.
    set (n := d - 53) in *. rewrite Z.add_0_l in Hres. rewrite Z.mul_1_r in *.
    set (q1 := Zpos p / 2 ^ n) in *.
    destruct (finish_normal s M0 n ltac:(lia)) as (m & e & Hm & He & Hme & Hlt & Hfin).
    assert (Hpn : 0 < 2 ^ n) by (apply Z.pow_pos_nonneg; lia).
    assert (Eme : m * 2 ^ e = M0 * 2 ^ n).
    { rewrite <- Hme, <- Z.mul_assoc, <- Z.pow_add_r by lia. f_equal. f_equal. lia. }
    assert (Hsplit : 2 ^ (d - 1) = 2 ^ 52 * 2 ^ n).
    { rewrite <- Z.pow_add_r by lia. f_equal. unfold n. lia. }
    assert (Hsplit' : 2 ^ d = 2 ^ 53 * 2 ^ n).
    { rewrite <- Z.pow_add_r by lia. f_equal. unfold n. lia. }
    exists m, e. split; [exact Hm|]. split; [lia|]. split; [rewrite Hres; exact Hfin|].
    split.
    { intros He0. assert (e = 0) by lia. assert (n = 0) by lia. subst e.
      change (- 0) with 0. change (2 ^ 0) with 1 in *.
      replace (2 ^ n) with 1 in * by (replace n with 0 by lia; reflexivity). lia. }
    split.
    { intros _. rewrite Eme. nia. }
    assert (Hnd : n = d - 53) by reflexivity. clearbody n q1. clearbody d.
    split.
    { intros He971. destruct (Z.ltb_spec n 971) as [Hn970|Hn971].
      - assert (Hle : 2 ^ n <= 2 ^ 970) by (apply Z.pow_le_mono_r; lia).
        rewrite H970 in Hle. lia.
      - assert (En : n = 971) by lia. assert (Ee : e = 971) by lia.
        rewrite Ee, En, Z.sub_diag in Hme. change (2 ^ 0) with 1 in Hme.
        rewrite En, H971 in Herr, Heven.
        apply (round_below_threshold P (Zpos p) M0); [exact HP|lia|exact Herr|exact Heven]. }
    { intros Hp. destruct (Z.leb_spec e 971) as [|He972]; [assumption|]. exfalso.
      destruct (Z.leb_spec n 971) as [Hn971|Hn972].
      - assert (En : n = 971) by lia. assert (Ee : e = 972) by lia.
        rewrite Ee, En in Hme. change (2 ^ (972 - 971)) with 2 in Hme.
        rewrite En, H971 in Herr.
        assert (EM : M0 = 2 ^ 53) by lia. rewrite EM in Herr.
        pose proof (round_above_threshold P (Zpos p) HP Herr). lia.
      - assert (Hle : 2 ^ 972 <= 2 ^ n) by (apply Z.pow_le_mono_r; lia).
        rewrite H972 in Hle. lia. }
Qed.

Lemma new_location_ok (N D : Z) :
  0 < D -> Z.even D = true -> loc_ok N D (N / D) (new_location D (N mod D)).
Proof.
  intros HD Hev. unfold new_location. rewrite Hev. unfold new_location_even, loc_ok.
  pose proof (Z.div_mod N D ltac:(lia)) as E.
  pose proof (Z.mod_pos_bound N D HD) as B.
  replace (N - N / D * D) with (N mod D) by lia.
  split; [exact B|].
  destruct (Z.eqb_spec (N mod D) 0) as [E0|N0]; [exact E0|].
  split; [lia|reflexivity].
Qed.

Lemma SFdiv_core_binary_100 (mx : positive) (e : Z) :
  2 ^ 52 <= Zpos mx < 2 ^ 53 -> -1000 <= e ->
  SFdiv_core_binary 53 1024 (Zpos mx) e 7036874417766400 (-46)
  = ((Zpos mx * 2 ^ 53) / 7036874417766400, e - 7,
     new_location 7036874417766400 ((Zpos mx * 2 ^ 53) mod 7036874417766400)).
Proof.
  intros Hm He. unfold SFdiv_core_binary. cbn [Zdigits2].
  rewrite (digits2_pos_unique mx 53) by lia.
  change (Zpos (digits2_pos 7036874417766400)) with 53.
  assert (Ee : Z.min (fexp 53 1024 (53 + e - (53 + -46))) (e - -46) = e - 7).
  { unfold fexp, emin. lia. }
  rewrite Ee. replace (e - -46 - (e - 7)) with 53 by lia.
  rewrite Z.shiftl_mul_pow2 by lia.
  unfold Z.div, Z.modulo.
  destruct (Z.div_eucl (Zpos mx * 2 ^ 53) 7036874417766400) as [q r].
  reflexivity.
Qed.

(** The division of a double by 100: never an infinity, within a relative
    error of 2^-53, exact when the quotient is a double. *)
Lemma div_hundred (s : bool) (m e : Z) :
  2 ^ 52 <= m < 2 ^ 53 -> -1000 <= e <= 971 ->
  exists m' e', 2 ^ 52 <= m' < 2 ^ 53 /\ e - 7 <= e' <= e - 5
    /\ Number.div (S754_finite s (Z.to_pos m) e) hundred = S754_finite s (Z.to_pos m') e'
    /\ Z.abs (m * 2 ^ 7 - 100 * (m' * 2 ^ (e' - (e - 7)))) * 2 ^ 53 <= m * 2 ^ 7
    /\ ((m * 2 ^ 7) mod 100 = 0 -> 100 * (m' * 2 ^ (e' - (e - 7))) = m * 2 ^ 7).
Proof.
  intros Hm He. destruct m as [|mx|mx]; try lia. cbn [Z.to_pos].
  unfold Number.div, hundred.
  change (Number.ofBigInt 100) with (S754_finite false 7036874417766400 (-46)).
  cbn [SFdiv]. rewrite SFdiv_core_binary_100 by lia. cbv beta iota.
  rewrite xorb_false_r.
  set (D := 7036874417766400). set (N := Zpos mx * 2 ^ 53).
  assert (HD : 0 < D) by reflexivity.
  assert (ED : D = 100 * 2 ^ 46) by reflexivity.
  pose proof (new_location_ok N D HD eq_refl) as Hloc.
  pose proof (Z.div_mod N D ltac:(lia)) as EN.
  pose proof (Z.mod_pos_bound N D HD) as BN.
  set (q := N / D) in *.
  assert (Hq : 2 ^ 52 <= q < 2 ^ 54).
  { unfold q. split.
    - apply Z.div_le_lower_bound; [exact HD|]. unfold N. rewrite ED. lia.
    - apply Z.div_lt_upper_bound; [exact HD|]. unfold N. rewrite ED. lia. }
  destruct (binary_round_aux_spec s q (e - 7) (new_location D (N mod D)) N D
              HD ltac:(lia) ltac:(lia) Hloc)
    as (Hn & Hq1 & M0 & Hcase & Herr & Hexact & _ & Hres).
  rewrite Hres.
  destruct q as [|qp|qp]; try lia. cbn [Zdigits2] in *.
  pose proof (digits2_pos_bounds qp) as [Blo Bhi].
  set (dq := Zpos (digits2_pos qp)) in *.
  assert (Hdq : dq = 53 \/ dq = 54).
  { destruct (Z.leb_spec dq 54) as [Hle|Hgt]; [lia|]. exfalso.
    assert (2 ^ 54 <= 2 ^ (dq - 1)) by (apply Z.pow_le_mono_r; lia). lia. }
  set (n := dq - 53) in *.
  destruct (finish_normal s M0 (e - 7 + n) ltac:(lia)) as (m' & e' & Hm' & He' & Hme & _ & Hfin).
  exists m', e'. split; [exact Hm'|]. split; [lia|].
  split.
  { rewrite Hfin. unfold normal. destruct (Z.leb_spec e' 971); [reflexivity|lia]. }
  assert (EY : m' * 2 ^ (e' - (e - 7)) = M0 * 2 ^ n).
  { rewrite <- Hme, <- Z.mul_assoc, <- Z.pow_add_r by lia. f_equal. f_equal. lia. }
  rewrite EY. clear Hres Hfin.
  assert (Hn2 : 2 ^ n = 1 /\ n = 0 \/ 2 ^ n = 2 /\ n = 1).
  { destruct Hdq as [Hdq|Hdq]; [left|right]; unfold n; rewrite Hdq; split; reflexivity. }
  assert (EN' : Zpos mx * 2 ^ 7 * 2 ^ 46 = 100 * 2 ^ 46 * Zpos qp + N mod D).
  { rewrite <- ED, <- EN. unfold N. lia. }
  assert (HmD : n = 1 -> 100 * 2 ^ 46 <= Zpos mx).
  { intros En. assert (Edq : dq = 54) by lia. rewrite Edq in Blo.
    change (2 ^ (54 - 1)) with (2 ^ 53) in Blo. lia. }
  set (r := N mod D) in *. clearbody r. clear EN Hloc.
  rewrite ED in Herr, Hexact, BN.
  replace N with (Zpos mx * 2 ^ 7 * 2 ^ 46) in Herr, Hexact by (unfold N; lia).
  clearbody N D.
  set (q1 := Zpos qp / 2 ^ n) in *.
  pose proof (Z.div_mod (Zpos qp) 2 ltac:(lia)) as Eq2.
  pose proof (Z.mod_pos_bound (Zpos qp) 2 ltac:(lia)) as Bq2.
  assert (Eq1 : n = 0 /\ q1 = Zpos qp \/ n = 1 /\ q1 = Zpos qp / 2).
  { destruct Hn2 as [[E2 En]|[E2 En]]; [left|right]; split; try exact En;
      unfold q1; rewrite En.
    - change (2 ^ 0) with 1. apply Z.div_1_r.
    - reflexivity. }
  clearbody q1 dq. clear Blo Bhi Hdq.
  split.
  - destruct Hn2 as [[E2 En]|[E2 En]]; rewrite E2 in *.
    + lia.
    + specialize (HmD En). lia.
  - intros Hdiv.
    pose proof (Z.div_mod (Zpos mx * 2 ^ 7) 100 ltac:(lia)) as Ek.
    rewrite Hdiv, Z.add_0_r in Ek. set (k := Zpos mx * 2 ^ 7 / 100) in *. clearbody k.
    assert (Ekq : k = Zpos qp /\ r = 0) by lia.
    destruct Ekq as [Ekq Er]. 
    destruct Hn2 as [[E2 En]|[E2 En]]; rewrite E2 in *;
      destruct Eq1 as [[En' Eq1]|[En' Eq1]]; try lia;
      assert (M0 = q1) by (apply Hexact; lia); lia.
Qed.

Lemma ofBigInt_sign (z : Z) :
  z <> 0 ->
  Number.ofBigInt z = binary_round 53 1024 (z <? 0) (Z.to_pos (Z.abs z)) 0.
Proof.
  intros Hz. destruct z as [|p|p]; [lia| |]; reflexivity.
Qed.

(** The double [Number(bp) / 100] for a bigint [bp] that is not zero. *)
Lemma percent_of_basis_points (bp : Z) :
  bp <> 0 ->
  let a := Z.abs bp in
  let pct := Number.div (Number.ofBigInt bp) hundred in
  (a < 2 ^ 1024 - 2 ^ 970 ->
   exists m e, 2 ^ 52 <= m < 2 ^ 53 /\ -59 <= e
     /\ pct = S754_finite (bp <? 0) (Z.to_pos m) e
     /\ Z.abs (a * 2 ^ 59 - 100 * (m * 2 ^ (e + 59))) * 2 ^ 106 <= a * 2 ^ 59 * (2 ^ 54 + 1)
     /\ (a < 2 ^ 53 ->
         Z.abs (a * 2 ^ 59 - 100 * (m * 2 ^ (e + 59))) * 2 ^ 53 <= a * 2 ^ 59
         /\ (a mod 100 = 0 -> 100 * (m * 2 ^ (e + 59)) = a * 2 ^ 59)))
  /\ (2 ^ 1024 - 2 ^ 970 <= a -> pct = S754_infinity (bp <? 0)).
Proof.
  intros Hbp. cbv zeta. rewrite (ofBigInt_sign bp Hbp).
  set (s := bp <? 0). set (a := Z.abs bp).
  assert (Ha : 0 < a) by (unfold a; lia).
  set (p := Z.to_pos a).
  assert (Epa : a = Zpos p) by (unfold p; rewrite Z2Pos.id; [reflexivity|exact Ha]).
  clearbody p a. subst a.
  destruct (ofBigInt_pos s p) as (m & e & Hm & He & Hres & Hexact & Hround & Hfin).
  rewrite Hres. unfold normal. clear Hres. split.
  2:{ intros HT. destruct (Z.leb_spec e 971) as [Hle|_].
      - apply Hfin in Hle. lia.
      - unfold s. destruct (bp <? 0); reflexivity. }
  intros HT. apply Hfin in HT. clear Hfin.
  destruct (Z.leb_spec e 971) as [_|]; [|lia].
  destruct (div_hundred s m e Hm ltac:(lia)) as (m' & e' & Hm' & He' & Hdiv & Herr & Hex).
  exists m', e'. split; [exact Hm'|]. split; [lia|]. split; [exact Hdiv|].
  clear Hdiv.
  assert (Hu : 0 < 2 ^ (e + 52)) by (apply Z.pow_pos_nonneg; lia).
  assert (E1 : m * 2 ^ 7 * 2 ^ (e + 52) = m * 2 ^ (e + 59))
    by (rewrite <- Z.mul_assoc, <- Z.pow_add_r by lia; f_equal; f_equal; lia).
  assert (E2 : m' * 2 ^ (e' - (e - 7)) * 2 ^ (e + 52) = m' * 2 ^ (e' + 59))
    by (rewrite <- Z.mul_assoc, <- Z.pow_add_r by lia; f_equal; f_equal; lia).
  assert (Herr' : Z.abs (m * 2 ^ (e + 59) - 100 * (m' * 2 ^ (e' + 59))) * 2 ^ 53
                  <= m * 2 ^ (e + 59)).
  { rewrite <- E1, <- E2.
    replace (m * 2 ^ 7 * 2 ^ (e + 52) - 100 * (m' * 2 ^ (e' - (e - 7)) * 2 ^ (e + 52)))
      with ((m * 2 ^ 7 - 100 * (m' * 2 ^ (e' - (e - 7)))) * 2 ^ (e + 52)) by ring.
    rewrite Z.abs_mul, (Z.abs_eq (2 ^ (e + 52))) by lia.
    rewrite <- Z.mul_assoc, (Z.mul_comm (2 ^ (e + 52))), Z.mul_assoc.
    apply Z.mul_le_mono_nonneg_r; [lia|exact Herr]. }
  assert (Hex' : (m * 2 ^ 7) mod 100 = 0 ->
                 100 * (m' * 2 ^ (e' + 59)) = m * 2 ^ (e + 59)).
  { intros H0. rewrite <- E1, <- E2, <- (Hex H0). ring. }
  clear Herr Hex E2.
  set (Vs := m' * 2 ^ (e' + 59)) in *. clearbody Vs.
  (* the double of the bigint against the bigint *)
  assert (HX : Z.abs (Zpos p * 2 ^ 59 - m * 2 ^ (e + 59)) * 2 ^ 53 <= Zpos p * 2 ^ 59
               /\ (Zpos p < 2 ^ 53 -> e <= 0)).
  { destruct (Z.leb_spec 0 e) as [Hpos|Hneg].
    - specialize (Hround Hpos). split.
      + rewrite (Z.pow_add_r 2 e 59) by lia.
        replace (Zpos p * 2 ^ 59 - m * (2 ^ e * 2 ^ 59))
          with ((Zpos p - m * 2 ^ e) * 2 ^ 59) by ring.
        rewrite Z.abs_mul, (Z.abs_eq (2 ^ 59)) by lia. lia.
      + intros Hsmall. destruct (Z.eq_dec e 0) as [|Hne]; [lia|]. exfalso.
        assert (2 ^ 1 <= 2 ^ e) by (apply Z.pow_le_mono_r; lia).
        change (2 ^ 1) with 2 in *.
        assert (2 ^ 53 <= m * 2 ^ e) by nia. lia.
    - split; [|lia]. rewrite (Hexact ltac:(lia)).
      rewrite <- Z.mul_assoc, <- Z.pow_add_r by lia.
      replace (- e + (e + 59)) with 59 by lia. rewrite Z.sub_diag. cbn. lia. }
  destruct HX as [HX Hsmall_e].
  split.
  { set (Xs := m * 2 ^ (e + 59)) in *. clearbody Xs.
    set (A := Zpos p * 2 ^ 59) in *. clearbody A. lia. }
  intros Hsmall. specialize (Hsmall_e Hsmall).
  assert (EX : m * 2 ^ (e + 59) = Zpos p * 2 ^ 59).
  { rewrite (Hexact Hsmall_e), <- Z.mul_assoc, <- Z.pow_add_r by lia.
    f_equal. f_equal. lia. }
  rewrite EX in Herr', Hex'. split; [exact Herr'|].
  intros H100. apply Hex'. rewrite (Hexact Hsmall_e).
  pose proof (Z.div_mod (Zpos p) 100 ltac:(lia)) as Ek. rewrite H100, Z.add_0_r in Ek.
  rewrite Ek.
  replace (100 * (Zpos p / 100) * 2 ^ (- e) * 2 ^ 7)
    with ((Zpos p / 100) * 2 ^ (- e) * 2 ^ 7 * 100) by ring.
  apply Z.mod_mul. lia.
Qed.

(** *** The rational a double holds *)

Lemma Qpower_2_scaled (z e : Z) :
  -59 <= e ->
  (inject_Z z * 2 ^ e == (z * 2 ^ (e + 59)) # (2 ^ 59))%Q.
Proof.
  intros He.
  replace e with ((e + 59) + (-59)) at 1 by lia.
  rewrite Qpower_plus by discriminate.
  change 2%Q with (inject_Z 2). rewrite <- Zpower_Qpower by lia.
  change (inject_Z 2 ^ (-59))%Q with (1 # 2 ^ 59)%Q.
  unfold Qeq, Qmult, inject_Z. cbn [Qnum Qden]. lia.
Qed.

Lemma toQ_finite (s : bool) (m e : Z) :
  0 < m -> -59 <= e ->
  exists v, Number.toQ (S754_finite s (Z.to_pos m) e) = Some v
    /\ (v == (cond_Zopp s (m * 2 ^ (e + 59))) # (2 ^ 59))%Q.
Proof.
  intros Hm He. eexists. split; [reflexivity|].
  rewrite Qpower_2_scaled by exact He. rewrite Z2Pos.id by exact Hm.
  destruct s; cbn [cond_Zopp]; [|reflexivity].
  rewrite Z.mul_opp_l. reflexivity.
Qed.

(** Error bounds on scaled integers, read as rationals. *)
Lemma scaled_error_Q (s : bool) (a W : Z) (v : Q) (n : Z) (d : positive) :
  0 <= a ->
  (v == cond_Zopp s W # (2 ^ 59))%Q ->
  Z.abs (a * 2 ^ 59 - 100 * W) * Zpos d <= a * 2 ^ 59 * n ->
  (Qabs (100 * v - inject_Z (cond_Zopp s a)) <= Qabs (inject_Z (cond_Zopp s a)) * (n # d))%Q.
Proof.
  intros Ha Hv H. rewrite Hv.
  assert (E : (100 * (cond_Zopp s W # 2 ^ 59) - inject_Z (cond_Zopp s a)
               == cond_Zopp s (100 * W - a * 2 ^ 59) # 2 ^ 59)%Q).
  { unfold Qeq, Qminus, Qplus, Qmult, Qopp, inject_Z. cbn [Qnum Qden].
    destruct s; cbn [cond_Zopp]; lia. }
  rewrite E. unfold Qabs, Qle, Qmult, inject_Z. cbn [Qnum Qden].
  assert (E1 : Z.abs (cond_Zopp s (100 * W - a * 2 ^ 59)) = Z.abs (a * 2 ^ 59 - 100 * W)).
  { destruct s; cbn [cond_Zopp]; lia. }
  assert (E2 : Z.abs (cond_Zopp s a) = a).
  { destruct s; cbn [cond_Zopp]; lia. }
  rewrite E1, E2. rewrite Pos.mul_1_l.
  change (Zpos (2 ^ 59)) with (2 ^ 59). lia.
Qed.

(** *** The percentage *)

(** C7, as stated, fails where the cost basis does not divide
    10000 * pnl: the bigint quotient cuts the percentage to whole basis
    points before it becomes a double.  For a value of 4 on a cost basis of
    3 the result is the double of 33.33: no number within a thousandth of
    100 / 3. *)
Lemma calculatePnL_percent_is_truncated :
  ~ (exists v, Number.toQ (pnl_percent (calculatePnL 4 3)) = Some v
       /\ (Qabs (v - 100 / 3) <= 1 / 1000)%Q).
Proof.
  intros (v & Hv & Hclose). vm_compute in Hv. injection Hv as <-.
  vm_compute in Hclose. apply Hclose. reflexivity.
Qed.

(** C7, amended.  For a cost basis [>= 0], [calculatePnL] returns
    pnl = currentValue - costBasis; when the cost basis is zero,
    pnlPercent = 0.  When it is not zero, let bp be 10000 * pnl / costBasis
    cut toward zero, the percentage in whole basis points (less than one
    basis point from the ratio).  pnlPercent is the double
    [Number(bp) / 100]:
    - for |bp| < 2^53 it is within a relative error of 2^-53 of bp / 100,
      and it is bp / 100 itself when bp is a multiple of 100;
    - for |bp| < 2^1024 - 2^970 it is finite and within a relative error of
      2^-52 + 2^-106 of bp / 100, [Number(bp)] being rounded as well;
    - from there on it is the infinity with the sign of bp. *)
Theorem calculatePnL_spec (currentValue costBasis : Z) :
  0 <= costBasis ->
  let r := calculatePnL currentValue costBasis in
  let bp := Z.quot ((currentValue - costBasis) * 10000) costBasis in
  pnl_value r = currentValue - costBasis
  /\
  (costBasis = 0 -> pnl_percent r = Number.zero)
  /\
  (costBasis <> 0 ->
   Z.abs (10000 * (currentValue - costBasis) - costBasis * bp) < costBasis
   /\ pnl_percent r = Number.div (Number.ofBigInt bp) (Number.ofBigInt 100)
   /\ (Z.abs bp < 2 ^ 1024 - 2 ^ 970 ->
       exists v, Number.toQ (pnl_percent r) = Some v
         /\ (Qabs (100 * v - inject_Z bp)
             <= Qabs (inject_Z bp) * ((2 ^ 54 + 1) # (2 ^ 106)))%Q
         /\ (Z.abs bp < 2 ^ 53 ->
             (Qabs (100 * v - inject_Z bp) <= Qabs (inject_Z bp) * (1 # (2 ^ 53)))%Q
             /\ (Z.rem bp 100 = 0 -> (100 * v == inject_Z bp)%Q)))
   /\ (2 ^ 1024 - 2 ^ 970 <= Z.abs bp -> pnl_percent r = S754_infinity (bp <? 0))).
Proof.
  intros Hcb. cbv zeta. unfold calculatePnL. cbn [pnl_value pnl_percent].
  split; [reflexivity|]. split.
  { intros ->. reflexivity. }
  intros Hnz. assert (Hpos : 0 < costBasis) by lia.
  destruct (Z.gtb_spec costBasis 0) as [_|]; [|lia].
  set (n := (currentValue - costBasis) * 10000).
  pose proof (Z.quot_rem' n costBasis) as E.
  pose proof (Z.rem_bound_abs n costBasis ltac:(lia)) as Hr.
  set (bp := Z.quot n costBasis) in *.
  split.
  { replace (10000 * (currentValue - costBasis)) with n by (unfold n; lia). lia. }
  split; [reflexivity|]. clearbody bp. clear E Hr.
  destruct (Z.eq_dec bp 0) as [->|Hbp].
  { split.
    - intros _. exists 0%Q. split; [reflexivity|]. split; [vm_compute; discriminate|].
      intros _. split; [vm_compute; discriminate|]. intros _. reflexivity.
    - intros H. exfalso. revert H. vm_compute. intros H. apply H. reflexivity. }
  destruct (percent_of_basis_points bp Hbp) as [Hfin Hinf].
  fold hundred. split; [|exact Hinf].
  intros HT. destruct (Hfin HT) as (m & e & Hm & He & Hpct & Herr & Hsmall).
  rewrite Hpct.
  destruct (toQ_finite (bp <? 0) m e ltac:(lia) He) as (v & Hv & Ev).
  exists v. split; [exact Hv|].
  assert (Ebp : bp = cond_Zopp (bp <? 0) (Z.abs bp)).
  { destruct (Z.ltb_spec bp 0); cbn [cond_Zopp]; lia. }
  split.
  { rewrite Ebp at 1 2.
    apply (scaled_error_Q _ _ (m * 2 ^ (e + 59)) v (2 ^ 54 + 1) (2 ^ 106)); [lia|exact Ev|].
    change (Zpos (2 ^ 106)) with (2 ^ 106). exact Herr. }
  intros H53. destruct (Hsmall H53) as [Herr53 Hex]. split.
  { rewrite Ebp at 1 2.
    apply (scaled_error_Q _ _ (m * 2 ^ (e + 59)) v 1 (2 ^ 53)); [lia|exact Ev|].
    change (Zpos (2 ^ 53)) with (2 ^ 53). lia. }
  intros Hrem.
  assert (Hmod : Z.abs bp mod 100 = 0).
  { pose proof (Z.quot_rem' bp 100) as Eq. rewrite Hrem, Z.add_0_r in Eq.
    replace (Z.abs bp) with (Z.abs (Z.quot bp 100) * 100) by lia.
    apply Z.mod_mul. lia. }
  specialize (Hex Hmod). rewrite Ev.
  unfold Qeq, Qmult, inject_Z. cbn [Qnum Qden]. rewrite Pos.mul_1_l.
  change (Zpos (2 ^ 59)) with (2 ^ 59).
  destruct (Z.ltb_spec bp 0); cbn [cond_Zopp]; lia.
Qed.

Lemma calculatePnL_spec_witness :
  pnl_value (calculatePnL 4 3) = 1
  /\ pnl_percent (calculatePnL 4 3) = S754_finite false 4690780486883082 (-47).
Proof.
  pose proof (calculatePnL_spec 4 3 ltac:(vm_compute; discriminate)) as (Hp & _ & Hq).
  split.
  - exact Hp.
  - destruct (Hq ltac:(discriminate)) as (_ & Hd & _). rewrite Hd. reflexivity.
Defined.

(** Beyond 2^53 basis points [Number(...)] rounds as well: with
    bp = 144115188075870000, a multiple of 100, the percentage is
    1441151880758700.25 and not bp / 100. *)
Example calculatePnL_large_percentage :
  Number.toQ (pnl_percent (calculatePnL 14411518807588 1))
  = Some (inject_Z 5764607523034801 * 2 ^ (-2))%Q
  /\ Z.quot ((14411518807588 - 1) * 10000) 1 = 144115188075870000.
Proof. split; reflexivity. Qed.

(** ** Prices *)

Lemma bind_ret_inv {A B : Type} (m : result A) (k : A -> result B) (b : B) :
  bind m k = ret b -> exists a, m = ret a /\ k a = ret b.
Proof.
  destruct m as [e|a]; cbn; intros H; [discriminate|eauto].
Qed.

Lemma pow10_pos (n : nat) : 0 < BigInt.pow10 n.
Proof.
  unfold BigInt.pow10. apply Z.pow_pos_nonneg; lia.
Qed.

Section Price.

Context {sdk : V3Sdk}.

Lemma priceToSqrtRatioX96_rejects
    (baseTokenAddress quoteTokenAddress : Z) (baseTokenDecimals : nat) (price : Z) :
  price <= 0 ->
  priceToSqrtRatioX96 baseTokenAddress quoteTokenAddress baseTokenDecimals price
  = inl (Error "price must be a positive bigint").
Proof.
  intros Hp. unfold priceToSqrtRatioX96.
  destruct (Z.leb_spec price 0); [reflexivity|lia].
Qed.

Lemma priceToSqrtRatioX96_encodes
    (baseTokenAddress quoteTokenAddress : Z) (baseTokenDecimals : nat) (price : Z) :
  0 < price ->
  priceToSqrtRatioX96 baseTokenAddress quoteTokenAddress baseTokenDecimals price
  = if baseTokenAddress <? quoteTokenAddress
    then encodeSqrtRatioX96 price (BigInt.pow10 baseTokenDecimals)
    else encodeSqrtRatioX96 (BigInt.pow10 baseTokenDecimals) price.
Proof.
  intros Hp. unfold priceToSqrtRatioX96.
  destruct (Z.leb_spec price 0); [lia|].
  now destruct (baseTokenAddress <? quoteTokenAddress).
Qed.

(** C9.  For every price [<= 0], [priceToSqrtRatioX96] throws the error
    "price must be a positive bigint", and so do [priceToTick] and
    [priceToClosestUsableTick], which call it first; nothing is clamped and
    no value is returned.  For every price [> 0] it returns normally, the
    encoder of the SDK returning on positive amounts. *)
Theorem price_must_be_positive
    (price tickSpacing baseTokenAddress quoteTokenAddress : Z)
    (baseTokenDecimals : nat) :
  (forall amount1 amount0 : Z,
      0 < amount1 -> 0 < amount0 ->
      exists r, encodeSqrtRatioX96 amount1 amount0 = ret r) ->
  (price <= 0 ->
   priceToSqrtRatioX96 baseTokenAddress quoteTokenAddress baseTokenDecimals price
   = inl (Error "price must be a positive bigint")
   /\ priceToTick price tickSpacing baseTokenAddress quoteTokenAddress
        baseTokenDecimals
      = inl (Error "price must be a positive bigint")
   /\ priceToClosestUsableTick price tickSpacing baseTokenAddress quoteTokenAddress
        baseTokenDecimals
      = inl (Error "price must be a positive bigint"))
  /\
  (0 < price ->
   exists sqrtRatioX96,
     priceToSqrtRatioX96 baseTokenAddress quoteTokenAddress baseTokenDecimals price
     = ret sqrtRatioX96).
Proof.
  intros Henc. split.
  - intros Hp. unfold priceToTick, priceToClosestUsableTick.
    rewrite priceToSqrtRatioX96_rejects by assumption. now cbn.
  - intros Hp. rewrite priceToSqrtRatioX96_encodes by assumption.
    pose proof (pow10_pos baseTokenDecimals).
    destruct (baseTokenAddress <? quoteTokenAddress); now apply Henc.
Qed.

(** ** The curve *)

Lemma forEach_length {A B : Type} (f : A -> result B) (l : list A) (ys : list B) :
  forEach f l = ret ys -> List.length ys = List.length l.
Proof.
  revert ys. induction l as [|x xs IH]; intros ys H; cbn in H.
  - now inversion H.
  - apply bind_ret_inv in H as (y & _ & H).
    apply bind_ret_inv in H as (ys' & Hys & H).
    inversion H; subst. cbn. f_equal. now apply IH.
Qed.

Lemma forEach_nth_error {A B : Type} (f : A -> result B) (l : list A) (ys : list B)
    (i : nat) (y : B) :
  forEach f l = ret ys -> nth_error ys i = Some y ->
  exists x, nth_error l i = Some x /\ f x = ret y.
Proof.
  revert ys i. induction l as [|x xs IH]; intros ys i H Hy; cbn in H.
  - inversion H; subst. now destruct i.
  - apply bind_ret_inv in H as (y0 & Hy0 & H).
    apply bind_ret_inv in H as (ys' & Hys & H).
    inversion H; subst. destruct i as [|i]; cbn in Hy |- *.
    + inversion Hy; subst. eauto.
    + eapply IH; eassumption.
Qed.

Lemma indices_length (n : nat) : List.length (indices n) = S n.
Proof.
  unfold indices. now rewrite length_map, length_seq.
Qed.

Lemma indices_nth_error (n i : nat) (x : Z) :
  nth_error (indices n) i = Some x -> x = Z.of_nat i /\ (i <= n)%nat.
Proof.
  unfold indices. rewrite nth_error_map, nth_error_seq.
  destruct (Nat.ltb_spec i (S n)) as [Hlt|Hge]; cbn; intros H; inversion H.
  split; lia.
Qed.

Lemma pnlPointAt_inv
    (liquidity tickLower tickUpper costBasis baseTokenAddress quoteTokenAddress : Z)
    (baseTokenDecimals : nat) (tickSpacing : Z) (priceRange : PriceRange)
    (priceStep : Z) (baseIsToken0 : bool) (i : Z) (p : PnLPoint) :
  pnlPointAt liquidity tickLower tickUpper costBasis baseTokenAddress
    quoteTokenAddress baseTokenDecimals tickSpacing priceRange priceStep
    baseIsToken0 i = ret p ->
  price p = min priceRange + i * priceStep /\
  exists tick,
    priceToTick (price p) tickSpacing baseTokenAddress quoteTokenAddress
      baseTokenDecimals = ret tick /\
    phase p = determinePhase tick tickLower tickUpper.
Proof.
  unfold pnlPointAt. intros H.
  apply bind_ret_inv in H as (tick & Htick & H).
  apply bind_ret_inv in H as (sqrtPriceX96 & _ & H).
  apply bind_ret_inv in H as (value & _ & H).
  inversion H; subst; cbn [price phase]. eauto.
Qed.

(** What a returned curve looks like, for any number of points. *)
Lemma generatePnLCurve_inv
    (liquidity tickLower tickUpper costBasis baseTokenAddress quoteTokenAddress : Z)
    (baseTokenDecimals : nat) (tickSpacing : Z) (priceRange : PriceRange)
    (numPoints : nat) (pts : list PnLPoint) :
  generatePnLCurve liquidity tickLower tickUpper costBasis baseTokenAddress
    quoteTokenAddress baseTokenDecimals tickSpacing priceRange numPoints = ret pts ->
  List.length pts = S numPoints /\
  forall (i : nat) (p : PnLPoint),
    nth_error pts i = Some p ->
    (i <= numPoints)%nat /\
    price p = min priceRange
              + Z.of_nat i * Z.quot (max priceRange - min priceRange) (Z.of_nat numPoints) /\
    exists tick,
      priceToTick (price p) tickSpacing baseTokenAddress quoteTokenAddress
        baseTokenDecimals = ret tick /\
      phase p = determinePhase tick tickLower tickUpper.
Proof.
  unfold generatePnLCurve. intros H.
  apply bind_ret_inv in H as (priceStep & Hstep & H).
  unfold BigInt.div in Hstep.
  destruct (Z.of_nat numPoints =? 0); [discriminate|].
  inversion Hstep; subst priceStep. split.
  - apply forEach_length in H. now rewrite indices_length in H.
  - intros i p Hp.
    destruct (forEach_nth_error _ _ _ _ _ H Hp) as (x & Hx & Hfx).
    apply indices_nth_error in Hx as [-> Hi].
    apply pnlPointAt_inv in Hfx as (Hprice & Htick). auto.
Qed.

Lemma phase_follows_tick
    (tickLower tickUpper tick tick' : Z) (p q : PnLPoint) :
  phase p = determinePhase tick tickLower tickUpper ->
  phase q = determinePhase tick' tickLower tickUpper ->
  tick <= tick' ->
  phaseRank (phase p) <= phaseRank (phase q).
Proof.
  intros -> -> H. now apply determinePhase_monotone.
Qed.

End Price.

Lemma price_must_be_positive_witness :
  priceToTick (sdk := coarseSdk) 0 60 1 2 18
  = inl (Error "price must be a positive bigint")
  /\
  priceToSqrtRatioX96 (sdk := coarseSdk) 1 2 18 3000000000
  = ret 4339505179874779489431521.
Proof.
  assert (Henc : forall amount1 amount0 : Z,
             0 < amount1 -> 0 < amount0 ->
             exists r, encodeSqrtRatioX96 (V3Sdk := coarseSdk) amount1 amount0 = ret r).
  { intros amount1 amount0 H1 H0. cbn. unfold coarse_encodeSqrtRatioX96.
    destruct (Z.eqb_spec amount0 0); [lia|].
    rewrite Z.shiftl_mul_pow2 by lia.
    destruct (Z.ltb_spec (Z.quot (amount1 * 2 ^ 192) amount0) 0) as [Hneg|_];
      [|eauto].
    pose proof (Z.quot_pos (amount1 * 2 ^ 192) amount0 ltac:(lia) H0). lia. }
  split.
  - apply (proj1 (price_must_be_positive (sdk := coarseSdk) 0 60 1 2 18 Henc)).
    vm_compute. discriminate.
  - destruct (proj2 (price_must_be_positive (sdk := coarseSdk) 3000000000 60 1 2 18 Henc)
                eq_refl) as [r Hr].
    rewrite Hr. vm_compute in Hr. symmetry. exact Hr.
Defined.

(** C6, as stated, fails where 150 does not divide max - min: the step is
    the truncated quotient, so the last price falls short of max.  On the
    range from 1 to 2 the step is 0: whatever the SDK and the position, no
    point of a returned curve has the price 2. *)
Lemma generatePnLCurve_stops_short :
  ~ exists (sdk : V3Sdk)
      (liquidity tickLower tickUpper costBasis baseTokenAddress quoteTokenAddress : Z)
      (baseTokenDecimals : nat) (tickSpacing : Z) (pts : list PnLPoint) (p : PnLPoint),
      generatePnLCurve liquidity tickLower tickUpper costBasis baseTokenAddress
        quoteTokenAddress baseTokenDecimals tickSpacing (mkPriceRange 1 2) 150 = ret pts
      /\ List.length pts = 151%nat
      /\ In p pts /\ price p = 2.
Proof.
  intros (sdk & liquidity & tickLower & tickUpper & costBasis & baseTokenAddress
          & quoteTokenAddress & baseTokenDecimals & tickSpacing & pts & p
          & Hrun & _ & Hin & Hprice).
  apply In_nth_error in Hin as [i Hi].
  destruct (generatePnLCurve_inv _ _ _ _ _ _ _ _ _ _ _ Hrun) as [_ Hpts].
  destruct (Hpts i p Hi) as (_ & Hp & _).
  cbn [min max] in Hp.
  change (Z.quot (2 - 1) (Z.of_nat 150)) with 0 in Hp. lia.
Qed.

(** C6, amended.  For a range with min < max and numPoints = 150, a curve
    that [generatePnLCurve] returns (it throws when a sampled price is not
    positive or the SDK rejects a value) has exactly 151 points; the price
    of point i is min + i * floor((max - min) / 150), so the prices start
    at min, are evenly spaced, stay within the range, do not decrease, and
    increase strictly when max - min >= 150; the phase of each point is
    [determinePhase] of the tick that [priceToTick] gives for its price, so
    the phase moves from below through in-range to above with that tick,
    and with the price wherever the tick does not decrease with the
    price. *)
Theorem generatePnLCurve_150_points
    (sdk : V3Sdk)
    (liquidity tickLower tickUpper costBasis baseTokenAddress quoteTokenAddress : Z)
    (baseTokenDecimals : nat) (tickSpacing : Z) (priceRange : PriceRange)
    (pts : list PnLPoint) :
  min priceRange < max priceRange ->
  generatePnLCurve liquidity tickLower tickUpper costBasis baseTokenAddress
    quoteTokenAddress baseTokenDecimals tickSpacing priceRange 150 = ret pts ->
  let step := floorDiv (max priceRange - min priceRange) 150 in
  let tickOf := fun price : Z =>
    priceToTick price tickSpacing baseTokenAddress quoteTokenAddress
      baseTokenDecimals in
  List.length pts = 151%nat
  /\
  (forall (i : nat) (p : PnLPoint),
      nth_error pts i = Some p ->
      price p = min priceRange + Z.of_nat i * step
      /\ min priceRange <= price p <= max priceRange
      /\ exists tick,
           tickOf (price p) = ret tick
           /\ phase p = determinePhase tick tickLower tickUpper)
  /\
  (forall (i j : nat) (p q : PnLPoint),
      nth_error pts i = Some p -> nth_error pts j = Some q ->
      (i <= j)%nat -> price p <= price q)
  /\
  (150 <= max priceRange - min priceRange ->
   forall (i j : nat) (p q : PnLPoint),
     nth_error pts i = Some p -> nth_error pts j = Some q ->
     (i < j)%nat -> price p < price q)
  /\
  (forall (p q : PnLPoint) (tick tick' : Z),
      In p pts -> In q pts ->
      tickOf (price p) = ret tick -> tickOf (price q) = ret tick' ->
      tick <= tick' -> phaseRank (phase p) <= phaseRank (phase q))
  /\
  ((forall (x y tick tick' : Z),
       x <= y -> tickOf x = ret tick -> tickOf y = ret tick' -> tick <= tick') ->
   forall (i j : nat) (p q : PnLPoint),
     nth_error pts i = Some p -> nth_error pts j = Some q ->
     (i <= j)%nat -> phaseRank (phase p) <= phaseRank (phase q)).
Proof.
  intros Hrange Hrun step tickOf.
  destruct (generatePnLCurve_inv _ _ _ _ _ _ _ _ _ _ _ Hrun) as [Hlen Hpts].
  assert (Hquot : Z.quot (max priceRange - min priceRange) (Z.of_nat 150) = step).
  { unfold step, floorDiv. apply Z.quot_div_nonneg; lia. }
  rewrite Hquot in Hpts.
  assert (Hstep0 : 0 <= step) by (apply Z.div_pos; lia).
  assert (Hstep150 : 150 * step <= max priceRange - min priceRange)
    by (apply Z.mul_div_le; lia).
  assert (Hprices : forall i j p q,
             nth_error pts i = Some p -> nth_error pts j = Some q ->
             (i <= j)%nat -> price p <= price q).
  { intros i j p q Hp Hq Hij.
    destruct (Hpts i p Hp) as (_ & -> & _). destruct (Hpts j q Hq) as (_ & -> & _).
    nia. }
  split; [exact Hlen|]. split; [|split; [exact Hprices|split; [|split]]].
  - intros i p Hp. destruct (Hpts i p Hp) as (Hi & Hprice & Htick).
    split; [exact Hprice|]. split; [nia|exact Htick].
  - intros Hwide i j p q Hp Hq Hij.
    destruct (Hpts i p Hp) as (_ & -> & _). destruct (Hpts j q Hq) as (_ & -> & _).
    assert (1 <= step) by (apply Z.div_le_lower_bound; lia).
    nia.
  - intros p q tick tick' Hp Hq Ht Ht' Hle.
    apply In_nth_error in Hp as [i Hp]. apply In_nth_error in Hq as [j Hq].
    destruct (Hpts i p Hp) as (_ & _ & t & Et & Ep).
    destruct (Hpts j q Hq) as (_ & _ & t' & Et' & Eq).
    unfold tickOf in Ht, Ht'.
    rewrite Et in Ht. rewrite Et' in Ht'. inversion Ht; inversion Ht'; subst.
    eapply phase_follows_tick; eassumption.
  - intros Hmono i j p q Hp Hq Hij.
    destruct (Hpts i p Hp) as (_ & _ & t & Et & Ep).
    destruct (Hpts j q Hq) as (_ & _ & t' & Et' & Eq).
    eapply phase_follows_tick; [eassumption|eassumption|].
    eapply Hmono; [|exact Et|exact Et']. eapply Hprices; eassumption.
Qed.

Lemma generatePnLCurve_150_points_witness :
  exists pts : list PnLPoint,
    coarse_curve = ret pts /\ List.length pts = 151%nat.
Proof.
  destruct coarse_curve as [e|pts] eqn:Hrun.
  - vm_compute in Hrun. discriminate Hrun.
  - exists pts. split; [reflexivity|].
    exact (proj1 (generatePnLCurve_150_points coarseSdk _ _ _ _ _ _ _ _
                    (mkPriceRange 1 151) pts eq_refl Hrun)).
Defined.

Example coarse_curve_phases :
  match coarse_curve with
  | inl _ => False
  | inr pts =>
      map (fun p => (price p, phase p)) (firstn 4 (skipn 2 pts))
      = [(3, below); (4, in_range); (5, in_range); (6, in_range)]
      /\ map (fun p => (price p, phase p)) (firstn 2 (skipn 62 pts))
         = [(63, in_range); (64, above)]
  end.
Proof. vm_compute. split; reflexivity. Qed.

(** With the base token as token1 the encoder receives the inverse ratio,
    the tick falls as the price rises, and the phases come in the other
    order. *)
Example coarse_curve_token1_base :
  match generatePnLCurve (sdk := coarseSdk) 1000000000000000000 (-3) (-1)
          3000000000000000000 2 1 0 1 (mkPriceRange 1 151) 150 with
  | inl _ => False
  | inr pts =>
      map (fun p => (price p, phase p)) (firstn 2 (skipn 3 pts))
      = [(4, above); (5, in_range)]
      /\ map (fun p => (price p, phase p)) (firstn 2 (skipn 63 pts))
         = [(64, in_range); (65, below)]
  end.
Proof. vm_compute. split; reflexivity. Qed.

(** A sampled price that is not positive stops the curve. *)
Example curve_from_zero_throws :
  generatePnLCurve (sdk := coarseSdk) 1000000000000000000 1 3 3000000000000000000
    1 2 0 1 (mkPriceRange 0 150) 150
  = inl (Error "price must be a positive bigint").
Proof. reflexivity. Qed.

(** * Further properties of the code *)

(** ** Rounding of the amounts *)

Lemma ceilDiv_floor_gap (a b : Z) :
  0 < b -> a / b <= ceilDiv a b <= a / b + 1.
Proof.
  intros Hb. pose proof (ceilDiv_least a b Hb) as C.
  pose proof (Z.div_mod a b ltac:(lia)) as E.
  pose proof (Z.mod_pos_bound a b Hb) as M.
  nia.
Qed.

Lemma div_le_cross (n n' m m' : Z) :
  0 < m -> 0 < m' -> n' * m <= n * m' -> n' / m' <= n / m.
Proof.
  intros Hm Hm' H. apply Z.div_le_lower_bound; [assumption|].
  pose proof (Z.mul_div_le n' m' Hm') as E.
  assert (m' * (m * (n' / m')) <= m' * n) by nia.
  nia.
Qed.

Lemma terminalDiv_le_cross (roundUp : bool) (n n' m m' : Z) :
  0 < m -> 0 < m' -> n' * m <= n * m' ->
  terminalDiv roundUp n' m' <= terminalDiv roundUp n m.
Proof.
  intros Hm Hm' H. destruct roundUp; unfold terminalDiv, ceilDiv, floorDiv.
  - apply Z.opp_le_mono. rewrite !Z.opp_involutive.
    apply div_le_cross; try assumption. lia.
  - now apply div_le_cross.
Qed.

Lemma terminalDiv_nonneg (roundUp : bool) (n m : Z) :
  0 <= n -> 0 < m -> 0 <= terminalDiv roundUp n m.
Proof.
  intros Hn Hm. 
  pose proof (terminalDiv_le_cross roundUp n 0 m m Hm Hm ltac:(nia)) as H.
  now rewrite terminalDiv_zero in H.
Qed.

Lemma terminalDiv_round_up_gap (n m : Z) :
  0 < m -> terminalDiv false n m <= terminalDiv true n m <= terminalDiv false n m + 1.
Proof. intros. cbn. now apply ceilDiv_floor_gap. Qed.

Lemma amount0Over_gap L low high : 0 < low < high ->
  amount0Over false L low high <= amount0Over true L low high <= amount0Over false L low high + 1.
Proof. intros. unfold amount0Over. apply terminalDiv_round_up_gap. nia. Qed.

Lemma amount1Over_gap L low high : 
  amount1Over false L low high <= amount1Over true L low high <= amount1Over false L low high + 1.
Proof. intros. unfold amount1Over. apply terminalDiv_round_up_gap. reflexivity. Qed.

(** X1.  For [L >= 0] and bounds [0 < lower < upper], the amounts that
    [getTokenAmountsFromLiquidity_X96] returns with [roundUp = true] are, for
    each token, the amounts it returns with [roundUp = false] or one unit
    more. *)
Theorem amounts_round_up_within_one (L current lower upper : Z) :
  0 <= L -> 0 < lower < upper ->
  exists down up : TokenAmounts,
    getTokenAmountsFromLiquidity_X96 L current lower upper false = ret down /\
    getTokenAmountsFromLiquidity_X96 L current lower upper true = ret up /\
    token0Amount down <= token0Amount up <= token0Amount down + 1 /\
    token1Amount down <= token1Amount up <= token1Amount down + 1.
Proof.
  intros HL Hb.
  exists (amountsFromLiquidity false L current lower upper),
         (amountsFromLiquidity true L current lower upper).
  split; [now apply getTokenAmountsFromLiquidity_X96_formulas|].
  split; [now apply getTokenAmountsFromLiquidity_X96_formulas|].
  unfold amountsFromLiquidity.
  destruct (Z.leb_spec current lower); cbn [token0Amount token1Amount].
  - split; [apply amount0Over_gap|]; lia.
  - destruct (Z.leb_spec upper current); cbn [token0Amount token1Amount].
    + split; [lia|apply amount1Over_gap].
    + split; [apply amount0Over_gap; lia|apply amount1Over_gap].
Qed.

Lemma amounts_round_up_within_one_witness :
  exists down up : TokenAmounts,
    getTokenAmountsFromLiquidity_X96 L_fixture SQRT_IN SQRT_LOWER SQRT_UPPER false
    = ret down /\
    getTokenAmountsFromLiquidity_X96 L_fixture SQRT_IN SQRT_LOWER SQRT_UPPER true
    = ret up /\
    token0Amount down <= token0Amount up <= token0Amount down + 1 /\
    token1Amount down <= token1Amount up <= token1Amount down + 1.
Proof.
  apply (amounts_round_up_within_one L_fixture SQRT_IN SQRT_LOWER SQRT_UPPER);
    vm_compute; intuition discriminate.
Defined.

(** ** The amounts along the price and the liquidity *)

Lemma amount0Over_nonneg r L low high : 0 <= L -> 0 < low < high -> 0 <= amount0Over r L low high.
Proof. intros. unfold amount0Over. assert (0 < 2^96) by reflexivity. apply terminalDiv_nonneg; nia. Qed.

Lemma amount1Over_nonneg r L low high : 0 <= L -> low < high -> 0 <= amount1Over r L low high.
Proof. intros. unfold amount1Over. apply terminalDiv_nonneg; [nia|reflexivity]. Qed.

(** The amount of token0 over [[low, high]] falls when [low] rises and grows
    with the liquidity; the amount of token1 grows with [high] and with the
    liquidity. *)
Lemma amount0Over_mono r L L' low low' high :
  0 <= L <= L' -> 0 < low' <= low -> low < high ->
  amount0Over r L low high <= amount0Over r L' low' high.
Proof.
  intros HL Hlow Hhigh. unfold amount0Over.
  assert (HQ : 0 < 2 ^ 96) by reflexivity. set (Q := 2 ^ 96) in *. clearbody Q.
  apply terminalDiv_le_cross; try nia.
  assert (E1 : 0 <= L * (high - low) <= L' * (high - low')) by nia.
  assert (E : L * (high - low) * low' <= L' * (high - low') * low).
  { apply Z.mul_le_mono_nonneg; lia. }
  assert (0 < Q * high) by nia.
  replace (L * (high - low) * Q * (high * low')) with ((Q * high) * (L * (high - low) * low')) by ring.
  replace (L' * (high - low') * Q * (high * low)) with ((Q * high) * (L' * (high - low') * low)) by ring.
  nia.
Qed.

Lemma amount1Over_mono r L L' low high high' :
  0 <= L <= L' -> low < high <= high' ->
  amount1Over r L low high <= amount1Over r L' low high'.
Proof.
  intros HL Hh. unfold amount1Over.
  assert (HQ : 0 < 2 ^ 96) by reflexivity. set (Q := 2 ^ 96) in *. clearbody Q.
  assert (E : L * (high - low) <= L' * (high' - low))
    by (apply Z.mul_le_mono_nonneg; lia).
  apply terminalDiv_le_cross; nia.
Qed.

Lemma amountsFromLiquidity_mono r L L' c c' lo up :
  0 <= L <= L' -> 0 < lo < up -> c' <= c ->
  token0Amount (amountsFromLiquidity r L c lo up) <= token0Amount (amountsFromLiquidity r L' c' lo up).
Proof.
  intros HL Hb Hc. unfold amountsFromLiquidity.
  destruct (Z.leb_spec c lo), (Z.leb_spec c' lo); try lia; cbn [token0Amount].
  - apply amount0Over_mono; lia.
  - destruct (Z.leb_spec up c); cbn [token0Amount].
    + apply amount0Over_nonneg; lia.
    + apply amount0Over_mono; lia.
  - destruct (Z.leb_spec up c), (Z.leb_spec up c'); try lia; cbn [token0Amount]; try lia.
    + apply amount0Over_nonneg; lia.
    + apply amount0Over_mono; lia.
Qed.

Lemma amountsFromLiquidity_mono1 r L L' c c' lo up :
  0 <= L <= L' -> 0 < lo < up -> c <= c' ->
  token1Amount (amountsFromLiquidity r L c lo up) <= token1Amount (amountsFromLiquidity r L' c' lo up).
Proof.
  intros HL Hb Hc. unfold amountsFromLiquidity.
  destruct (Z.leb_spec c lo), (Z.leb_spec c' lo); try lia; cbn [token1Amount]; try lia.
  - destruct (Z.leb_spec up c'); cbn [token1Amount]; apply amount1Over_nonneg; lia.
  - destruct (Z.leb_spec up c), (Z.leb_spec up c'); try lia; cbn [token1Amount].
    + apply amount1Over_mono; lia.
    + apply amount1Over_mono; lia.
    + apply amount1Over_mono; lia.
Qed.

(** X2.  For [L >= 0] and bounds [0 < lower < upper], with either rounding:
    when the current sqrt price rises, the amount of token0 that
    [getTokenAmountsFromLiquidity_X96] returns does not grow and the amount
    of token1 does not shrink; neither amount is negative. *)
Theorem amounts_follow_the_price
    (L current current' lower upper : Z) (roundUp : bool) :
  0 <= L -> 0 < lower < upper -> current <= current' ->
  exists a a' : TokenAmounts,
    getTokenAmountsFromLiquidity_X96 L current lower upper roundUp = ret a /\
    getTokenAmountsFromLiquidity_X96 L current' lower upper roundUp = ret a' /\
    0 <= token0Amount a' <= token0Amount a /\
    0 <= token1Amount a <= token1Amount a'.
Proof.
  intros HL Hb Hc.
  exists (amountsFromLiquidity roundUp L current lower upper),
         (amountsFromLiquidity roundUp L current' lower upper).
  split; [now apply getTokenAmountsFromLiquidity_X96_formulas|].
  split; [now apply getTokenAmountsFromLiquidity_X96_formulas|].
  split; split.
  - pose proof (amountsFromLiquidity_mono roundUp 0 L current' current' lower upper
                  ltac:(lia) Hb ltac:(lia)) as H.
    unfold amountsFromLiquidity at 1 in H. unfold amount0Over in H.
    rewrite !Z.mul_0_l, !terminalDiv_zero in H.
    now destruct (current' <=? lower), (upper <=? current').
  - apply amountsFromLiquidity_mono; lia.
  - pose proof (amountsFromLiquidity_mono1 roundUp 0 L current current lower upper
                  ltac:(lia) Hb ltac:(lia)) as H.
    unfold amountsFromLiquidity at 1 in H. unfold amount1Over in H.
    rewrite !Z.mul_0_l, !terminalDiv_zero in H.
    now destruct (current <=? lower), (upper <=? current).
  - apply amountsFromLiquidity_mono1; lia.
Qed.

Lemma amounts_follow_the_price_witness :
  exists a a' : TokenAmounts,
    getTokenAmountsFromLiquidity_X96 L_fixture SQRT_LOWER SQRT_LOWER SQRT_UPPER false
    = ret a /\
    getTokenAmountsFromLiquidity_X96 L_fixture SQRT_IN SQRT_LOWER SQRT_UPPER false
    = ret a' /\
    0 <= token0Amount a' <= token0Amount a /\
    0 <= token1Amount a <= token1Amount a'.
Proof.
  apply (amounts_follow_the_price L_fixture SQRT_LOWER SQRT_IN SQRT_LOWER SQRT_UPPER false);
    vm_compute; intuition discriminate.
Defined.

(** X3.  For bounds [0 < lower < upper] and either rounding, the amounts
    that [getTokenAmountsFromLiquidity_X96] returns do not shrink when the
    liquidity grows: [0 <= L <= L'] gives amounts for [L] that are at most
    those for [L'], token by token. *)
Theorem amounts_grow_with_liquidity
    (L L' current lower upper : Z) (roundUp : bool) :
  0 <= L <= L' -> 0 < lower < upper ->
  exists a a' : TokenAmounts,
    getTokenAmountsFromLiquidity_X96 L current lower upper roundUp = ret a /\
    getTokenAmountsFromLiquidity_X96 L' current lower upper roundUp = ret a' /\
    token0Amount a <= token0Amount a' /\
    token1Amount a <= token1Amount a'.
Proof.
  intros HL Hb.
  exists (amountsFromLiquidity roundUp L current lower upper),
         (amountsFromLiquidity roundUp L' current lower upper).
  split; [apply getTokenAmountsFromLiquidity_X96_formulas; lia|].
  split; [apply getTokenAmountsFromLiquidity_X96_formulas; lia|].
  split.
  - apply amountsFromLiquidity_mono; lia.
  - apply amountsFromLiquidity_mono1; lia.
Qed.

Lemma amounts_grow_with_liquidity_witness :
  exists a a' : TokenAmounts,
    getTokenAmountsFromLiquidity_X96 1000 SQRT_IN SQRT_LOWER SQRT_UPPER true = ret a /\
    getTokenAmountsFromLiquidity_X96 L_fixture SQRT_IN SQRT_LOWER SQRT_UPPER true
    = ret a' /\
    token0Amount a <= token0Amount a' /\
    token1Amount a <= token1Amount a'.
Proof.
  apply (amounts_grow_with_liquidity 1000 L_fixture SQRT_IN SQRT_LOWER SQRT_UPPER true);
    vm_compute; intuition discriminate.
Defined.

(** ** Rounding of the liquidity and the round trips *)

Lemma ceilDiv_unique (a b q : Z) :
  0 < b -> b * (q - 1) < a <= b * q -> ceilDiv a b = q.
Proof.
  intros Hb Hq. pose proof (ceilDiv_least a b Hb). nia.
Qed.

Lemma BigInt_div_ceiling (a b : Z) :
  0 < a -> 0 < b -> BigInt.div (a + b - 1) b = ret (ceilDiv a b).
Proof.
  intros Ha Hb. rewrite BigInt_div_floor by lia. f_equal. symmetry.
  apply ceilDiv_unique; [assumption|].
  pose proof (Z.div_mod (a + b - 1) b ltac:(lia)) as E.
  pose proof (Z.mod_pos_bound (a + b - 1) b Hb) as M.
  nia.
Qed.

Lemma getLiquidityFromAmount0_ceiling (low high amount0 : Z) :
  0 < low < high -> 0 < amount0 ->
  getLiquidityFromAmount0 low high amount0 true
  = ret (ceilDiv (amount0 * (low * high)) (2 ^ 96 * (high - low))).
Proof.
  intros [Hlow Hhigh] Ha. unfold getLiquidityFromAmount0.
  destruct (Z.leb_spec high low) as [?|_]; [lia|]. cbn [orb].
  destruct (Z.leb_spec amount0 0) as [|_]; [lia|].
  cbv zeta. rewrite <- Q96_eq. pose proof Q96_pos.
  assert (0 < low * high) by nia.
  apply BigInt_div_ceiling; nia.
Qed.

Lemma getLiquidityFromAmount1_ceiling (low high amount1 : Z) :
  low < high -> 0 < amount1 ->
  getLiquidityFromAmount1 low high amount1 true
  = ret (ceilDiv (amount1 * 2 ^ 96) (high - low)).
Proof.
  intros Hhigh Ha. unfold getLiquidityFromAmount1.
  destruct (Z.leb_spec high low) as [?|_]; [lia|]. cbn [orb].
  destruct (Z.leb_spec amount1 0) as [|_]; [lia|].
  cbv zeta. rewrite <- Q96_eq. pose proof Q96_pos.
  apply BigInt_div_ceiling; nia.
Qed.

Lemma liquidityFromAmount0_roundtrip_up (L low high : Z) :
  0 <= L -> 0 < low < high ->
  L <= liquidityFromAmount0 (amount0Over true L low high) low high.
Proof.
  intros HL [Hlow Hhigh].
  unfold liquidityFromAmount0, amount0Over, terminalDiv, floorDiv.
  set (d := high - low). set (n := L * d * 2 ^ 96). set (m := high * low).
  assert (Hd : 0 < d) by (unfold d; lia).
  assert (Hm : 0 < m) by (unfold m; nia).
  assert (Hq : 0 < 2 ^ 96) by reflexivity.
  pose proof (ceilDiv_least n m Hm) as [_ Hc]. fold m.
  destruct (Z.leb_spec (ceilDiv n m) 0) as [Ha|Ha].
  - assert (n <= 0) by nia. unfold n in *. nia.
  - apply Z.div_le_lower_bound; [nia|].
    replace (low * high) with m by (unfold m; lia). unfold n in *. nia.
Qed.

Lemma liquidityFromAmount1_roundtrip_up (L low high : Z) :
  0 <= L -> low < high ->
  L <= liquidityFromAmount1 (amount1Over true L low high) low high.
Proof.
  intros HL Hhigh.
  unfold liquidityFromAmount1, amount1Over, terminalDiv, floorDiv.
  set (d := high - low). set (n := L * d).
  assert (Hd : 0 < d) by (unfold d; lia).
  assert (Hq : 0 < 2 ^ 96) by reflexivity.
  pose proof (ceilDiv_least n (2 ^ 96) Hq) as [_ Hc].
  destruct (Z.leb_spec (ceilDiv n (2 ^ 96)) 0) as [Ha|Ha].
  - assert (n <= 0) by nia. unfold n in *. nia.
  - apply Z.div_le_lower_bound; [nia|]. unfold n in *. nia.
Qed.

Lemma liquidityFromAmount0_loss (L low high : Z) :
  0 <= L -> 0 < low < high ->
  L - liquidityFromAmount0 (amount0Over false L low high) low high
  <= (high * low) / (2 ^ 96 * (high - low)) + 1.
Proof.
  intros HL [Hlow Hhigh].
  unfold liquidityFromAmount0, amount0Over, terminalDiv, floorDiv.
  set (d := high - low). set (Q := 2 ^ 96). set (n := L * d * Q). set (m := high * low).
  assert (Hd : 0 < d) by (unfold d; lia).
  assert (Hm : 0 < m) by (unfold m; nia).
  assert (HQ : 0 < Q) by reflexivity.
  assert (HQd : 0 < Q * d) by nia.
  replace (low * high) with m by (unfold m; lia).
  pose proof (Z.div_mod n m ltac:(lia)) as E1.
  pose proof (Z.mod_pos_bound n m Hm) as M1.
  pose proof (Z.div_mod m (Q * d) ltac:(lia)) as E3.
  pose proof (Z.mod_pos_bound m (Q * d) HQd) as M3.
  destruct (Z.leb_spec (n / m) 0) as [Ha|Ha].
  - assert (n < m) by nia. 
    assert (L * (Q * d) < m) by (unfold n in *; nia).
    assert (L <= m / (Q * d)) by (apply Z.div_le_lower_bound; nia). lia.
  - set (a := n / m) in *.
    pose proof (Z.div_mod (a * m) (Q * d) ltac:(lia)) as E2.
    pose proof (Z.mod_pos_bound (a * m) (Q * d) HQd) as M2.
    set (x := a * m / (Q * d)) in *. set (y := m / (Q * d)) in *.
    assert (Q * d * (L - x - y - 1) < Q * d * 1); [|nia].
    unfold n in *. nia.
Qed.

Lemma liquidityFromAmount1_loss (L low high : Z) :
  0 <= L -> low < high ->
  L - liquidityFromAmount1 (amount1Over false L low high) low high
  <= 2 ^ 96 / (high - low) + 1.
Proof.
  intros HL Hhigh.
  unfold liquidityFromAmount1, amount1Over, terminalDiv, floorDiv.
  set (d := high - low). set (Q := 2 ^ 96). set (n := L * d).
  assert (Hd : 0 < d) by (unfold d; lia).
  assert (HQ : 0 < Q) by reflexivity.
  pose proof (Z.div_mod n Q ltac:(lia)) as E1.
  pose proof (Z.mod_pos_bound n Q HQ) as M1.
  pose proof (Z.div_mod Q d ltac:(lia)) as E3.
  pose proof (Z.mod_pos_bound Q d Hd) as M3.
  destruct (Z.leb_spec (n / Q) 0) as [Ha|Ha].
  - assert (n < Q) by nia.
    assert (L <= Q / d) by (apply Z.div_le_lower_bound; unfold n in *; nia). lia.
  - set (a := n / Q) in *.
    pose proof (Z.div_mod (a * Q) d ltac:(lia)) as E2.
    pose proof (Z.mod_pos_bound (a * Q) d Hd) as M2.
    set (x := a * Q / d) in *. set (y := Q / d) in *.
    assert (d * (L - x - y - 1) < d * 1); [|nia].
    unfold n in *. nia.
Qed.

(** X4.  With [roundUp = true], [getLiquidityFromAmount0] and
    [getLiquidityFromAmount1] return the ceiling of the quotient of which
    they return the floor with [roundUp = false]: for a positive amount and
    bounds [0 < low < high] the two results differ by at most one, the
    rounded-up one being the larger. *)
Theorem liquidity_round_up_is_ceiling (low high amount : Z) :
  0 < low < high -> 0 < amount ->
  getLiquidityFromAmount0 low high amount true
  = ret (ceilDiv (amount * (low * high)) (2 ^ 96 * (high - low)))
  /\
  getLiquidityFromAmount1 low high amount true
  = ret (ceilDiv (amount * 2 ^ 96) (high - low))
  /\
  (exists down up : Z,
      getLiquidityFromAmount0 low high amount false = ret down /\
      getLiquidityFromAmount0 low high amount true = ret up /\
      down <= up <= down + 1)
  /\
  (exists down up : Z,
      getLiquidityFromAmount1 low high amount false = ret down /\
      getLiquidityFromAmount1 low high amount true = ret up /\
      down <= up <= down + 1).
Proof.
  intros Hb Ha. assert (HQ : 0 < 2 ^ 96) by reflexivity.
  split; [now apply getLiquidityFromAmount0_ceiling|].
  split; [apply getLiquidityFromAmount1_ceiling; lia|].
  split.
  - eexists. eexists.
    split; [now apply getLiquidityFromAmount0_floor|].
    split; [now apply getLiquidityFromAmount0_ceiling|].
    unfold liquidityFromAmount0, floorDiv.
    destruct (Z.leb_spec amount 0); [lia|].
    apply ceilDiv_floor_gap. nia.
  - eexists. eexists.
    split; [apply getLiquidityFromAmount1_floor; lia|].
    split; [apply getLiquidityFromAmount1_ceiling; lia|].
    unfold liquidityFromAmount1, floorDiv.
    destruct (Z.leb_spec amount 0); [lia|].
    apply ceilDiv_floor_gap. lia.
Qed.

Lemma liquidity_round_up_is_ceiling_witness :
  getLiquidityFromAmount0 SQRT_LOWER SQRT_UPPER 139860139860139861 true
  = ret 1000000000000000007.
Proof.
  refine (eq_trans
            (proj1 (liquidity_round_up_is_ceiling
                      SQRT_LOWER SQRT_UPPER 139860139860139861 _ _)) _).
  - vm_compute. intuition discriminate.
  - reflexivity.
  - reflexivity.
Defined.

(** X5.  For [L >= 0] and bounds [0 < lower < upper], the amounts that
    [getTokenAmountsFromLiquidity_X96] returns with [roundUp = true], given
    to [getLiquidityFromTokenAmounts_X96] at the same sqrt prices, give a
    liquidity of at least [L]: amounts rounded up always pay for the
    liquidity they were computed from. *)
Theorem liquidity_roundtrip_round_up_never_loses (L current lower upper : Z) :
  0 <= L -> 0 < lower < upper ->
  exists (amounts : TokenAmounts) (liquidity : Z),
    getTokenAmountsFromLiquidity_X96 L current lower upper true = ret amounts /\
    getLiquidityFromTokenAmounts_X96 current lower upper
      (token0Amount amounts) (token1Amount amounts) = ret liquidity /\
    L <= liquidity.
Proof.
  intros HL Hb.
  eexists. eexists. split; [|split].
  - apply (proj1 (getTokenAmountsFromLiquidity_X96_formulas L current lower upper true));
      assumption.
  - now apply getLiquidityFromTokenAmounts_X96_closed_form.
  - unfold liquidityFromAmounts, amountsFromLiquidity.
    destruct (Z.leb_spec current lower); cbn [token0Amount token1Amount].
    + apply liquidityFromAmount0_roundtrip_up; lia.
    + destruct (Z.leb_spec upper current); cbn [token0Amount token1Amount].
      * apply liquidityFromAmount1_roundtrip_up; lia.
      * pose proof (liquidityFromAmount0_roundtrip_up L current upper HL ltac:(lia)).
        pose proof (liquidityFromAmount1_roundtrip_up L lower current HL ltac:(lia)).
        lia.
Qed.

Lemma liquidity_roundtrip_round_up_never_loses_witness :
  exists (amounts : TokenAmounts) (liquidity : Z),
    getTokenAmountsFromLiquidity_X96 L_fixture SQRT_IN SQRT_LOWER SQRT_UPPER true
    = ret amounts /\
    getLiquidityFromTokenAmounts_X96 SQRT_IN SQRT_LOWER SQRT_UPPER
      (token0Amount amounts) (token1Amount amounts) = ret liquidity /\
    L_fixture <= liquidity.
Proof.
  apply (liquidity_roundtrip_round_up_never_loses
           L_fixture SQRT_IN SQRT_LOWER SQRT_UPPER);
    vm_compute; intuition discriminate.
Defined.

(** X6.  The loss of the round trip through one token is bounded: for
    [L >= 0] and [0 < low < high], the liquidity that
    [getLiquidityFromAmount0] recovers from the amount
    [getAmount0FromLiquidity] returns (both rounding down) is at most [L]
    and at least [L - high low / (2^96 (high - low)) - 1]; through token1,
    with [getAmount1FromLiquidity] and [getLiquidityFromAmount1], it is at
    most [L] and at least [L - 2^96 / (high - low) - 1]. *)
Theorem single_token_roundtrip_loss (L low high : Z) :
  0 <= L -> 0 < low < high ->
  (exists amount0 liquidity : Z,
      getAmount0FromLiquidity low high L false = ret amount0 /\
      getLiquidityFromAmount0 low high amount0 false = ret liquidity /\
      L - (high * low) / (2 ^ 96 * (high - low)) - 1 <= liquidity <= L)
  /\
  (exists amount1 liquidity : Z,
      getAmount1FromLiquidity low high L false = ret amount1 /\
      getLiquidityFromAmount1 low high amount1 false = ret liquidity /\
      L - 2 ^ 96 / (high - low) - 1 <= liquidity <= L).
Proof.
  intros HL Hb. split.
  - eexists. eexists.
    split; [now apply getAmount0FromLiquidity_formula|].
    split; [now apply getLiquidityFromAmount0_floor|].
    pose proof (liquidityFromAmount0_loss L low high HL Hb).
    pose proof (liquidityFromAmount0_roundtrip L low high HL Hb). lia.
  - eexists. eexists.
    split; [apply getAmount1FromLiquidity_formula; lia|].
    split; [apply getLiquidityFromAmount1_floor; lia|].
    pose proof (liquidityFromAmount1_loss L low high HL ltac:(lia)).
    pose proof (liquidityFromAmount1_roundtrip L low high HL ltac:(lia)). lia.
Qed.

Lemma single_token_roundtrip_loss_witness :
  exists amount1 liquidity : Z,
    getAmount1FromLiquidity SQRT_LOWER SQRT_UPPER L_fixture false = ret amount1 /\
    getLiquidityFromAmount1 SQRT_LOWER SQRT_UPPER amount1 false = ret liquidity /\
    L_fixture - 2 ^ 96 / (SQRT_UPPER - SQRT_LOWER) - 1 <= liquidity <= L_fixture.
Proof.
  apply (proj2 (single_token_roundtrip_loss L_fixture SQRT_LOWER SQRT_UPPER
                  ltac:(vm_compute; discriminate)
                  ltac:(vm_compute; intuition discriminate))).
Defined.

(** ** Fees *)

Lemma Q128_pos : 0 < Q128.
Proof. reflexivity. Qed.

Lemma safeDiff_nonneg (a b : Z) : 0 <= safeDiff a b.
Proof. rewrite safeDiff_max. lia. Qed.

Lemma safeDiff_monotone (a a' b : Z) : a <= a' -> safeDiff a b <= safeDiff a' b.
Proof. intros. rewrite !safeDiff_max. lia. Qed.

Lemma calculateIncrementalFees_floor (current last liquidity : Z) :
  0 <= liquidity ->
  calculateIncrementalFees current last liquidity
  = ret (floorDiv (safeDiff current last * liquidity) (2 ^ 128)).
Proof.
  intros HL. unfold calculateIncrementalFees. cbv zeta.
  pose proof (safeDiff_nonneg current last).
  apply BigInt_div_floor; [nia|reflexivity].
Qed.

(** X7.  For a liquidity [>= 0], [calculateIncrementalFees] returns (it
    never throws) the floor of safeDiff (current, last) * liquidity / 2^128:
    the fees are never negative, never more than the growth pays for, zero
    when the growth inside has not risen above the checkpoint, and they do
    not shrink when the current growth rises. *)
Theorem incremental_fees_bounds (current current' last liquidity : Z) :
  0 <= liquidity -> current <= current' ->
  exists fees fees' : Z,
    calculateIncrementalFees current last liquidity = ret fees /\
    calculateIncrementalFees current' last liquidity = ret fees' /\
    0 <= fees <= fees' /\
    fees * 2 ^ 128 <= safeDiff current last * liquidity /\
    (current <= last -> fees = 0).
Proof.
  intros HL Hc. eexists. eexists.
  split; [now apply calculateIncrementalFees_floor|].
  split; [now apply calculateIncrementalFees_floor|].
  unfold floorDiv. assert (HQ : 0 < 2 ^ 128) by reflexivity.
  pose proof (safeDiff_nonneg current last).
  pose proof (safeDiff_monotone current current' last Hc).
  split; [split|split].
  - apply Z.div_pos; [nia|assumption].
  - apply Z.div_le_mono; [assumption|nia].
  - rewrite Z.mul_comm. apply Z.mul_div_le. assumption.
  - intros Hle. rewrite safeDiff_max. replace (Z.max (current - last) 0) with 0 by lia.
    reflexivity.
Qed.


Lemma incremental_fees_bounds_witness :
  exists fees fees' : Z,
    calculateIncrementalFees (5 * 2 ^ 128) (7 * 2 ^ 128) 1000 = ret fees /\
    calculateIncrementalFees (9 * 2 ^ 128 + 2 ^ 127) (7 * 2 ^ 128) 1000 = ret fees' /\
    0 <= fees <= fees' /\
    fees * 2 ^ 128 <= safeDiff (5 * 2 ^ 128) (7 * 2 ^ 128) * 1000 /\
    (5 * 2 ^ 128 <= 7 * 2 ^ 128 -> fees = 0).
Proof.
  apply (incremental_fees_bounds (5 * 2 ^ 128) (9 * 2 ^ 128 + 2 ^ 127) (7 * 2 ^ 128) 1000);
    vm_compute; discriminate.
Defined.

Example incremental_fees_example :
  calculateIncrementalFees (9 * 2 ^ 128 + 2 ^ 127) (7 * 2 ^ 128) 1000 = ret 2500.
Proof. reflexivity. Qed.

(** X8.  For accumulators that are not negative, the fee growth inside
    that [computeFeeGrowthInside] returns is, for each token, between 0 and
    the global fee growth of that token, wherever the current tick is. *)
Theorem fee_growth_inside_bounds
    (tickCurrent tickLower tickUpper : Z)
    (g0 g1 l0 l1 u0 u1 : Z) :
  0 <= g0 -> 0 <= g1 -> 0 <= l0 -> 0 <= l1 -> 0 <= u0 -> 0 <= u1 ->
  let r := computeFeeGrowthInside tickCurrent tickLower tickUpper g0 g1 l0 l1 u0 u1 in
  0 <= inside0 r <= g0 /\ 0 <= inside1 r <= g1.
Proof.
  cbv zeta. intros. unfold computeFeeGrowthInside. cbn [inside0 inside1].
  rewrite !safeDiff_max.
  destruct (tickCurrent >=? tickLower), (tickCurrent <? tickUpper); lia.
Qed.


Lemma fee_growth_inside_bounds_witness :
  0 <= inside0 (computeFeeGrowthInside 5 0 10 1000 2000 100 200 300 400) <= 1000
  /\ 0 <= inside1 (computeFeeGrowthInside 5 0 10 1000 2000 100 200 300 400) <= 2000.
Proof.
  apply (fee_growth_inside_bounds 5 0 10 1000 2000 100 200 300 400);
    vm_compute; discriminate.
Defined.

(** X9.  For a range with tickLower <= tickUpper and outside accumulators
    between 0 and the global one (no wrap-around), [computeFeeGrowthInside]
    returns, for each token: outsideLower - outsideUpper when the current
    tick is below the range, global - outsideLower - outsideUpper when it is
    inside, and outsideUpper - outsideLower when it is at or above the upper
    tick; each floored at zero. *)
Theorem fee_growth_inside_regimes
    (tickCurrent tickLower tickUpper : Z)
    (g0 g1 l0 l1 u0 u1 : Z) :
  tickLower <= tickUpper ->
  0 <= l0 <= g0 -> 0 <= u0 <= g0 -> 0 <= l1 <= g1 -> 0 <= u1 <= g1 ->
  let r := computeFeeGrowthInside tickCurrent tickLower tickUpper g0 g1 l0 l1 u0 u1 in
  (tickCurrent < tickLower ->
   inside0 r = Z.max (l0 - u0) 0 /\ inside1 r = Z.max (l1 - u1) 0)
  /\
  (tickLower <= tickCurrent < tickUpper ->
   inside0 r = Z.max (g0 - l0 - u0) 0 /\ inside1 r = Z.max (g1 - l1 - u1) 0)
  /\
  (tickUpper <= tickCurrent ->
   inside0 r = Z.max (u0 - l0) 0 /\ inside1 r = Z.max (u1 - l1) 0).
Proof.
  cbv zeta. intros. unfold computeFeeGrowthInside. cbn [inside0 inside1].
  rewrite !safeDiff_max. rewrite Z.geb_leb.
  destruct (Z.leb_spec tickLower tickCurrent), (Z.ltb_spec tickCurrent tickUpper);
    repeat split; intros; lia.
Qed.

Lemma fee_growth_inside_regimes_witness :
  inside0 (computeFeeGrowthInside 5 0 10 1000 2000 100 200 300 400)
  = Z.max (1000 - 100 - 300) 0
  /\ inside1 (computeFeeGrowthInside 5 0 10 1000 2000 100 200 300 400)
     = Z.max (2000 - 200 - 400) 0.
Proof.
  apply (fee_growth_inside_regimes 5 0 10 1000 2000 100 200 300 400);
    vm_compute; intuition discriminate.
Defined.

(** ** The investment budget outside the range and at the edges *)

Lemma budgetInQuote_nonneg (baseAmount quoteAmount : Z) (isQuoteToken0 : bool) (S : Z) :
  0 < S -> 0 <= baseAmount -> 0 <= quoteAmount ->
  0 <= budgetInQuote baseAmount quoteAmount isQuoteToken0 S.
Proof.
  intros HS Hb Hq. rewrite budgetInQuote_floor by assumption. unfold floorDiv.
  assert (0 < 2 ^ 192) by reflexivity.
  destruct isQuoteToken0.
  - assert (0 <= baseAmount * 2 ^ 192 / (S * S)) by (apply Z.div_pos; nia). lia.
  - assert (0 <= baseAmount * S * S / 2 ^ 192) by (apply Z.div_pos; nia). lia.
Qed.

Lemma budgetInQuote_nonpositive (baseAmount quoteAmount : Z) (isQuoteToken0 : bool) (S : Z) :
  0 < S -> baseAmount <= 0 -> quoteAmount <= 0 ->
  budgetInQuote baseAmount quoteAmount isQuoteToken0 S <= 0.
Proof.
  intros HS Hb Hq.
  destruct (Z_le_gt_dec (budgetInQuote baseAmount quoteAmount isQuoteToken0 S) 0) as [|Hpos];
    [assumption|].
  pose proof (budgetInQuote_positive baseAmount quoteAmount isQuoteToken0 S HS ltac:(lia)) as H.
  destruct (Z.leb_spec baseAmount 0), (Z.leb_spec quoteAmount 0); try lia; discriminate.
Qed.

Lemma getLiquidityFromAmount0_returns (low high amount : Z) :
  exists liquidity : Z,
    getLiquidityFromAmount0 low high amount false = ret liquidity /\
    (0 <= low * high -> 0 <= liquidity) /\
    (amount <= 0 -> liquidity = 0).
Proof.
  unfold getLiquidityFromAmount0.
  destruct (Z.leb_spec high low) as [|Hh]; cbn [orb].
  - exists 0. repeat split; lia.
  - destruct (Z.leb_spec amount 0) as [|Ha].
    + exists 0. repeat split; lia.
    + cbv zeta. pose proof Q96_pos. rewrite BigInt_div_quot by nia.
      eexists. split; [reflexivity|]. split; [|lia].
      intros Hm. apply Z.quot_pos; nia.
Qed.

Lemma getLiquidityFromAmount1_returns (low high amount : Z) :
  exists liquidity : Z,
    getLiquidityFromAmount1 low high amount false = ret liquidity /\
    0 <= liquidity /\
    (amount <= 0 -> liquidity = 0).
Proof.
  unfold getLiquidityFromAmount1.
  destruct (Z.leb_spec high low) as [|Hh]; cbn [orb].
  - exists 0. repeat split; lia.
  - destruct (Z.leb_spec amount 0) as [|Ha].
    + exists 0. repeat split; lia.
    + cbv zeta. pose proof Q96_pos. rewrite BigInt_div_quot by nia.
      eexists. split; [reflexivity|]. split; [|lia].
      apply Z.quot_pos; nia.
Qed.

(** X10.  For a positive current sqrt price,
    [getLiquidityFromInvestmentAmounts] returns a liquidity for every
    amounts, bounds and quote side (it never throws); the liquidity is zero
    when neither amount is positive and is not negative when neither amount
    is negative. *)
Theorem investment_liquidity_returns
    (baseAmount : Z) (baseDecimals : nat) (quoteAmount : Z) (quoteDecimals : nat)
    (isQuoteToken0 : bool) (sqrtPriceLowerX96 sqrtPriceUpperX96 S : Z) :
  0 < S ->
  exists liquidity : Z,
    getLiquidityFromInvestmentAmounts baseAmount baseDecimals quoteAmount quoteDecimals
      isQuoteToken0 sqrtPriceLowerX96 sqrtPriceUpperX96 S = ret liquidity /\
    (baseAmount <= 0 -> quoteAmount <= 0 -> liquidity = 0) /\
    (0 <= baseAmount -> 0 <= quoteAmount -> 0 <= liquidity).
Proof.
  intros HS. unfold getLiquidityFromInvestmentAmounts.
  destruct ((baseAmount <=? 0) && (quoteAmount <=? 0)) eqn:G.
  { exists 0. repeat split; lia. }
  assert (Hsome : ~ (baseAmount <= 0 /\ quoteAmount <= 0)).
  { intros [H1 H2]. apply Z.leb_le in H1, H2. rewrite H1, H2 in G. discriminate. }
  rewrite ordered_upper, ordered_lower.
  set (A := Z.max sqrtPriceLowerX96 sqrtPriceUpperX96).
  set (B := Z.min sqrtPriceLowerX96 sqrtPriceUpperX96).
  assert (HBA : B <= A) by (unfold A, B; lia).
  cbv zeta. rewrite totalBudgetInQuote_budget by lia.
  pose proof Q192_pos as H192. pose proof Q96_pos as H96.
  assert (HSS : 0 < S * S) by nia.
  assert (Hbudget : 0 <= baseAmount -> 0 <= quoteAmount ->
                    0 <= budgetInQuote baseAmount quoteAmount isQuoteToken0 S)
    by (intros; now apply budgetInQuote_nonneg).
  set (budget := budgetInQuote baseAmount quoteAmount isQuoteToken0 S) in *.
  cbn [bind ret].
  destruct (Z.leb_spec S B) as [HSB|HSB].
  - assert (HAB : 0 <= B * A) by nia.
    assert (Hamount : exists amount0,
               (if isQuoteToken0 then ret budget else quoteToToken0 budget S)
               = ret amount0).
    { destruct isQuoteToken0; [eauto|].
      unfold quoteToToken0. rewrite BigInt_div_quot by lia. eauto. }
    destruct Hamount as [amount0 ->]. cbn [bind ret].
    destruct (getLiquidityFromAmount0_returns B A amount0) as (l & -> & Hl & _).
    exists l. split; [reflexivity|]. split; intros; [lia|auto].
  - rewrite Z.geb_leb. destruct (Z.leb_spec A S) as [HAS|HAS].
    + assert (Hamount : exists amount1,
                 (if isQuoteToken0 then token0ToQuoteToken1 budget S else ret budget)
                 = ret amount1).
      { destruct isQuoteToken0; [|eauto].
        unfold token0ToQuoteToken1. rewrite BigInt_div_quot by lia. eauto. }
      destruct Hamount as [amount1 ->]. cbn [bind ret].
      destruct (getLiquidityFromAmount1_returns B A amount1) as (l & -> & Hl & _).
      exists l. split; [reflexivity|]. split; intros; [lia|auto].
    + assert (HK : exists K, (if isQuoteToken0 then K_Q96_inToken0 B A S
                              else K_Q96_inToken1 B A S) = ret K).
      { destruct isQuoteToken0.
        - rewrite K_Q96_inToken0_formula by lia. eauto.
        - rewrite K_Q96_inToken1_formula by lia. eauto. }
      destruct HK as [K ->]. cbn [bind ret].
      destruct (Z.leb_spec K 0) as [HK0|HK0].
      * exists 0. repeat split; lia.
      * rewrite BigInt_div_quot by lia. eexists. split; [reflexivity|].
        split; intros; [lia|].
        apply Z.quot_pos; [|lia]. specialize (Hbudget ltac:(lia) ltac:(lia)). nia.
Qed.

Lemma investment_liquidity_returns_witness :
  exists liquidity : Z,
    getLiquidityFromInvestmentAmounts 500000000000000000 18 200000000000000000 6
      true SQRT_LOWER SQRT_UPPER SQRT_ABOVE = ret liquidity /\
    (500000000000000000 <= 0 -> 200000000000000000 <= 0 -> liquidity = 0) /\
    (0 <= 500000000000000000 -> 0 <= 200000000000000000 -> 0 <= liquidity).
Proof.
  apply (investment_liquidity_returns 500000000000000000 18 200000000000000000 6
           true SQRT_LOWER SQRT_UPPER SQRT_ABOVE).
  reflexivity.
Defined.

(** X11.  Outside the range the budget is spent on one token.  For a
    positive current sqrt price [S] and bounds lower < upper: when
    [S <= lower] and the quote token is token0,
    [getLiquidityFromInvestmentAmounts] returns what
    [getLiquidityFromTokenAmounts_X96] returns for the whole budget as
    token0; when [S >= upper] and the quote token is token1, what it returns
    for the whole budget as token1. *)
Theorem investment_out_of_range_is_single_token
    (baseAmount : Z) (baseDecimals : nat) (quoteAmount : Z) (quoteDecimals : nat)
    (lower upper S other : Z) :
  0 < S -> lower < upper ->
  (S <= lower ->
   getLiquidityFromInvestmentAmounts baseAmount baseDecimals quoteAmount quoteDecimals
     true lower upper S
   = getLiquidityFromTokenAmounts_X96 S lower upper
       (budgetInQuote baseAmount quoteAmount true S) other)
  /\
  (upper <= S ->
   getLiquidityFromInvestmentAmounts baseAmount baseDecimals quoteAmount quoteDecimals
     false lower upper S
   = getLiquidityFromTokenAmounts_X96 S lower upper
       other (budgetInQuote baseAmount quoteAmount false S)).
Proof.
  intros HS Hb. split; intros Hr.
  - unfold getLiquidityFromInvestmentAmounts, getLiquidityFromTokenAmounts_X96.
    rewrite ordered_upper, ordered_lower.
    replace (Z.max lower upper) with upper by lia.
    replace (Z.min lower upper) with lower by lia. cbv zeta.
    destruct (Z.leb_spec S lower); [|lia].
    destruct ((baseAmount <=? 0) && (quoteAmount <=? 0)) eqn:G.
    + apply andb_true_iff in G as [G1 G2]. apply Z.leb_le in G1, G2.
      pose proof (budgetInQuote_nonpositive baseAmount quoteAmount true S HS G1 G2) as Hn.
      destruct (getLiquidityFromAmount0_returns lower upper
                  (budgetInQuote baseAmount quoteAmount true S)) as (l & -> & _ & Hz).
      now rewrite Hz.
    + rewrite totalBudgetInQuote_budget by lia. reflexivity.
  - unfold getLiquidityFromInvestmentAmounts, getLiquidityFromTokenAmounts_X96.
    rewrite ordered_upper, ordered_lower.
    replace (Z.max lower upper) with upper by lia.
    replace (Z.min lower upper) with lower by lia. cbv zeta.
    destruct (Z.leb_spec S lower); [lia|].
    rewrite Z.geb_leb. destruct (Z.leb_spec upper S); [|lia].
    destruct ((baseAmount <=? 0) && (quoteAmount <=? 0)) eqn:G.
    + apply andb_true_iff in G as [G1 G2]. apply Z.leb_le in G1, G2.
      pose proof (budgetInQuote_nonpositive baseAmount quoteAmount false S HS G1 G2) as Hn.
      destruct (getLiquidityFromAmount1_returns lower upper
                  (budgetInQuote baseAmount quoteAmount false S)) as (l & -> & _ & Hz).
      now rewrite Hz.
    + rewrite totalBudgetInQuote_budget by lia. reflexivity.
Qed.

Lemma investment_out_of_range_is_single_token_witness :
  getLiquidityFromInvestmentAmounts 500000000000000000 18 200000000000000000 6
    false SQRT_LOWER SQRT_UPPER SQRT_ABOVE
  = getLiquidityFromTokenAmounts_X96 SQRT_ABOVE SQRT_LOWER SQRT_UPPER 0
      (budgetInQuote 500000000000000000 200000000000000000 false SQRT_ABOVE).
Proof.
  apply (proj2 (investment_out_of_range_is_single_token
                  500000000000000000 18 200000000000000000 6
                  SQRT_LOWER SQRT_UPPER SQRT_ABOVE 0 eq_refl eq_refl)).
  vm_compute. discriminate.
Defined.

(** X12.  At a current sqrt price of zero, with the quote token as token0
    and some positive amount, [getLiquidityFromInvestmentAmounts] throws the
    RangeError of a division by zero, whatever the bounds: the base amount
    is converted at the price before the regime is looked at. *)
Theorem investment_zero_price_throws
    (baseAmount : Z) (baseDecimals : nat) (quoteAmount : Z) (quoteDecimals : nat)
    (sqrtPriceLowerX96 sqrtPriceUpperX96 : Z) :
  0 < baseAmount \/ 0 < quoteAmount ->
  getLiquidityFromInvestmentAmounts baseAmount baseDecimals quoteAmount quoteDecimals
    true sqrtPriceLowerX96 sqrtPriceUpperX96 0
  = inl (RangeError "Division by zero").
Proof.
  intros Hsome. unfold getLiquidityFromInvestmentAmounts.
  assert (G : (baseAmount <=? 0) && (quoteAmount <=? 0) = false).
  { destruct (Z.leb_spec baseAmount 0), (Z.leb_spec quoteAmount 0); try reflexivity; lia. }
  rewrite G. cbv zeta.
  assert (T : totalBudgetInQuote baseAmount quoteAmount true 0
              = inl (RangeError "Division by zero")) by reflexivity.
  rewrite T. cbn [bind].
  destruct (0 <=? _); [reflexivity|]. destruct (0 >=? _); reflexivity.
Qed.


Lemma investment_zero_price_throws_witness :
  getLiquidityFromInvestmentAmounts 500000000000000000 18 0 6
    true SQRT_LOWER SQRT_UPPER 0
  = inl (RangeError "Division by zero").
Proof.
  apply (investment_zero_price_throws 500000000000000000 18 0 6 SQRT_LOWER SQRT_UPPER).
  left. reflexivity.
Defined.

(** ** Conversions between the two tokens *)

Lemma valueOfToken0AmountInToken1_floor (amount s : Z) :
  0 <= amount ->
  valueOfToken0AmountInToken1 amount s = ret (floorDiv (amount * (s * s)) (2 ^ 192)).
Proof.
  intros Ha. unfold valueOfToken0AmountInToken1.
  rewrite <- Z.mul_assoc. apply BigInt_div_floor; [nia|reflexivity].
Qed.

Lemma valueOfToken1AmountInToken0_floor (amount s : Z) :
  0 <= amount -> s <> 0 ->
  valueOfToken1AmountInToken0 amount s = ret (floorDiv (amount * 2 ^ 192) (s * s)).
Proof.
  intros Ha Hs. unfold valueOfToken1AmountInToken0. rewrite <- Q192_eq.
  pose proof Q192_pos. apply BigInt_div_floor; nia.
Qed.

Lemma sqrtRatioX96ToToken1PerToken0_floor (s : Z) (d : nat) :
  sqrtRatioX96ToToken1PerToken0 s d
  = ret (floorDiv (BigInt.pow10 d * (s * s)) (2 ^ 192)).
Proof.
  unfold sqrtRatioX96ToToken1PerToken0. cbv zeta. pose proof (pow10_pos d).
  rewrite BigInt_div_floor by (try nia; apply Q192_pos).
  rewrite Q192_eq. unfold floorDiv. now rewrite (Z.mul_comm (s * s)).
Qed.

Lemma sqrtRatioX96ToToken0PerToken1_floor (s : Z) (d : nat) :
  s <> 0 ->
  sqrtRatioX96ToToken0PerToken1 s d
  = ret (floorDiv (BigInt.pow10 d * 2 ^ 192) (s * s)).
Proof.
  intros Hs. unfold sqrtRatioX96ToToken0PerToken1. cbv zeta.
  pose proof (pow10_pos d). pose proof Q192_pos.
  rewrite BigInt_div_floor by nia.
  rewrite Q192_eq. unfold floorDiv. now rewrite (Z.mul_comm (2 ^ 192)).
Qed.

Lemma pricePerToken0InToken1_floor (s : Z) (d : nat) :
  pricePerToken0InToken1 s d = ret (floorDiv (BigInt.pow10 d * (s * s)) (2 ^ 192)).
Proof.
  unfold pricePerToken0InToken1. apply valueOfToken0AmountInToken1_floor.
  pose proof (pow10_pos d). lia.
Qed.

Lemma pricePerToken1InToken0_floor (s : Z) (d : nat) :
  s <> 0 ->
  pricePerToken1InToken0 s d = ret (floorDiv (BigInt.pow10 d * 2 ^ 192) (s * s)).
Proof.
  intros Hs. unfold pricePerToken1InToken0.
  apply valueOfToken1AmountInToken0_floor; [|assumption].
  pose proof (pow10_pos d). lia.
Qed.

(** The two floors of a ratio and of its inverse. *)
Lemma floor_prices_product (p0 p1 Q m : Z) :
  0 < p0 -> 0 < p1 -> 0 < Q -> 0 < m ->
  0 <= floorDiv (p0 * m) Q /\ 0 <= floorDiv (p1 * Q) m /\
  floorDiv (p0 * m) Q * floorDiv (p1 * Q) m <= p0 * p1.
Proof.
  intros H0 H1 HQ Hm. unfold floorDiv.
  pose proof (Z.mul_div_le (p0 * m) Q HQ) as E1.
  pose proof (Z.mul_div_le (p1 * Q) m Hm) as E2.
  assert (Hx : 0 <= p0 * m / Q) by (apply Z.div_pos; nia).
  assert (Hy : 0 <= p1 * Q / m) by (apply Z.div_pos; nia).
  split; [assumption|]. split; [assumption|].
  set (x := p0 * m / Q) in *. set (y := p1 * Q / m) in *.
  assert ((Q * x) * (m * y) <= (p0 * m) * (p1 * Q))
    by (apply Z.mul_le_mono_nonneg; nia).
  assert ((Q * m) * (x * y) <= (Q * m) * (p0 * p1)) by nia.
  assert (0 < Q * m) by nia.
  nia.
Qed.

(** X13.  For a sqrt price that is not zero, converting an amount
    [>= 0] of token0 into token1 with [valueOfToken0AmountInToken1] and back
    with [valueOfToken1AmountInToken0] returns at most the amount, and at
    least the amount less [2^192 / sqrtPrice^2 + 1]: the two floors never
    create value and lose a bounded part of it. *)
Theorem value_conversion_roundtrip (amount s : Z) :
  0 <= amount -> s <> 0 ->
  exists there back : Z,
    valueOfToken0AmountInToken1 amount s = ret there /\
    valueOfToken1AmountInToken0 there s = ret back /\
    amount - 2 ^ 192 / (s * s) - 1 <= back <= amount.
Proof.
  intros Ha Hs.
  assert (HQ : 0 < 2 ^ 192) by reflexivity.
  assert (Hss : 0 < s * s) by nia.
  set (Q := 2 ^ 192) in *. set (m := s * s) in *.
  assert (Hthere : 0 <= floorDiv (amount * m) Q) by (apply Z.div_pos; nia).
  eexists. eexists.
  split; [now apply valueOfToken0AmountInToken1_floor|].
  split; [now apply valueOfToken1AmountInToken0_floor|].
  fold Q m. unfold floorDiv in *.
  pose proof (Z.div_mod (amount * m) Q ltac:(lia)) as E1.
  pose proof (Z.mod_pos_bound (amount * m) Q HQ) as M1.
  set (x := amount * m / Q) in *.
  pose proof (Z.div_mod (x * Q) m ltac:(lia)) as E2.
  pose proof (Z.mod_pos_bound (x * Q) m Hss) as M2.
  pose proof (Z.div_mod Q m ltac:(lia)) as E3.
  pose proof (Z.mod_pos_bound Q m Hss) as M3.
  set (y := x * Q / m) in *. set (z := Q / m) in *.
  split.
  - assert (m * (amount - z - 1 - y) < m * 1); [|nia]. nia.
  - assert (m * y <= m * amount); [|nia]. nia.
Qed.

Lemma value_conversion_roundtrip_witness :
  exists there back : Z,
    valueOfToken0AmountInToken1 1000000000000000000 SQRT_PRICE_X96_EXAMPLE = ret there /\
    valueOfToken1AmountInToken0 there SQRT_PRICE_X96_EXAMPLE = ret back /\
    1000000000000000000 - 2 ^ 192 / (SQRT_PRICE_X96_EXAMPLE * SQRT_PRICE_X96_EXAMPLE) - 1
    <= back <= 1000000000000000000.
Proof.
  apply (value_conversion_roundtrip 1000000000000000000 SQRT_PRICE_X96_EXAMPLE);
    vm_compute; discriminate.
Defined.

(** The expectation of price.test.ts: one WETH is 3793.895265 USDC. *)
Example fixture_weth_price :
  valueOfToken0AmountInToken1 1000000000000000000 SQRT_PRICE_X96_EXAMPLE
  = ret 3793895265
  /\ pricePerToken0InToken1 SQRT_PRICE_X96_EXAMPLE 18 = ret 3793895265
  /\ pricePerToken0InToken1 (2 ^ 96) 18 = ret 1000000000000000000
  /\ pricePerToken1InToken0 (2 ^ 96) 18 = ret 1000000000000000000.
Proof. repeat split; reflexivity. Qed.

(** X14.  [valueOfToken0AmountInToken1] never throws and is additive up
    to one unit: for amounts [a, b >= 0] the value of [a + b] is the sum of
    the two values or one more. *)
Theorem value_conversion_additive (a b s : Z) :
  0 <= a -> 0 <= b ->
  exists va vb vab : Z,
    valueOfToken0AmountInToken1 a s = ret va /\
    valueOfToken0AmountInToken1 b s = ret vb /\
    valueOfToken0AmountInToken1 (a + b) s = ret vab /\
    va + vb <= vab <= va + vb + 1.
Proof.
  intros Ha Hb.
  eexists. eexists. eexists.
  split; [now apply valueOfToken0AmountInToken1_floor|].
  split; [now apply valueOfToken0AmountInToken1_floor|].
  split; [apply valueOfToken0AmountInToken1_floor; lia|].
  unfold floorDiv. assert (HQ : 0 < 2 ^ 192) by reflexivity.
  set (Q := 2 ^ 192) in *. set (m := s * s).
  pose proof (Z.div_mod (a * m) Q ltac:(lia)) as E1.
  pose proof (Z.mod_pos_bound (a * m) Q HQ) as M1.
  pose proof (Z.div_mod (b * m) Q ltac:(lia)) as E2.
  pose proof (Z.mod_pos_bound (b * m) Q HQ) as M2.
  pose proof (Z.div_mod ((a + b) * m) Q ltac:(lia)) as E3.
  pose proof (Z.mod_pos_bound ((a + b) * m) Q HQ) as M3.
  nia.
Qed.

Lemma value_conversion_additive_witness :
  exists va vb vab : Z,
    valueOfToken0AmountInToken1 1000000000000000000 SQRT_PRICE_X96_EXAMPLE = ret va /\
    valueOfToken0AmountInToken1 500000000000000000 SQRT_PRICE_X96_EXAMPLE = ret vb /\
    valueOfToken0AmountInToken1 (1000000000000000000 + 500000000000000000)
      SQRT_PRICE_X96_EXAMPLE = ret vab /\
    va + vb <= vab <= va + vb + 1.
Proof.
  apply (value_conversion_additive 1000000000000000000 500000000000000000
           SQRT_PRICE_X96_EXAMPLE);
    vm_compute; discriminate.
Defined.

(** X15.  For a sqrt price that is not zero, [pricePerToken0InToken1]
    and [sqrtRatioX96ToToken1PerToken0] return the same price, and so do
    [pricePerToken1InToken0] and [sqrtRatioX96ToToken0PerToken1]; the two
    prices are not negative and their product is at most
    10^token0Decimals * 10^token1Decimals: the floors make the two prices
    fall short of being inverses, never exceed it. *)
Theorem prices_product_bound (s : Z) (token0Decimals token1Decimals : nat) :
  s <> 0 ->
  exists p01 p10 : Z,
    pricePerToken0InToken1 s token0Decimals = ret p01 /\
    pricePerToken1InToken0 s token1Decimals = ret p10 /\
    sqrtRatioX96ToToken1PerToken0 s token0Decimals = ret p01 /\
    sqrtRatioX96ToToken0PerToken1 s token1Decimals = ret p10 /\
    0 <= p01 /\ 0 <= p10 /\
    p01 * p10 <= BigInt.pow10 token0Decimals * BigInt.pow10 token1Decimals.
Proof.
  intros Hs. eexists. eexists.
  split; [apply pricePerToken0InToken1_floor|].
  split; [now apply pricePerToken1InToken0_floor|].
  split; [apply sqrtRatioX96ToToken1PerToken0_floor|].
  split; [now apply sqrtRatioX96ToToken0PerToken1_floor|].
  apply floor_prices_product;
    [apply pow10_pos|apply pow10_pos|reflexivity|nia].
Qed.

Lemma prices_product_bound_witness :
  exists p01 p10 : Z,
    pricePerToken0InToken1 SQRT_PRICE_X96_EXAMPLE 18 = ret p01 /\
    pricePerToken1InToken0 SQRT_PRICE_X96_EXAMPLE 6 = ret p10 /\
    sqrtRatioX96ToToken1PerToken0 SQRT_PRICE_X96_EXAMPLE 18 = ret p01 /\
    sqrtRatioX96ToToken0PerToken1 SQRT_PRICE_X96_EXAMPLE 6 = ret p10 /\
    0 <= p01 /\ 0 <= p10 /\
    p01 * p10 <= BigInt.pow10 18 * BigInt.pow10 6.
Proof.
  apply (prices_product_bound SQRT_PRICE_X96_EXAMPLE 18 6).
  vm_compute. discriminate.
Defined.

Example zero_sqrt_price_throws :
  pricePerToken1InToken0 0 6 = inl (RangeError "Division by zero")
  /\ sqrtRatioX96ToToken0PerToken1 0 6 = inl (RangeError "Division by zero")
  /\ pricePerToken0InToken1 0 18 = ret 0.
Proof. repeat split; reflexivity. Qed.

(** ** The functions that go through ticks *)

Lemma investment_bounds_symmetric
    (baseAmount : Z) (baseDecimals : nat) (quoteAmount : Z) (quoteDecimals : nat)
    (isQuoteToken0 : bool) (x y S : Z) :
  getLiquidityFromInvestmentAmounts baseAmount baseDecimals quoteAmount quoteDecimals
    isQuoteToken0 x y S
  = getLiquidityFromInvestmentAmounts baseAmount baseDecimals quoteAmount quoteDecimals
      isQuoteToken0 y x S.
Proof.
  unfold getLiquidityFromInvestmentAmounts.
  rewrite !ordered_upper, !ordered_lower.
  now rewrite (Z.max_comm x), (Z.min_comm x).
Qed.

Section Wrappers.

Context {sdk : V3Sdk}.

Lemma pnlPointAt_fields
    (liquidity tickLower tickUpper costBasis baseTokenAddress quoteTokenAddress : Z)
    (baseTokenDecimals : nat) (tickSpacing : Z) (priceRange : PriceRange)
    (priceStep : Z) (i : Z) (p : PnLPoint) :
  pnlPointAt liquidity tickLower tickUpper costBasis baseTokenAddress
    quoteTokenAddress baseTokenDecimals tickSpacing priceRange priceStep
    (baseTokenAddress <? quoteTokenAddress) i = ret p ->
  calculatePositionValueAtPrice liquidity tickLower tickUpper (price p)
    baseTokenAddress quoteTokenAddress baseTokenDecimals tickSpacing
  = ret (positionValue p)
  /\ pnl p = positionValue p - costBasis
  /\ pnlPercent p = pnl_percent (calculatePnL (positionValue p) costBasis).
Proof.
  unfold pnlPointAt, calculatePositionValueAtPrice. intros H.
  apply bind_ret_inv in H as (tick & Htick & H).
  apply bind_ret_inv in H as (sqrtPriceX96 & Hsqrt & H).
  apply bind_ret_inv in H as (value & Hvalue & H).
  inversion H; subst; cbn [price positionValue pnl pnlPercent].
  rewrite Htick. cbn [bind ret]. rewrite Hsqrt. cbn [bind ret].
  split; [exact Hvalue|]. split; reflexivity.
Qed.

(** X16.  Every point of a curve that [generatePnLCurve] returns carries
    the value that [calculatePositionValueAtPrice] returns at the point's
    price, the difference of that value and the cost basis as its pnl, and
    the percentage [calculatePnL] gives for the two. *)
Theorem curve_points_are_values_at_price
    (liquidity tickLower tickUpper costBasis baseTokenAddress quoteTokenAddress : Z)
    (baseTokenDecimals : nat) (tickSpacing : Z) (priceRange : PriceRange)
    (numPoints : nat) (pts : list PnLPoint) (p : PnLPoint) :
  generatePnLCurve liquidity tickLower tickUpper costBasis baseTokenAddress
    quoteTokenAddress baseTokenDecimals tickSpacing priceRange numPoints = ret pts ->
  In p pts ->
  calculatePositionValueAtPrice liquidity tickLower tickUpper (price p)
    baseTokenAddress quoteTokenAddress baseTokenDecimals tickSpacing
  = ret (positionValue p)
  /\ pnl p = positionValue p - costBasis
  /\ pnlPercent p = pnl_percent (calculatePnL (positionValue p) costBasis).
Proof.
  unfold generatePnLCurve. intros H Hin.
  apply bind_ret_inv in H as (priceStep & _ & H).
  apply In_nth_error in Hin as [i Hi].
  destruct (forEach_nth_error _ _ _ _ _ H Hi) as (x & _ & Hx).
  eapply pnlPointAt_fields. exact Hx.
Qed.

Lemma zero_times_price (price : Z) (d : nat) :
  BigInt.div (0 * price) (BigInt.pow10 d) = ret 0.
Proof.
  pose proof (pow10_pos d). rewrite BigInt_div_quot by lia.
  now rewrite Z.mul_0_l, Z.quot_0_l by lia.
Qed.

(** X17.  Outside the range the value of a position does not depend on
    the price it is valued at.  For a positive liquidity and ticks whose
    sqrt ratios are [0 < lower < upper]: at or above the upper bound, with
    the base token as token0, [calculatePositionValue] returns the amount of
    token1 over the range; at or below the lower bound, with the base token
    as token1, it returns the amount of token0 over the range. *)
Theorem position_value_out_of_range
    (liquidity sqrtPriceCurrentX96 tickLower tickUpper lower upper currentPrice : Z)
    (baseDecimals : nat) :
  getSqrtRatioAtTick tickLower = ret lower ->
  getSqrtRatioAtTick tickUpper = ret upper ->
  0 < lower < upper -> 0 < liquidity ->
  (upper <= sqrtPriceCurrentX96 ->
   calculatePositionValue liquidity sqrtPriceCurrentX96 tickLower tickUpper
     currentPrice true baseDecimals
   = getAmount1FromLiquidity lower upper liquidity false)
  /\
  (sqrtPriceCurrentX96 <= lower ->
   calculatePositionValue liquidity sqrtPriceCurrentX96 tickLower tickUpper
     currentPrice false baseDecimals
   = getAmount0FromLiquidity lower upper liquidity false).
Proof.
  intros Hlo Hup Hb HL.
  unfold calculatePositionValue, getTokenAmountsFromLiquidity.
  destruct (Z.eqb_spec liquidity 0); [lia|].
  rewrite Hlo, Hup. cbn [bind ret].
  rewrite (proj1 (getTokenAmountsFromLiquidity_X96_formulas
                    liquidity sqrtPriceCurrentX96 lower upper false)) by lia.
  cbn [bind ret]. unfold amountsFromLiquidity. split; intros Hc.
  - destruct (Z.leb_spec sqrtPriceCurrentX96 lower); [lia|].
    destruct (Z.leb_spec upper sqrtPriceCurrentX96); [|lia].
    cbn [token0Amount token1Amount]. rewrite zero_times_price. cbn [bind ret].
    rewrite getAmount1FromLiquidity_formula by lia. reflexivity.
  - destruct (Z.leb_spec sqrtPriceCurrentX96 lower); [|lia].
    cbn [token0Amount token1Amount]. rewrite zero_times_price. cbn [bind ret].
    rewrite getAmount0FromLiquidity_formula by lia. f_equal. lia.
Qed.

(** X18.  When the SDK's sqrt ratio does not decrease with the tick, the
    amounts of [getTokenAmountsFromLiquidity_withTick] agree with
    [determinePhase] on the same ticks: below the range the position holds no
    token1, above the range no token0. *)
Theorem withTick_amounts_follow_phase
    (liquidity tickCurrent tickLower tickUpper : Z) (roundUp : bool)
    (amounts : TokenAmounts) :
  (forall t t' s s' : Z,
      t <= t' -> getSqrtRatioAtTick t = ret s -> getSqrtRatioAtTick t' = ret s' ->
      s <= s') ->
  getTokenAmountsFromLiquidity_withTick liquidity tickCurrent tickLower tickUpper roundUp
  = ret amounts ->
  (determinePhase tickCurrent tickLower tickUpper = below -> token1Amount amounts = 0)
  /\
  (determinePhase tickCurrent tickLower tickUpper = above -> token0Amount amounts = 0).
Proof.
  intros Hmono H.
  unfold getTokenAmountsFromLiquidity_withTick, getTokenAmountsFromLiquidity in H.
  apply bind_ret_inv in H as (current & Hcur & H).
  apply bind_ret_inv in H as (lower & Hlo & H).
  apply bind_ret_inv in H as (upper & Hup & H).
  unfold getTokenAmountsFromLiquidity_X96 in H.
  destruct (Z.eqb_spec liquidity 0).
  { inversion H; subst; cbn. split; reflexivity. }
  split; intros Hphase.
  - apply determinePhase_below in Hphase.
    pose proof (Hmono tickCurrent tickLower current lower ltac:(lia) Hcur Hlo).
    destruct (Z.leb_spec current lower); [|lia].
    apply bind_ret_inv in H as (a0 & _ & H). inversion H; subst. reflexivity.
  - apply determinePhase_above in Hphase as [_ Hphase].
    pose proof (Hmono tickUpper tickCurrent upper current ltac:(lia) Hup Hcur).
    destruct (Z.leb_spec current lower).
    + apply bind_ret_inv in H as (a0 & Ha0 & H). inversion H; subst.
      cbn [token0Amount].
      rewrite getAmount0FromLiquidity_degenerate in Ha0 by (left; lia).
      now inversion Ha0.
    + rewrite Z.geb_leb in H. destruct (Z.leb_spec upper current); [|lia].
      apply bind_ret_inv in H as (a1 & _ & H). inversion H; subst. reflexivity.
Qed.

(** X19.  With tick bounds whose sqrt ratios are [0 < lower < upper],
    [L >= 0] and a positive current sqrt price, the amounts of
    [getTokenAmountsFromLiquidity] (rounding down), given to
    [getLiquidityFromTokenAmounts] with the same ticks, give a liquidity of
    at most [L]. *)
Theorem tick_bounded_roundtrip
    (L sqrtPriceCurrentX96 tickLower tickUpper lower upper : Z) :
  getSqrtRatioAtTick tickLower = ret lower ->
  getSqrtRatioAtTick tickUpper = ret upper ->
  0 <= L -> 0 < sqrtPriceCurrentX96 -> 0 < lower < upper ->
  exists (amounts : TokenAmounts) (liquidity : Z),
    getTokenAmountsFromLiquidity L sqrtPriceCurrentX96 tickLower tickUpper false
    = ret amounts /\
    getLiquidityFromTokenAmounts sqrtPriceCurrentX96 tickLower tickUpper
      (token0Amount amounts) (token1Amount amounts) = ret liquidity /\
    liquidity <= L.
Proof.
  intros Hlo Hup HL Hcur Hb.
  unfold getTokenAmountsFromLiquidity, getLiquidityFromTokenAmounts.
  rewrite Hlo, Hup. cbn [bind ret].
  eexists. eexists. split; [|split].
  - apply (proj1 (getTokenAmountsFromLiquidity_X96_formulas
                    L sqrtPriceCurrentX96 lower upper false)); assumption.
  - now apply getLiquidityFromTokenAmounts_X96_closed_form.
  - now apply liquidityFromAmounts_roundtrip.
Qed.

(** X20.  [getLiquidityFromInvestmentAmounts_withTick] takes the upper
    tick before the lower one; when it returns a liquidity, it returns the
    same liquidity with the two ticks exchanged. *)
Theorem investment_withTick_ticks_swap
    (baseAmount : Z) (baseDecimals : nat) (quoteAmount : Z) (quoteDecimals : nat)
    (isQuoteToken0 : bool) (tickUpper tickLower S liquidity : Z) :
  getLiquidityFromInvestmentAmounts_withTick baseAmount baseDecimals quoteAmount
    quoteDecimals isQuoteToken0 tickUpper tickLower S = ret liquidity ->
  getLiquidityFromInvestmentAmounts_withTick baseAmount baseDecimals quoteAmount
    quoteDecimals isQuoteToken0 tickLower tickUpper S = ret liquidity.
Proof.
  unfold getLiquidityFromInvestmentAmounts_withTick. intros H.
  apply bind_ret_inv in H as (lower & Hlo & H).
  apply bind_ret_inv in H as (upper & Hup & H).
  rewrite Hup, Hlo. cbn [bind ret].
  now rewrite investment_bounds_symmetric.
Qed.

(** X21.  Strictly inside the tick bounds, with the sqrt ratio of the
    price between those of its floor tick [t0] and of [t0 + 1]:
    [priceToClosestUsableTick] returns what [priceToTick] returns when the
    sqrt ratio is strictly nearer to that of [t0], and the usable tick
    nearest to [t0 + 1] otherwise, a tie included. *)
Theorem closest_tick_choice
    (price tickSpacing baseTokenAddress quoteTokenAddress : Z)
    (baseTokenDecimals : nat) (sqrt t0 s0 s1 : Z) :
  priceToSqrtRatioX96 baseTokenAddress quoteTokenAddress baseTokenDecimals price
  = ret sqrt ->
  getTickAtSqrtRatio sqrt = ret t0 ->
  MIN_TICK < t0 < MAX_TICK ->
  getSqrtRatioAtTick t0 = ret s0 ->
  getSqrtRatioAtTick (t0 + 1) = ret s1 ->
  s0 <= sqrt <= s1 ->
  (2 * sqrt < s0 + s1 ->
   priceToClosestUsableTick price tickSpacing baseTokenAddress quoteTokenAddress
     baseTokenDecimals
   = priceToTick price tickSpacing baseTokenAddress quoteTokenAddress
       baseTokenDecimals)
  /\
  (s0 + s1 <= 2 * sqrt ->
   priceToClosestUsableTick price tickSpacing baseTokenAddress quoteTokenAddress
     baseTokenDecimals
   = nearestUsableTick (t0 + 1) tickSpacing).
Proof.
  intros Hsqrt Ht0 Hbounds Hs0 Hs1 Hbetween.
  unfold priceToClosestUsableTick, priceToTick.
  rewrite Hsqrt. cbn [bind ret]. rewrite Ht0. cbn [bind ret].
  rewrite Z.geb_leb.
  destruct (Z.leb_spec MAX_TICK t0); [lia|].
  destruct (Z.leb_spec t0 MIN_TICK); [lia|].
  rewrite Hs0, Hs1. cbn [bind ret]. cbv zeta. rewrite !Z.geb_leb.
  destruct (Z.leb_spec s0 sqrt); [|lia].
  destruct (Z.leb_spec sqrt s1); [|lia].
  split; intros Hd.
  - destruct (Z.ltb_spec (sqrt - s0) (s1 - sqrt)); [reflexivity|lia].
  - destruct (Z.ltb_spec (sqrt - s0) (s1 - sqrt)); [lia|reflexivity].
Qed.

(** X22.  For a tick the SDK maps to a sqrt ratio that is not zero and
    two tokens with token0Address < token1Address, [tickToPrice] returns a
    price in both directions, neither is negative, and their product is at
    most 10^token0Decimals * 10^token1Decimals. *)
Theorem tickToPrice_both_directions
    (tick token0Address token1Address s : Z) (token0Decimals token1Decimals : nat) :
  getSqrtRatioAtTick tick = ret s -> s <> 0 ->
  token0Address < token1Address ->
  exists p01 p10 : Z,
    tickToPrice tick token0Address token1Address token0Decimals = ret p01 /\
    tickToPrice tick token1Address token0Address token1Decimals = ret p10 /\
    0 <= p01 /\ 0 <= p10 /\
    p01 * p10 <= BigInt.pow10 token0Decimals * BigInt.pow10 token1Decimals.
Proof.
  intros Hs Hnz Hlt. unfold tickToPrice, tickToSqrtRatioX96.
  rewrite Hs. cbn [bind ret]. cbv zeta.
  destruct (Z.ltb_spec token0Address token1Address); [|lia].
  destruct (Z.ltb_spec token1Address token0Address); [lia|].
  eexists. eexists.
  split; [apply sqrtRatioX96ToToken1PerToken0_floor|].
  split; [now apply sqrtRatioX96ToToken0PerToken1_floor|].
  apply floor_prices_product;
    [apply pow10_pos|apply pow10_pos|reflexivity|nia].
Qed.

End Wrappers.

Lemma ret_inj {A : Type} (x y : A) : ret x = ret y -> x = y.
Proof. intros H. now inversion H. Qed.

Lemma coarse_sqrt_ratio_monotone (t t' s s' : Z) :
  t <= t' ->
  getSqrtRatioAtTick (V3Sdk := coarseSdk) t = ret s ->
  getSqrtRatioAtTick (V3Sdk := coarseSdk) t' = ret s' ->
  s <= s'.
Proof.
  change (getSqrtRatioAtTick (V3Sdk := coarseSdk)) with coarse_getSqrtRatioAtTick.
  unfold coarse_getSqrtRatioAtTick. intros Ht Hs Hs'.
  destruct (Z.leb_spec (-96) t), (Z.leb_spec t 96); try discriminate.
  destruct (Z.leb_spec (-96) t'), (Z.leb_spec t' 96); try discriminate.
  cbn [andb] in Hs, Hs'. apply ret_inj in Hs, Hs'. subst s s'.
  rewrite !Z.shiftl_mul_pow2, !Z.mul_1_l by lia.
  apply Z.pow_le_mono_r; lia.
Qed.

Lemma curve_points_are_values_at_price_witness :
  calculatePositionValueAtPrice (sdk := coarseSdk) 1000000000000000000 1 3 4 1 2 0 1
  = ret 1500000000000000000.
Proof.
  destruct coarse_short_curve as [e|pts] eqn:Hrun.
  - vm_compute in Hrun. discriminate Hrun.
  - pose (p := mkPnLPoint 4 1500000000000000000 (-1500000000000000000)
                 (S754_finite true 7036874417766400 (-47)) in_range).
    assert (Hin : In p pts).
    { vm_compute in Hrun. inversion Hrun. right. left. reflexivity. }
    exact (proj1 (curve_points_are_values_at_price (sdk := coarseSdk)
                    _ _ _ _ _ _ _ _ _ _ pts p Hrun Hin)).
Defined.

Lemma position_value_out_of_range_witness :
  calculatePositionValue (sdk := coarseSdk) 1000000000000000000 (2 ^ 100) 1 3
    12345 true 0
  = getAmount1FromLiquidity (2 ^ 97) (2 ^ 99) 1000000000000000000 false.
Proof.
  apply (proj1 (position_value_out_of_range (sdk := coarseSdk)
                  1000000000000000000 (2 ^ 100) 1 3 (2 ^ 97) (2 ^ 99) 12345 0
                  eq_refl eq_refl
                  ltac:(vm_compute; intuition discriminate) eq_refl)).
  vm_compute. discriminate.
Defined.

Lemma withTick_amounts_follow_phase_witness :
  exists amounts : TokenAmounts,
    getTokenAmountsFromLiquidity_withTick (sdk := coarseSdk)
      1000000000000000000 4 1 3 false = ret amounts
    /\ determinePhase 4 1 3 = above
    /\ token0Amount amounts = 0.
Proof.
  exists (mkTokenAmounts 0 6000000000000000000).
  split; [reflexivity|]. split; [reflexivity|].
  apply (proj2 (withTick_amounts_follow_phase (sdk := coarseSdk)
                  1000000000000000000 4 1 3 false
                  (mkTokenAmounts 0 6000000000000000000)
                  coarse_sqrt_ratio_monotone eq_refl)).
  reflexivity.
Defined.

Lemma tick_bounded_roundtrip_witness :
  exists (amounts : TokenAmounts) (liquidity : Z),
    getTokenAmountsFromLiquidity (sdk := coarseSdk) 1000000000000000000
      (3 * 2 ^ 97) 1 3 false = ret amounts /\
    getLiquidityFromTokenAmounts (sdk := coarseSdk) (3 * 2 ^ 97) 1 3
      (token0Amount amounts) (token1Amount amounts) = ret liquidity /\
    liquidity <= 1000000000000000000.
Proof.
  apply (tick_bounded_roundtrip (sdk := coarseSdk) 1000000000000000000
           (3 * 2 ^ 97) 1 3 (2 ^ 97) (2 ^ 99) eq_refl eq_refl);
    vm_compute; intuition discriminate.
Defined.

Lemma investment_withTick_ticks_swap_witness :
  getLiquidityFromInvestmentAmounts_withTick (sdk := coarseSdk)
    500000000000000000 18 200000000000000000 6 false 1 3 (3 * 2 ^ 97)
  = ret 3309090909090909090.
Proof.
  apply (investment_withTick_ticks_swap (sdk := coarseSdk)
           500000000000000000 18 200000000000000000 6 false 3 1 (3 * 2 ^ 97)).
  reflexivity.
Defined.

Lemma closest_tick_choice_witness :
  priceToClosestUsableTick (sdk := coarseSdk) 5 1 1 2 0
  = priceToTick (sdk := coarseSdk) 5 1 1 2 0.
Proof.
  apply (proj1 (closest_tick_choice (sdk := coarseSdk) 5 1 1 2 0
                  177159557114295710296101716160 1 (2 ^ 97) (2 ^ 98)
                  eq_refl eq_refl
                  ltac:(vm_compute; intuition discriminate) eq_refl eq_refl
                  ltac:(vm_compute; intuition discriminate))).
  reflexivity.
Defined.

Lemma tickToPrice_both_directions_witness :
  exists p01 p10 : Z,
    tickToPrice (sdk := coarseSdk) 1 1 2 18 = ret p01 /\
    tickToPrice (sdk := coarseSdk) 1 2 1 6 = ret p10 /\
    0 <= p01 /\ 0 <= p10 /\
    p01 * p10 <= BigInt.pow10 18 * BigInt.pow10 6.
Proof.
  apply (tickToPrice_both_directions (sdk := coarseSdk) 1 1 2 (2 ^ 97) 18 6 eq_refl).
  - vm_compute. discriminate.
  - reflexivity.
Defined.

(** ** Addresses *)

Lemma isValidAddress_length (s : string) :
  isValidAddress s = true -> String.length s = 42%nat.
Proof.
  unfold isValidAddress. destruct s as [|c0 [|c1 digits]]; try discriminate.
  intros H. apply andb_true_iff in H as [H _]. apply andb_true_iff in H as [_ H].
  apply Nat.eqb_eq in H. cbn. now rewrite H.
Qed.

(** The prefix may be written 0X: the expression is matched without regard
    to case. *)
Example upper_case_prefix_is_valid :
  isValidAddress "0X0000000000000000000000000000000000000001" = true
  /\ isValidAddress "0x123456789012345678901234567890123456GHIJ" = false
  /\ isValidAddress "0x1234567890123456789012345678901234567 90" = false
  /\ isValidAddress "" = false.
Proof. repeat split; reflexivity. Qed.

Section AddressProperties.

Context {env : AddressEnv}.

Lemma normalizeAddress_invalid (a : string) :
  isValidAddress a = false ->
  normalizeAddress a = inl (Error ("Invalid Ethereum address: " ++ a)).
Proof. intros H. unfold normalizeAddress. now rewrite H. Qed.

(** X23.  A string that [isValidAddress] refuses, in particular every
    string whose length is not 42, makes [normalizeAddress],
    [compareAddresses], [sameAddress] and [isToken0] throw the error
    "Invalid Ethereum address: " followed by that string: as the first
    argument whatever the second is, and as the second argument once the
    first has been normalized. *)
Theorem invalid_address_is_named (a b : string) :
  String.length a <> 42%nat \/ isValidAddress a = false ->
  normalizeAddress a = inl (Error ("Invalid Ethereum address: " ++ a))
  /\ compareAddresses a b = inl (Error ("Invalid Ethereum address: " ++ a))
  /\ sameAddress a b = inl (Error ("Invalid Ethereum address: " ++ a))
  /\ isToken0 a b = inl (Error ("Invalid Ethereum address: " ++ a))
  /\ (forall nb : string,
        normalizeAddress b = ret nb ->
        compareAddresses b a = inl (Error ("Invalid Ethereum address: " ++ a))
        /\ sameAddress b a = inl (Error ("Invalid Ethereum address: " ++ a))).
Proof.
  intros H.
  assert (Hinv : isValidAddress a = false).
  { destruct H as [H|H]; [|assumption].
    destruct (isValidAddress a) eqn:E; [|reflexivity].
    apply isValidAddress_length in E. contradiction. }
  pose proof (normalizeAddress_invalid a Hinv) as Hn.
  unfold isToken0, compareAddresses, sameAddress.
  rewrite Hn. cbn [bind].
  split; [reflexivity|]. split; [reflexivity|].
  split; [reflexivity|]. split; [reflexivity|].
  intros nb Hnb. rewrite Hnb. split; reflexivity.
Qed.

Lemma compareAddresses_swap (a b : string) (c : Z) :
  compareAddresses a b = ret c ->
  compareAddresses b a = ret (- c) /\ (c = -1 \/ c = 0 \/ c = 1).
Proof.
  unfold compareAddresses. intros H.
  apply bind_ret_inv in H as (na & Hna & H).
  apply bind_ret_inv in H as (nb & Hnb & H).
  apply bind_ret_inv in H as (ia & Hia & H).
  apply bind_ret_inv in H as (ib & Hib & H).
  rewrite Hnb, Hna. cbn [bind ret]. rewrite Hib, Hia. cbn [bind ret].
  destruct (Z.ltb_spec ia ib), (Z.gtb_spec ia ib), (Z.ltb_spec ib ia),
    (Z.gtb_spec ib ia);
    try lia; apply ret_inj in H; subst c; cbn; auto.
Qed.

(** X24.  When [compareAddresses] returns for two addresses, its result
    is -1, 0 or 1, and with the addresses exchanged it returns the opposite
    number; an address compared with itself gives 0. *)
Theorem compareAddresses_antisymmetric (a b : string) (c : Z) :
  compareAddresses a b = ret c ->
  compareAddresses b a = ret (- c)
  /\ (c = -1 \/ c = 0 \/ c = 1)
  /\ (a = b -> c = 0).
Proof.
  intros H. destruct (compareAddresses_swap a b c H) as [Hswap Hvals].
  split; [exact Hswap|]. split; [exact Hvals|].
  intros ->. rewrite H in Hswap. apply ret_inj in Hswap. lia.
Qed.

(** X25.  When [sortTokens] returns, the pair holds the two tokens it was
    given.  If their addresses do not compare equal, the pair is the same
    whichever order they are given in, and its first token is token0 by
    [isToken0]; if they compare equal, the second token given comes
    first. *)
Theorem sortTokens_order
    {T : Type} (address : T -> string) (tokenA tokenB token0 token1 : T) :
  sortTokens address tokenA tokenB = ret (token0, token1) ->
  ((token0, token1) = (tokenA, tokenB) \/ (token0, token1) = (tokenB, tokenA))
  /\
  (compareAddresses (address tokenA) (address tokenB) <> ret 0 ->
   sortTokens address tokenB tokenA = ret (token0, token1)
   /\ isToken0 (address token0) (address token1) = ret true)
  /\
  (compareAddresses (address tokenA) (address tokenB) = ret 0 ->
   (token0, token1) = (tokenB, tokenA)
   /\ sortTokens address tokenB tokenA = ret (tokenA, tokenB)).
Proof.
  unfold sortTokens, isToken0. intros H.
  apply bind_ret_inv in H as (first & Hfirst & H).
  apply bind_ret_inv in Hfirst as (c & Hc & Hfirst).
  apply ret_inj in Hfirst. subst first.
  destruct (compareAddresses_swap _ _ _ Hc) as [Hc' Hvals].
  rewrite Hc'. cbn [bind ret].
  destruct (Z.ltb_spec c 0) as [Hlt|Hge]; apply ret_inj in H;
    injection H as <- <-.
  - split; [auto|]. split.
    + intros _. destruct (Z.ltb_spec (- c) 0); [lia|].
      rewrite Hc. cbn [bind ret]. destruct (Z.ltb_spec c 0); [auto|lia].
    + intros H0. rewrite Hc in H0. apply ret_inj in H0. lia.
  - split; [auto|]. split.
    + intros Hne.
      assert (c = 1) by (destruct Hvals as [|[|]]; subst; try lia; contradiction).
      subst c. cbn. rewrite Hc'. cbn. auto.
    + intros H0. rewrite Hc in H0. apply ret_inj in H0. subst c. cbn. auto.
Qed.

(** X26.  When [getTokenMapping] returns, base and quote are not both
    token0, and each of them is the same address as token0 or as token1,
    as the two flags say.  It does not refuse a base and a quote that are
    both token1: for one address that is token1 and not token0 it returns
    (false, false). *)
Theorem getTokenMapping_result
    (token0Address token1Address baseTokenAddress quoteTokenAddress : string) :
  (forall baseIsToken0 quoteIsToken0 : bool,
      getTokenMapping token0Address token1Address baseTokenAddress quoteTokenAddress
      = ret (baseIsToken0, quoteIsToken0) ->
      baseIsToken0 && quoteIsToken0 = false
      /\ sameAddress baseTokenAddress token0Address = ret baseIsToken0
      /\ sameAddress quoteTokenAddress token0Address = ret quoteIsToken0
      /\ (baseIsToken0 = false ->
          sameAddress baseTokenAddress token1Address = ret true)
      /\ (quoteIsToken0 = false ->
          sameAddress quoteTokenAddress token1Address = ret true))
  /\
  (baseTokenAddress = quoteTokenAddress ->
   sameAddress baseTokenAddress token0Address = ret false ->
   sameAddress baseTokenAddress token1Address = ret true ->
   getTokenMapping token0Address token1Address baseTokenAddress quoteTokenAddress
   = ret (false, false)).
Proof.
  split.
  - intros b q H. unfold getTokenMapping in H.
    apply bind_ret_inv in H as (b' & Hb & H).
    apply bind_ret_inv in H as (q' & Hq & H).
    destruct (b' && q') eqn:E; [discriminate|].
    apply bind_ret_inv in H as (kb & Hkb & H).
    destruct kb; [|discriminate]. cbn [negb] in H.
    apply bind_ret_inv in H as (kq & Hkq & H).
    destruct kq; [|discriminate]. cbn [negb] in H.
    apply ret_inj in H. injection H as <- <-. repeat split; auto.
    + intros ->. exact Hkb.
    + intros ->. exact Hkq.
  - intros <- H0 H1. unfold getTokenMapping. rewrite H0. cbn [bind ret andb].
    rewrite H1. reflexivity.
Qed.

End AddressProperties.

Lemma invalid_address_is_named_witness :
  compareAddresses (env := plainAddressEnv) "0x123" ADDRESS_TWO
  = inl (Error "Invalid Ethereum address: 0x123").
Proof.
  apply (invalid_address_is_named (env := plainAddressEnv) "0x123" ADDRESS_TWO).
  right. reflexivity.
Defined.

Lemma compareAddresses_antisymmetric_witness :
  compareAddresses (env := plainAddressEnv) ADDRESS_TWO ADDRESS_ONE = ret (- -1).
Proof.
  apply (compareAddresses_antisymmetric (env := plainAddressEnv)
           ADDRESS_ONE ADDRESS_TWO (-1)).
  reflexivity.
Defined.

Lemma sortTokens_order_witness :
  sortTokens (env := plainAddressEnv) (fun token : string => token)
    ADDRESS_ONE ADDRESS_TWO
  = ret (ADDRESS_ONE, ADDRESS_TWO).
Proof.
  apply (proj2 (sortTokens_order (env := plainAddressEnv) (fun token : string => token)
                  ADDRESS_TWO ADDRESS_ONE ADDRESS_ONE ADDRESS_TWO eq_refl)).
  vm_compute. discriminate.
Defined.

Lemma getTokenMapping_result_witness :
  getTokenMapping (env := plainAddressEnv) ADDRESS_ONE USDC_LOWERCASE
    USDC_UPPERCASE USDC_UPPERCASE
  = ret (false, false).
Proof.
  apply (proj2 (getTokenMapping_result (env := plainAddressEnv)
                  ADDRESS_ONE USDC_LOWERCASE USDC_UPPERCASE USDC_UPPERCASE));
    reflexivity.
Defined.

(** The expectations of address.test.ts on the plain implementation. *)
Example fixture_compare_addresses :
  compareAddresses (env := plainAddressEnv) ADDRESS_ONE ADDRESS_TWO = ret (-1)
  /\ compareAddresses (env := plainAddressEnv) USDC_LOWERCASE USDC_UPPERCASE = ret 0.
Proof. split; reflexivity. Qed.

(** ** Fee tiers *)

(** X27.  [getTickSpacing] returns a spacing exactly for the fees that
    have an entry in [TICK_SPACINGS], and that entry; these are the four
    fees of [FEE_TIERS], with spacings between 1 and 200; for every other
    fee it throws "Unsupported fee tier: " followed by the fee. *)
Theorem getTickSpacing_table (numberToString : Z -> string) (fee : Z) :
  (forall spacing : Z,
      getTickSpacing numberToString fee = ret spacing
      <-> TICK_SPACINGS fee = Some spacing)
  /\
  (In fee FEE_TIERS ->
   exists spacing : Z,
     getTickSpacing numberToString fee = ret spacing /\ 1 <= spacing <= 200)
  /\
  (~ In fee FEE_TIERS ->
   getTickSpacing numberToString fee
   = inl (Error ("Unsupported fee tier: " ++ numberToString fee))
   /\ TICK_SPACINGS fee = None).
Proof.
  unfold getTickSpacing, TICK_SPACINGS, FEE_TIERS.
  destruct (Z.eqb_spec fee 100); [subst|
  destruct (Z.eqb_spec fee 500); [subst|
  destruct (Z.eqb_spec fee 3000); [subst|
  destruct (Z.eqb_spec fee 10000); [subst|]]]].
  all: repeat split; intros; cbn in *;
    try match goal with H : ret _ = ret _ |- _ => inversion H; subst end;
    try match goal with H : Some _ = Some _ |- _ => inversion H; subst end;
    try discriminate; try reflexivity; try (eexists; split; [reflexivity|lia]);
    try tauto; try (exfalso; intuition lia).
Qed.

Example tick_spacings :
  map (getTickSpacing (fun _ => "")) FEE_TIERS = [ret 1; ret 10; ret 60; ret 200].
Proof. reflexivity. Qed.

(** ** The sign of the percentage *)

(** The double [Number(bp) / 100] is zero for bp = 0 and has the sign of
    bp otherwise. *)
Lemma percent_shape (bp : Z) :
  let pct := Number.div (Number.ofBigInt bp) hundred in
  (bp = 0 /\ pct = Number.zero)
  \/ (bp <> 0 /\ ((exists m e, pct = S754_finite (bp <? 0) m e)
                  \/ pct = S754_infinity (bp <? 0))).
Proof.
  cbv zeta. destruct (Z.eq_dec bp 0) as [->|Hbp]; [left; split; reflexivity|].
  right. split; [exact Hbp|].
  destruct (percent_of_basis_points bp Hbp) as [Hfin Hinf].
  destruct (Z.lt_ge_cases (Z.abs bp) (2 ^ 1024 - 2 ^ 970)) as [Hlt|Hge].
  - left. destruct (Hfin Hlt) as (m & e & _ & _ & Hpct & _). eauto.
  - right. exact (Hinf Hge).
Qed.

(** From -10000 basis points up to -1, checked one by one. *)
Lemma percent_of_a_loss (bp : Z) :
  -10000 <= bp < 0 ->
  Number.leb (Number.ofBigInt (-100)) (Number.div (Number.ofBigInt bp) hundred) = true.
Proof.
  intros Hbp.
  assert (H : forallb (fun i => Number.leb (Number.ofBigInt (-100))
                         (Number.div (Number.ofBigInt (- Z.of_nat i)) hundred))
                (seq 1 (Z.to_nat 10000)) = true) by (vm_compute; reflexivity).
  rewrite forallb_forall in H. specialize (H (Z.to_nat (- bp))).
  rewrite Z2Nat.id, Z.opp_involutive in H by lia.
  apply H. apply in_seq. lia.
Qed.

(** X28.  The percentage of [calculatePnL] never has the sign opposite
    to the pnl: it is not negative for a gain and not positive for a loss;
    and for a current value that is not negative it is at least -100.  The
    comparisons are those of the doubles. *)
Theorem pnl_percent_sign (currentValue costBasis : Z) :
  let r := calculatePnL currentValue costBasis in
  (0 <= pnl_value r -> Number.leb Number.zero (pnl_percent r) = true)
  /\ (pnl_value r <= 0 -> Number.leb (pnl_percent r) Number.zero = true)
  /\ (0 <= currentValue ->
      Number.leb (Number.ofBigInt (-100)) (pnl_percent r) = true).
Proof.
  cbv zeta. unfold calculatePnL. cbn [pnl_value pnl_percent].
  destruct (Z.gtb_spec costBasis 0) as [Hpos|Hnp]; [|repeat split; reflexivity].
  set (n := (currentValue - costBasis) * 10000).
  set (bp := Z.quot n costBasis).
  fold hundred.
  assert (Hge : 0 <= n -> 0 <= bp) by (intros; apply Z.quot_pos; lia).
  assert (Hle : n <= 0 -> bp <= 0).
  { intros H. assert (0 <= Z.quot (- n) costBasis) by (apply Z.quot_pos; lia).
    rewrite Z.quot_opp_l in * by lia. lia. }
  assert (Hlow : 0 <= currentValue -> -10000 <= bp).
  { intros H. pose proof (Z.quot_le_mono (-10000 * costBasis) n costBasis Hpos
                            ltac:(unfold n; lia)) as Hq.
    rewrite Z.quot_mul in Hq by lia. exact Hq. }
  assert (Hn : 0 <= currentValue - costBasis -> 0 <= n) by (unfold n; lia).
  assert (Hn' : currentValue - costBasis <= 0 -> n <= 0) by (unfold n; lia).
  clearbody bp n.
  destruct (percent_shape bp) as [[-> ->]|[Hbp Hshape]].
  { repeat split; reflexivity. }
  split; [|split].
  - intros H. assert (Es : (bp <? 0) = false) by (apply Z.ltb_ge; auto).
    rewrite Es in Hshape. destruct Hshape as [(m & e & ->)| ->]; reflexivity.
  - intros H. assert (Es : (bp <? 0) = true) by (apply Z.ltb_lt; specialize (Hle (Hn' H)); lia).
    rewrite Es in Hshape. destruct Hshape as [(m & e & ->)| ->]; reflexivity.
  - intros H. destruct (Z.ltb_spec bp 0) as [Hneg|Hnn].
    + apply percent_of_a_loss. auto with zarith.
    + destruct Hshape as [(m & e & ->)| ->]; reflexivity.
Qed.

Example pnl_percent_of_a_total_loss :
  pnl_percent (calculatePnL 0 3) = Number.ofBigInt (-100)
  /\ Number.toQ (pnl_percent (calculatePnL 2 3))
     = Some (inject_Z (-4690780486883082) * 2 ^ (-47))%Q.
Proof. split; reflexivity. Qed.
